(** * HDBSCAN (hdbscan-ts): a shallow embedding of [src/hdbscan/core.ts]

    The development follows the class [HDBSCAN] method by method:
    the constructor, [computeMutualReachabilityDistance],
    [buildMinimumSpanningTree], [buildClusterHierarchy] with
    [createCluster], [splitClusterAtEdge] and [find], [condenseHierarchy],
    [extractClusters] with [calculateClusterStability],
    [assignClusterLabels] and [calculateMembership], and [fit].

    Numbers.  A JavaScript [number] is modelled by [num]: a rational or one
    of the IEEE special values [+Infinity], [-Infinity], [NaN].  An
    arithmetic operation overflows as in binary64: an exact result of
    magnitude [2^1024 - 2^970] or more (the largest double plus half a unit
    in its last place) is [+Infinity] or [-Infinity].  Below that the
    result is the exact rational: the rounding of a result to 53 bits, and
    with it underflow, is not modelled.  The special values follow
    IEEE 754 as JavaScript exposes it ([1/0 = Infinity], [0/0 = NaN],
    [Infinity - Infinity = NaN], every comparison with [NaN] is false).
    Negative zero is not modelled: every divisor of the program is a sum of
    squares or a [Math.max] with [0].

    Exceptions.  A method returns [result A]: a value, a thrown
    [Error(msg)], the [TypeError] of a property read on [undefined], or
    [Diverge] for a loop that does not end: a loop of the model is given
    fuel for more passes than a loop that ends can take. *)

From Stdlib Require Import QArith Qminmax Lqa.
From stdpp Require Import base option list sorting gmap strings.

Local Open Scope nat_scope.
#[local] Set Warnings "-clear-no-such-hyp".

(** ** JavaScript numbers *)

Module Num.

Inductive num : Type :=
  | Fin (q : Q)
  | PInf
  | NInf
  | NaN.

Definition zero : num := Fin 0.
Definition one : num := Fin 1.
Definition of_nat (n : nat) : num := Fin (inject_Z (Z.of_nat n)).
Definition of_Z (z : Z) : num := Fin (inject_Z z).

Definition Qltb (a b : Q) : bool := negb (Qle_bool b a).
Definition Qeqb (a b : Q) : bool := Qeq_bool a b.

(** the overflow threshold of binary64 under rounding to nearest: the
    largest double is [2^1024 - 2^971], and an exact result from
    [2^1024 - 2^970] on rounds to an infinity *)
Definition huge : Q := Eval vm_compute in inject_Z (2 ^ 1024 - 2 ^ 970).

(** the value of an operation whose exact result is [q] *)
Definition overflow (q : Q) : num :=
  if Qle_bool huge q then PInf
  else if Qle_bool q (- huge) then NInf
  else Fin q.

Definition neg (x : num) : num :=
  match x with
  | Fin q => Fin (- q)
  | PInf => NInf
  | NInf => PInf
  | NaN => NaN
  end.

(** [x + y] *)
Definition add (x y : num) : num :=
  match x, y with
  | NaN, _ | _, NaN => NaN
  | PInf, NInf | NInf, PInf => NaN
  | PInf, _ | _, PInf => PInf
  | NInf, _ | _, NInf => NInf
  | Fin a, Fin b => overflow (a + b)
  end.

(** [x - y] *)
Definition sub (x y : num) : num := add x (neg y).

(** the sign of a number that is not [NaN]: [Lt], [Eq] (zero) or [Gt] *)
Definition sign (x : num) : comparison :=
  match x with
  | Fin q => 0 ?= q
  | PInf => Lt
  | NInf => Gt
  | NaN => Eq
  end%Q.

(** [x * y] *)
Definition mul (x y : num) : num :=
  match x, y with
  | NaN, _ | _, NaN => NaN
  | Fin a, Fin b => overflow (a * b)
  | _, _ =>
      match sign x, sign y with
      | Eq, _ | _, Eq => NaN
      | Lt, Lt | Gt, Gt => PInf
      | _, _ => NInf
      end
  end.

(** [x / y] *)
Definition div (x y : num) : num :=
  match x, y with
  | NaN, _ | _, NaN => NaN
  | Fin a, Fin b =>
      if Qeqb b 0 then
        match sign x with Eq => NaN | Lt => PInf | Gt => NInf end
      else overflow (a / b)
  | Fin _, _ => Fin 0
  | _, Fin _ =>
      match sign x, sign y with
      | Lt, Gt | Gt, Lt | Gt, Eq => NInf
      | _, _ => PInf
      end
  | _, _ => NaN
  end.

(** [x ** 2] *)
Definition sq (x : num) : num := mul x x.

(** [x < y] *)
Definition ltb (x y : num) : bool :=
  match x, y with
  | NaN, _ | _, NaN => false
  | Fin a, Fin b => Qltb a b
  | NInf, NInf => false
  | NInf, _ => true
  | _, NInf => false
  | PInf, _ => false
  | _, PInf => true
  end.

(** [x <= y] *)
Definition leb (x y : num) : bool :=
  match x, y with
  | NaN, _ | _, NaN => false
  | Fin a, Fin b => Qle_bool a b
  | NInf, _ => true
  | _, NInf => false
  | _, PInf => true
  | PInf, _ => false
  end.

(** [x > y] and [x >= y] *)
Definition gtb (x y : num) : bool := ltb y x.
Definition geb (x y : num) : bool := leb y x.

(** [Math.max(x, y)] and [Math.min(x, y)] *)
Definition max (x y : num) : num :=
  match x, y with
  | NaN, _ | _, NaN => NaN
  | _, _ => if ltb x y then y else x
  end.

Definition min (x y : num) : num :=
  match x, y with
  | NaN, _ | _, NaN => NaN
  | _, _ => if ltb y x then y else x
  end.

(** [x === Infinity] *)
Definition is_PInf (x : num) : bool :=
  match x with PInf => true | _ => false end.

Definition is_NaN (x : num) : bool :=
  match x with NaN => true | _ => false end.

(** truthiness of a number: [0] and [NaN] are falsy *)
Definition truthy (x : num) : bool :=
  match x with
  | Fin q => negb (Qeqb q 0)
  | NaN => false
  | _ => true
  end.

(** The array index a number denotes in [arr[x]]: a non-negative integer.
    Any other number names a property an array does not have. *)
Definition to_index (x : num) : option nat :=
  match x with
  | Fin q =>
      let q' := Qred q in
      if (Qden q' =? 1)%positive && (0 <=? Qnum q')%Z
      then Some (Z.to_nat (Qnum q')) else None
  | _ => None
  end.

Definition finite (x : num) : Prop :=
  match x with Fin _ => True | _ => False end.

(** a number that is not negative: a rational [>= 0], or [Infinity] *)
Definition nonneg (x : num) : Prop :=
  match x with
  | Fin q => (0 <= q)%Q
  | PInf => True
  | _ => False
  end.

(** equality of numbers as values: rationals up to [Qeq] *)
Definition eqv (x y : num) : Prop :=
  match x, y with
  | Fin a, Fin b => (a == b)%Q
  | PInf, PInf | NInf, NInf | NaN, NaN => True
  | _, _ => False
  end.

(** a canonical representative, for reading computed values *)
Definition norm (x : num) : num :=
  match x with Fin q => Fin (Qred q) | _ => x end.

#[global] Instance num_inhabited : Inhabited num := populate NaN.

End Num.

Export Num (num, Fin, PInf, NInf, NaN).

#[global] Arguments Num.overflow : simpl never.

(** ** Results of methods that may throw *)

Inductive exn : Type :=
  | Thrown (msg : string)   (* [throw new Error(msg)] *)
  | TypeError               (* a property read on [undefined] *)
  | Diverge.                (* a loop did not end within its fuel *)

Inductive result (A : Type) : Type :=
  | Ok (a : A)
  | Err (e : exn).
Arguments Thrown msg%_string.
Arguments Ok {A} a.
Arguments Err {A} e.

#[global] Instance result_ret : MRet result := fun A a => Ok a.
#[global] Instance result_bind : MBind result := fun A B f m =>
  match m with Ok a => f a | Err e => Err e end.
#[global] Instance result_fmap : FMap result := fun A B f m =>
  match m with Ok a => Ok (f a) | Err e => Err e end.

Definition is_Ok {A} (r : result A) : Prop :=
  match r with Ok _ => True | Err _ => False end.

(** [o.prop] where [o] may be [undefined] *)
Definition defined {A} (o : option A) : result A :=
  match o with Some a => Ok a | None => Err TypeError end.

(** ** Arrays *)

(** [arr[i]] of an array of numbers; [undefined] behaves like [NaN] in the
    arithmetic and the comparisons that read it. *)
Definition get (l : list num) (i : nat) : num := default NaN (l !! i).

(** [m[i][j]] for a row [i] that exists *)
Definition mget (m : list (list num)) (i j : nat) : num :=
  get (default [] (m !! i)) j.

(** [arr.reduce((acc, curr, index) => f(acc, curr, index), init)] *)
Fixpoint reduce_from {A B} (f : B → A → nat → B) (index : nat) (l : list A)
    (acc : B) : B :=
  match l with
  | [] => acc
  | curr :: l' => reduce_from f (S index) l' (f acc curr index)
  end.

(** [arr.sort(cmp)]: a stable sort; [x] stays in front of [y] unless
    [cmp(x, y) > 0]. *)
Fixpoint sort_insert {A} (cmp : A → A → num) (x : A) (l : list A) : list A :=
  match l with
  | [] => [x]
  | y :: l' =>
      if Num.ltb Num.zero (cmp x y) then y :: sort_insert cmp x l' else x :: l
  end.

Definition js_sort {A} (cmp : A → A → num) (l : list A) : list A :=
  foldr (sort_insert cmp) [] l.

(** [arr.includes(x)] *)
Definition includes (l : list nat) (x : nat) : bool := bool_decide (x ∈ l).

(** ** The data model *)

(** an MST edge [[source, destination, weight]] *)
Definition Edge : Type := nat * nat * num.

Definition weight (e : Edge) : num := e.2.

Record Cluster : Type := mkCluster {
  id : nat;
  children : list nat;
  distance : num;
  size : nat;
  stability : option num;
  maxEdgeWeight : num;
  birthDistance : num;
  leaveEdgeWeight : num;
  minReachabilityMap : gmap nat num;
  (* a child is referenced by its [id] *)
  leftChild : option nat;
  rightChild : option nat
}.

Definition set_stability (s : num) (c : Cluster) : Cluster :=
  mkCluster (id c) (children c) (distance c) (size c) (Some s)
    (maxEdgeWeight c) (birthDistance c) (leaveEdgeWeight c)
    (minReachabilityMap c) (leftChild c) (rightChild c).

Definition set_leftChild (l : nat) (c : Cluster) : Cluster :=
  mkCluster (id c) (children c) (distance c) (size c) (stability c)
    (maxEdgeWeight c) (birthDistance c) (leaveEdgeWeight c)
    (minReachabilityMap c) (Some l) (rightChild c).

Definition set_rightChild (r : nat) (c : Cluster) : Cluster :=
  mkCluster (id c) (children c) (distance c) (size c) (stability c)
    (maxEdgeWeight c) (birthDistance c) (leaveEdgeWeight c)
    (minReachabilityMap c) (leftChild c) (Some r).

(** The instance.  The field [clusterMap] is written by [createCluster]
    and never read; it is left out. *)
Record HDBSCAN : Type := mkHDBSCAN {
  debugMode : bool;
  minClusterSize : num;
  minSamples : num;
  labels_ : list Z;
  probabilities_ : list num;
  nextClusterId : nat;
  sortedEdges : list Edge;
  shouldSkipRootCluster : bool;
  mutualReachabilityDistance : list (list num)
}.

Definition set_mutualReachabilityDistance (m : list (list num))
    (this : HDBSCAN) : HDBSCAN :=
  mkHDBSCAN (debugMode this) (minClusterSize this) (minSamples this)
    (labels_ this) (probabilities_ this) (nextClusterId this)
    (sortedEdges this) (shouldSkipRootCluster this) m.

Definition set_sortedEdges (es : list Edge) (this : HDBSCAN) : HDBSCAN :=
  mkHDBSCAN (debugMode this) (minClusterSize this) (minSamples this)
    (labels_ this) (probabilities_ this) (nextClusterId this)
    es (shouldSkipRootCluster this) (mutualReachabilityDistance this).

Definition set_nextClusterId (k : nat) (this : HDBSCAN) : HDBSCAN :=
  mkHDBSCAN (debugMode this) (minClusterSize this) (minSamples this)
    (labels_ this) (probabilities_ this) k
    (sortedEdges this) (shouldSkipRootCluster this)
    (mutualReachabilityDistance this).

Definition set_outputs (ls : list Z) (ps : list num) (this : HDBSCAN)
    : HDBSCAN :=
  mkHDBSCAN (debugMode this) (minClusterSize this) (minSamples this)
    ls ps (nextClusterId this)
    (sortedEdges this) (shouldSkipRootCluster this)
    (mutualReachabilityDistance this).

(** ** The constructor *)

Record HDBSCANParams : Type := mkParams {
  p_debugMode : option bool;
  p_minClusterSize : option num;
  p_minSamples : option num;
  p_shouldSkipRootCluster : option bool
}.

Definition effective_minClusterSize (p : HDBSCANParams) : num :=
  default (Fin 5) (p_minClusterSize p).

Definition effective_minSamples (p : HDBSCANParams) : num :=
  default (effective_minClusterSize p) (p_minSamples p).

Definition constructor (p : HDBSCANParams) : result HDBSCAN :=
  let minClusterSize := effective_minClusterSize p in
  let minSamples := effective_minSamples p in
  let debugMode := default false (p_debugMode p) in
  let shouldSkipRootCluster := default true (p_shouldSkipRootCluster p) in
  if Num.leb minClusterSize Num.zero then
    Err (Thrown "minClusterSize must be greater than 0")
  else if Num.leb minSamples Num.zero then
    Err (Thrown "minSamples must be greater than 0")
  else
    Ok {| debugMode := debugMode;
          minClusterSize := minClusterSize;
          (* [minSamples || minClusterSize] *)
          minSamples :=
            if Num.truthy minSamples then minSamples else minClusterSize;
          labels_ := [];
          probabilities_ := [];
          nextClusterId := 0;
          sortedEdges := [];
          shouldSkipRootCluster := shouldSkipRootCluster;
          mutualReachabilityDistance := [] |}.

(** ** Step 1: the mutual reachability distance *)

Definition euclideanDistance (a b : list num) : num :=
  reduce_from
    (fun acc curr index => Num.add acc (Num.sq (Num.sub curr (get b index))))
    0 a Num.zero.

Record PointDistance : Type := mkPD { pd_index : nat; pd_distance : num }.

(** the array [pointDistances] of point [i], before it is sorted *)
Definition pointDistances (data : list (list num)) (i : nat)
    : list PointDistance :=
  (fun j => mkPD j (euclideanDistance (default [] (data !! i))
                                      (default [] (data !! j))))
    <$> filter (fun j => i ≠ j) (seq 0 (length data)).

Definition by_distance (a b : PointDistance) : num :=
  Num.sub (pd_distance a) (pd_distance b).

(** [coreDistances[i]] *)
Definition coreDistance (minSamples : num) (data : list (list num)) (i : nat)
    : result num :=
  let pds := js_sort by_distance (pointDistances data i) in
  let k := Num.min (Num.sub minSamples Num.one)
                   (Num.of_Z (Z.of_nat (length pds) - 1)) in
  pd ← defined (Num.to_index k ≫= (pds !!.));
  mret (pd_distance pd).

Definition max3 (a b c : num) : num := Num.max (Num.max a b) c.

Definition computeMutualReachabilityDistance (this : HDBSCAN)
    (data : list (list num)) : result (HDBSCAN * list (list num)) :=
  let n := length data in
  coreDistances ← mapM (coreDistance (minSamples this) data) (seq 0 n);
  let distanceMatrix :=
    (fun i =>
       (fun j =>
          let directDistance :=
            euclideanDistance (default [] (data !! i)) (default [] (data !! j)) in
          max3 directDistance (get coreDistances i) (get coreDistances j))
       <$> seq 0 n)
    <$> seq 0 n in
  mret (set_mutualReachabilityDistance distanceMatrix this, distanceMatrix).

(** ** Step 2: the minimum spanning tree (Prim) *)

Record PrimState : Type := mkPrim {
  visited : gset nat;
  minEdges : list num;
  minEdgeConnections : list Z;
  edges : list Edge
}.

(** the state before the [while] loop *)
Definition prim_init (distances : list (list num)) : PrimState :=
  let n := length distances in
  foldl (fun st i =>
           mkPrim (visited st) (<[i := mget distances 0 i]> (minEdges st))
                  (<[i := 0%Z]> (minEdgeConnections st)) (edges st))
        (mkPrim {[0]} (replicate n PInf) (replicate n (-1)%Z) [])
        (seq 1 (n - 1)).

(** the scan for the unvisited vertex of least [minEdges] *)
Definition prim_scan (n : nat) (st : PrimState) : num * option nat :=
  foldl (fun '(minDist, nextVertex) i =>
           if bool_decide (i ∉ visited st) && Num.ltb (get (minEdges st) i) minDist
           then (get (minEdges st) i, Some i)
           else (minDist, nextVertex))
        (PInf, None) (seq 0 n).

(** the update of [minEdges] from the vertex just visited; [st] already
    holds [nextVertex] in [visited] *)
Definition prim_relax (distances : list (list num)) (n nextVertex : nat)
    (st : PrimState) : PrimState :=
  foldl (fun st i =>
           if bool_decide (i ∉ visited st)
              && Num.ltb (mget distances nextVertex i) (get (minEdges st) i)
           then mkPrim (visited st)
                  (<[i := mget distances nextVertex i]> (minEdges st))
                  (<[i := Z.of_nat nextVertex]> (minEdgeConnections st))
                  (edges st)
           else st)
        st (seq 0 n).

(** one pass through the body of the [while] loop.  [minEdgeConnections]
    holds [-1] only where it was never written, which is at vertex [0]. *)
Definition prim_body (distances : list (list num)) (n : nat) (st : PrimState)
    : PrimState :=
  match prim_scan n st with
  | (minDist, Some nextVertex) =>
      let source := Z.to_nat (default (-1)%Z (minEdgeConnections st !! nextVertex)) in
      prim_relax distances n nextVertex
        (mkPrim ({[nextVertex]} ∪ visited st) (minEdges st)
                (minEdgeConnections st)
                (edges st ++ [(source, nextVertex, minDist)]))
  | (_, None) => st
  end.

Fixpoint prim_while (fuel : nat) (distances : list (list num)) (n : nat)
    (st : PrimState) : result (list Edge) :=
  match fuel with
  | 0 => Err Diverge
  | S fuel =>
      if bool_decide (base.size (visited st) < n)
      then prim_while fuel distances n (prim_body distances n st)
      else Ok (edges st)
  end.

Definition buildMinimumSpanningTree (distances : list (list num))
    : result (list Edge) :=
  let n := length distances in
  prim_while (S n) distances n (prim_init distances).

(** ** Step 3: the cluster hierarchy *)

Definition source (e : Edge) : nat := e.1.1.
Definition destination (e : Edge) : nat := e.1.2.

(** a loop whose body may throw *)
Fixpoint foldM {A B} (f : B → A → result B) (acc : B) (l : list A)
    : result B :=
  match l with
  | [] => Ok acc
  | x :: l' => acc' ← f acc x; foldM f acc' l'
  end.

Definition getMinReachability (point : nat) (clusterPoints : list nat)
    (sortedEdges : list Edge) : num :=
  let relevantEdges :=
    filter (fun e : Edge =>
              (source e = point ∨ destination e = point)
              ∧ source e ∈ clusterPoints ∧ destination e ∈ clusterPoints)
           sortedEdges in
  foldl (fun min e =>
           if bool_decide (source e = point ∨ destination e = point)
           then Num.min min (weight e) else min)
        PInf relevantEdges.

Definition createCluster (this : HDBSCAN) (points : list nat) (distance : num)
    (sortedEdges : list Edge) (birthDistance : num) : HDBSCAN * Cluster :=
  let '(minReachMap, leaveEdgeWeight) :=
    foldl (fun '(minReachMap, leaveEdgeWeight) p =>
             let minReach := getMinReachability p points sortedEdges in
             (* set it to 0 if no reachability was found for that point *)
             let minReach := if Num.is_PInf minReach then Num.zero else minReach in
             (<[p := minReach]> minReachMap, Num.max leaveEdgeWeight minReach))
          ((∅ : gmap nat num), Num.zero) points in
  let cluster :=
    {| id := nextClusterId this;
       children := points;
       distance := distance;
       size := length points;
       stability := None;
       maxEdgeWeight := distance;
       birthDistance := birthDistance;
       minReachabilityMap := minReachMap;
       leaveEdgeWeight := leaveEdgeWeight;
       leftChild := None;
       rightChild := None |} in
  (set_nextClusterId (S (nextClusterId this)) this, cluster).

(** [find(x, parent)]: the root of [x], with the array after path
    compression.  The recursion of the source is bounded by [fuel]. *)
Fixpoint find_rec (fuel : nat) (x : nat) (parent : list nat)
    : result (nat * list nat) :=
  match fuel with
  | 0 => Err Diverge
  | S fuel =>
      if bool_decide (length parent ≤ x) then
        Err (Thrown "find called with x greater than parent array length")
      else
        let px := default 0 (parent !! x) in
        if bool_decide (px ≠ x) then
          '(root, parent) ← find_rec fuel px parent;
          mret (root, <[x := root]> parent)
        else mret (px, parent)
  end.

Definition find (x : nat) (parent : list nat) : result (nat * list nat) :=
  find_rec (S (length parent)) x parent.

(** [components.get(root).push(point)] on the insertion-ordered map
    [components], after [components.set(root, [])] for a new [root] *)
Fixpoint push_component (root point : nat) (components : list (nat * list nat))
    : list (nat * list nat) :=
  match components with
  | [] => [(root, [point])]
  | (r, ps) :: rest =>
      if bool_decide (r = root) then (r, ps ++ [point]) :: rest
      else (r, ps) :: push_component root point rest
  end.

(** the unions of [splitClusterAtEdge] *)
Definition split_union (points : list nat) (parent : list nat) (e : Edge)
    : result (list nat) :=
  if includes points (source e) && includes points (destination e) then
    '(rootX, parent) ← find (source e) parent;
    '(rootY, parent) ← find (destination e) parent;
    mret (if bool_decide (rootX ≠ rootY) then <[rootY := rootX]> parent
          else parent)
  else mret parent.

(** the grouping of [splitClusterAtEdge] *)
Definition split_state : Type := list nat * list (nat * list nat).

Definition split_group (st : split_state) (point : nat) : result split_state :=
  '(root, parent) ← find point st.1;
  mret (parent, push_component root point st.2).

(** [Array.from(components.values())] *)
Definition component_values (st : split_state) : list (list nat) :=
  snd <$> st.2.

Definition splitClusterAtEdge (this : HDBSCAN) (points : list nat)
    (removed : Edge) (sortedEdges' : list Edge) : result (list (list nat)) :=
  let distance := weight removed in
  let parent := seq 0 (length (sortedEdges this) + 1) in
  parent ← foldM (split_union points) parent
             (filter (fun e : Edge => Num.leb (weight e) distance) sortedEdges');
  st ← foldM split_group ((parent, []) : split_state) points;
  mret (component_values st).

(** the largest index whose element satisfies [P] *)
Fixpoint find_last {A} (P : A → bool) (l : list A) : option nat :=
  match l with
  | [] => None
  | x :: l' =>
      match find_last P l' with
      | Some i => Some (S i)
      | None => if P x then Some 0 else None
      end
  end.

(** The cluster is returned by reference: as its index in [hierarchy]. *)
Definition findClusterContainingPoints (points : list nat)
    (hierarchy : list Cluster) : option nat :=
  find_last (fun cluster => forallb (includes (children cluster)) points)
            hierarchy.

(** the test on [components] that guards the [throw] *)
Definition components_ok (components : list (list nat)) : bool :=
  if (2 <? length components)
     || ((length components <? 2)
         && forallb (fun c => length c =? 1) components) then true
  else if length components =? 0 then true
  else if length components =? 2 then true
  else false.

(** [x.length >= this.minClusterSize] *)
Definition large_enough (this : HDBSCAN) (len : nat) : bool :=
  Num.geb (Num.of_nat len) (minClusterSize this).

(** the body of the loop over the sorted edges; [hierarchy] is the array
    of the clusters, which the body updates in place and extends; [sorted] is the local
    [sortedEdges], not the field [this.sortedEdges] *)
Definition hierarchy_step (sorted : list Edge)
    (st : HDBSCAN * list Cluster) (index : nat)
    : result (HDBSCAN * list Cluster) :=
  let '(this, hierarchy) := st in
  edge ← defined (sorted !! index);
  let distance := weight edge in
  match findClusterContainingPoints [source edge; destination edge] hierarchy with
  | None => Err (Thrown "parentCluster not found")
  | Some parentIndex =>
      parentCluster ← defined (hierarchy !! parentIndex);
      if bool_decide (is_Some (leftChild parentCluster)) then mret st
      else
        components ← splitClusterAtEdge this (children parentCluster) edge
                        (drop (index + 1) sorted);
        if negb (components_ok components) then
          Err (Thrown "splitClusterAtEdge returned less or more than 2 components")
        else
          match components with
          | [leftPoints; rightPoints] =>
              let '(this, leftCluster) :=
                createCluster this leftPoints distance (sortedEdges this)
                              (weight edge) in
              let isLeftCluster := large_enough this (length leftPoints) in
              let hierarchy :=
                if isLeftCluster
                then alter (set_leftChild (id leftCluster)) parentIndex hierarchy
                     ++ [leftCluster]
                else hierarchy ++ [set_stability Num.zero leftCluster] in
              let '(this, rightCluster) :=
                createCluster this rightPoints distance (sortedEdges this)
                              (weight edge) in
              let isRightCluster := large_enough this (length rightPoints) in
              let hierarchy :=
                if isRightCluster
                then alter (set_rightChild (id rightCluster)) parentIndex hierarchy
                     ++ [rightCluster]
                else hierarchy ++ [set_stability Num.zero rightCluster] in
              let hierarchy :=
                if (isLeftCluster && negb isRightCluster)
                   || (negb isLeftCluster && isRightCluster)
                then alter (set_stability Num.zero) parentIndex hierarchy
                else hierarchy in
              mret (this, hierarchy)
          | _ => mret st
          end
  end.

Definition by_weight_desc (a b : Edge) : num := Num.sub (weight b) (weight a).

Definition buildClusterHierarchy (this : HDBSCAN) (mst : list Edge)
    : result (HDBSCAN * list Cluster) :=
  let n := length mst + 1 in
  let sorted := js_sort by_weight_desc mst in
  let allPoints := seq 0 n in
  first ← defined (sorted !! 0);
  let '(this, rootCluster) :=
    createCluster this allPoints (weight first) sorted (weight first) in
  let hierarchy := [set_stability Num.zero rootCluster] in
  foldM (hierarchy_step sorted) (this, hierarchy) (seq 0 (length sorted)).

(** ** Step 4: condensation *)

(** [s.add(x)] on an insertion-ordered [Set] *)
Definition set_add (x : nat) (s : list nat) : list nat :=
  if bool_decide (x ∈ s) then s else s ++ [x].

(** [new Set(cluster.children)], in insertion order *)
Definition getClusterPoints (cluster : Cluster) : list nat :=
  foldl (fun s x => set_add x s) [] (children cluster).

Definition condenseHierarchy (this : HDBSCAN) (hierarchy : list Cluster)
    : list Cluster :=
  filter (fun cluster =>
            Num.geb (Num.of_nat (length (getClusterPoints cluster)))
                    (minClusterSize this))
         hierarchy.

(** ** Step 5: extraction *)

Definition calculateClusterStability (cluster : Cluster) (points : list nat)
    : num :=
  let epsilon_max := birthDistance cluster in
  Num.add Num.zero
    (Num.mul (Num.sub (Num.div Num.one (leaveEdgeWeight cluster))
                      (Num.div Num.one epsilon_max))
             (Num.of_nat (length points))).

Definition calculateMembership (point : nat) (cluster : Cluster) : num :=
  let epsilon_min := default NaN (minReachabilityMap cluster !! point) in
  let epsilon_max := maxEdgeWeight cluster in
  Num.sub Num.one (Num.div epsilon_min epsilon_max).

(** The clusters of the condensed hierarchy are referenced by their index
    in it.  [selected] is the insertion-ordered [Set<Cluster>]. *)
Record ExtractState : Type := mkExtract {
  condensed : list Cluster;
  selected : list nat;
  discarded : gset nat
}.

Definition is_childCluster (cluster c : Cluster) : bool :=
  bool_decide (id c ≠ id cluster)
  && Num.leb (distance c) (distance cluster)
  && forallb (includes (children cluster)) (children c).

(** [arr.filter(P)] as the indices of the elements kept *)
Definition filter_indices {A} (P : A → bool) (l : list A) : list nat :=
  filter (fun j => from_option P false (l !! j)) (seq 0 (length l)).

Definition childClusters (condensedHierarchy : list Cluster) (cluster : Cluster)
    : list nat :=
  filter_indices (is_childCluster cluster) condensedHierarchy.

(** [childClusters.map(c => { ...; c.stability = stability; ... })]: the
    hierarchy after the assignments, and the stabilities *)
Definition childrenStabilities (hier : list Cluster) (childs : list nat)
    : list Cluster * list num :=
  foldl (fun '(hier, acc) j =>
           match hier !! j with
           | Some c =>
               let stability := calculateClusterStability c (getClusterPoints c) in
               (alter (set_stability stability) j hier, acc ++ [stability])
           | None => (hier, acc)
           end)
        (hier, []) childs.

Fixpoint processCluster (fuel : nat) (this : HDBSCAN) (st : ExtractState)
    (ci : nat) : result ExtractState :=
  match fuel with
  | 0 => Err Diverge
  | S fuel =>
      cluster ← defined (condensed st !! ci);
      if bool_decide (id cluster ∈ discarded st) then mret st
      else
        let clusterPoints := getClusterPoints cluster in
        let stability := calculateClusterStability cluster clusterPoints in
        let childs := childClusters (condensed st) cluster in
        let '(hier, stabilities) := childrenStabilities (condensed st) childs in
        let childrenStability := foldl Num.add Num.zero stabilities in
        let hier := alter (set_stability stability) ci hier in
        let '(stability, hier) :=
          if bool_decide (id cluster = 0) && shouldSkipRootCluster this
          then (Num.zero, alter (set_stability Num.zero) ci hier)
          else (stability, hier) in
        let child_ids := omap (fun j => id <$> hier !! j) childs in
        if (Num.gtb stability childrenStability
            && Num.geb (Num.of_nat (length clusterPoints)) (minClusterSize this))
           || forallb (fun j =>
                         from_option
                           (fun c => Num.ltb (Num.of_nat (length (children c)))
                                             (minClusterSize this))
                           true (hier !! j)) childs
        then
          mret (mkExtract hier (set_add ci (selected st))
                          (list_to_set child_ids ∪ discarded st))
        else
          let discarded' := {[id cluster]} ∪ discarded st in
          let todo :=
            filter (fun j =>
                      from_option
                        (fun c => Num.geb (Num.of_nat (size c)) (minClusterSize this)
                                  && bool_decide (id c ∉ discarded'))
                        false (hier !! j)) childs in
          foldM (processCluster fuel this) (mkExtract hier (selected st) discarded')
                todo
  end.

(** [assignClusterLabels]: the arrays [labels_] and [probabilities_].  A
    point of a cluster is an index below [n], so that no write extends an
    array. *)
Definition assign_cluster (this : HDBSCAN) (hier : list Cluster)
    (acc : list Z * list num * Z) (ci : nat) : list Z * list num * Z :=
  let '(labels, probabilities, currentLabel) := acc in
  match hier !! ci with
  | Some cluster =>
      let points := getClusterPoints cluster in
      if Num.geb (Num.of_nat (length points)) (minClusterSize this) then
        let '(labels, probabilities) :=
          foldl (fun '(labels, probabilities) point =>
                   (<[point := currentLabel]> labels,
                    <[point := calculateMembership point cluster]> probabilities))
                (labels, probabilities) points in
        (labels, probabilities, (currentLabel + 1)%Z)
      else acc
  | None => acc
  end.

Definition assignClusterLabels (this : HDBSCAN) (hier : list Cluster)
    (selectedClusters : list nat) (data : list (list num)) : HDBSCAN :=
  let n := length data in
  let '(labels, probabilities, _) :=
    foldl (assign_cluster this hier)
          (replicate n (-1)%Z, replicate n Num.zero, 0%Z) selectedClusters in
  set_outputs labels probabilities this.

Definition extractClusters (this : HDBSCAN) (condensedHierarchy : list Cluster)
    (data : list (list num)) : result HDBSCAN :=
  st ← (if bool_decide (0 < length condensedHierarchy)
        then processCluster (S (length condensedHierarchy)) this
               (mkExtract condensedHierarchy [] ∅) 0
        else mret (mkExtract condensedHierarchy [] ∅));
  mret (assignClusterLabels this (condensed st) (selected st) data).

(** ** [fit] *)

Definition fit (this : HDBSCAN) (data : list (list num)) : result HDBSCAN :=
  '(this, mutualReachabilityDist) ← computeMutualReachabilityDistance this data;
  mst ← buildMinimumSpanningTree mutualReachabilityDist;
  let this := set_sortedEdges mst this in
  '(this, hierarchy) ← buildClusterHierarchy this mst;
  let condensedHierarchy := condenseHierarchy this hierarchy in
  extractClusters this condensedHierarchy data.

(** ** Concrete inputs *)

(** a point with integer coordinates *)
Definition point (coords : list Z) : list num := Num.of_Z <$> coords.

(** [new HDBSCAN({ minClusterSize, minSamples })] *)
Definition params (minClusterSize minSamples : Z) : HDBSCANParams :=
  mkParams None (Some (Num.of_Z minClusterSize)) (Some (Num.of_Z minSamples)) None.

(** [new HDBSCAN({ minClusterSize })] *)
Definition params_size (minClusterSize : Z) : HDBSCANParams :=
  mkParams None (Some (Num.of_Z minClusterSize)) None None.

(** [h = new HDBSCAN(p); h.fit(data)] *)
Definition fit_once (p : HDBSCANParams) (data : list (list num))
    : result HDBSCAN :=
  h ← constructor p; fit h data.

(** [h = new HDBSCAN(p); h.fit(data); h.fit(data)] *)
Definition fit_twice (p : HDBSCANParams) (data : list (list num))
    : result HDBSCAN :=
  h ← constructor p; h ← fit h data; fit h data.

(** the hierarchy a first [fit] builds *)
Definition hierarchy_of (p : HDBSCANParams) (data : list (list num))
    : result (HDBSCAN * list Cluster) :=
  h ← constructor p;
  '(h, m) ← computeMutualReachabilityDistance h data;
  mst ← buildMinimumSpanningTree m;
  buildClusterHierarchy (set_sortedEdges mst h) mst.

(** the matrix [computeMutualReachabilityDistance] returns for a given
    [minSamples] *)
Definition mutualReachabilityDistance_of (minSamples : Z)
    (data : list (list num)) : result (list (list num)) :=
  h ← constructor (params 5 minSamples);
  snd <$> computeMutualReachabilityDistance h data.

Definition norm_matrix (m : list (list num)) : list (list num) :=
  (fun row : list num => Num.norm <$> row) <$> m.

Definition norm_probabilities (h : HDBSCAN) : list num :=
  Num.norm <$> probabilities_ h.

(** the points 0 and 2 on a line *)
Definition two_points : list (list num) := point <$> [[0]; [2]]%Z.

(** three points and a pair on a line: 0, 1, 2 and 4, 5 *)
Definition line_3_2 : list (list num) :=
  point <$> [[0]; [1]; [2]; [4]; [5]]%Z.

(** three near points and a far one on a line: 0, 1, 3 and 10 *)
Definition line_3_1 : list (list num) :=
  point <$> [[0]; [1]; [3]; [10]]%Z.


(** the same point twice *)
Definition twins : list (list num) := point <$> [[0]; [0]]%Z.

(** ** The specification's notions, for comparison with the code *)

(** [d] is the Euclidean distance of two points with rational coordinates:
    the non-negative [d] whose square is the sum of the squared
    differences. *)
Definition sum_of_squares (a b : list Q) : Q :=
  foldr Qplus 0%Q (zip_with (fun x y => (x - y) * (x - y))%Q a b).

Definition is_euclidean_distance (d : num) (a b : list Q) : Prop :=
  match d with
  | Fin q => (0 <= q)%Q ∧ (q * q == sum_of_squares a b)%Q
  | _ => False
  end.


(** the mutual reachability matrix of [line_3_1] for [minSamples = 2] *)
Definition matrix_3_1 : list (list num) :=
  point <$> [[9; 9; 9; 100]; [9; 4; 9; 81]; [9; 9; 9; 81]; [100; 81; 81; 81]]%Z.

(** ** Prim's algorithm, as the specification describes it *)

(** a matrix of finite weights over [length m] points *)
Definition square_finite (m : list (list num)) : Prop :=
  Forall (fun row => length row = length m ∧ Forall Num.finite row) m.

Definition symmetric (m : list (list num)) : Prop :=
  ∀ i j, mget m i j = mget m j i.

(** [prim_order m n vis es]: from the visited set [vis], Prim's algorithm
    on [m] discovers the edges [es] in this order.  Each edge [(u, v, w)]
    leads from a visited [u] to an unvisited [v], its weight [w = m[u][v]]
    is least among the weights from a visited to an unvisited vertex, and
    every unvisited vertex of smaller index than [v] is strictly farther
    from the visited ones. *)
Inductive prim_order (m : list (list num)) (n : nat)
    : gset nat → list Edge → Prop :=
  | prim_order_done vis : prim_order m n vis []
  | prim_order_next vis u v w es :
      u ∈ vis → v ∉ vis → v < n →
      w = mget m u v →
      (∀ a b, a ∈ vis → b ∉ vis → b < n → Num.leb w (mget m a b) = true) →
      (∀ a b, a ∈ vis → b ∉ vis → b < v → Num.ltb w (mget m a b) = true) →
      prim_order m n ({[v]} ∪ vis) es →
      prim_order m n vis ((u, v, w) :: es).

(** the invariant of the [while] loop of [buildMinimumSpanningTree] *)
Record prim_inv (m : list (list num)) (n : nat) (st : PrimState) : Prop := {
  prim_inv_start : 0 ∈ visited st;
  prim_inv_bound : ∀ v, v ∈ visited st → v < n;
  prim_inv_minEdges : length (minEdges st) = n;
  prim_inv_connections : length (minEdgeConnections st) = n;
  prim_inv_best : ∀ i, i < n → i ∉ visited st →
    ∃ u q, u ∈ visited st
      ∧ minEdgeConnections st !! i = Some (Z.of_nat u)
      ∧ minEdges st !! i = Some (Fin q)
      ∧ mget m u i = Fin q
      ∧ ∀ a, a ∈ visited st → Num.leb (Fin q) (mget m a i) = true
}.

(** the invariant of the scan for the next vertex, after the indices below
    [k] *)
Definition scan_inv (st : PrimState) (k : nat) (r : num * option nat) : Prop :=
  match snd r with
  | None => fst r = PInf ∧ ∀ i, i < k → i ∈ visited st
  | Some v =>
      v < k ∧ (v ∉ visited st) ∧ fst r = get (minEdges st) v
      ∧ (∀ i, i < k → i ∉ visited st →
           Num.leb (fst r) (get (minEdges st) i) = true)
      ∧ (∀ i, i < v → i ∉ visited st →
           Num.ltb (fst r) (get (minEdges st) i) = true)
  end.

(** the effect of [prim_relax] on the entries below [k] *)
Definition relaxed (m : list (list num)) (v : nat) (st0 st : PrimState) (k : nat)
    : Prop :=
  visited st = visited st0 ∧ edges st = edges st0
  ∧ length (minEdges st) = length (minEdges st0)
  ∧ length (minEdgeConnections st) = length (minEdgeConnections st0)
  ∧ ∀ i,
      if bool_decide (i < k) && bool_decide (i ∉ visited st0)
         && Num.ltb (mget m v i) (get (minEdges st0) i)
      then i < length (minEdges st0) →
           minEdges st !! i = Some (mget m v i)
           ∧ minEdgeConnections st !! i = Some (Z.of_nat v)
      else minEdges st !! i = minEdges st0 !! i
           ∧ minEdgeConnections st !! i = minEdgeConnections st0 !! i.

(** ** Prim's algorithm on distances that may be [Infinity] *)

(** a matrix over [length m] points whose entries are not negative: what
    [computeMutualReachabilityDistance] returns, where a squared
    difference that overflows is [Infinity] *)
Definition square_nonneg (m : list (list num)) : Prop :=
  Forall (fun row => length row = length m ∧ Forall Num.nonneg row) m.

(** The [while] loop never exits: after [k] passes there are vertices left
    and a pass changes nothing, because the scan finds no unvisited vertex
    at a distance [< Infinity].  Every later pass starts from the same
    state. *)
Definition prim_spins (m : list (list num)) : Prop :=
  ∃ k,
    let st := Nat.iter k (prim_body m (length m)) (prim_init m) in
    base.size (visited st) < length m ∧ prim_body m (length m) st = st.

(** the invariant of the [while] loop on such a matrix *)
Record prim_reach (m : list (list num)) (n : nat) (st : PrimState)
    : Prop := {
  prim_reach_start : 0 ∈ visited st;
  prim_reach_bound : ∀ v, v ∈ visited st → v < n;
  prim_reach_minEdges : length (minEdges st) = n;
  prim_reach_connections : length (minEdgeConnections st) = n;
  prim_reach_entries : ∀ i, i < n → i ∉ visited st →
    Num.nonneg (get (minEdges st) i);
  prim_reach_source : ∀ i, i < n → i ∉ visited st →
    ∃ u, u ∈ visited st
         ∧ minEdgeConnections st !! i = Some (Z.of_nat u)
         ∧ get (minEdges st) i = mget m u i
}.

(** the weight of an edge is the entry of the matrix at its ends *)
Definition weights_of (m : list (list num)) (es : list Edge) : Prop :=
  Forall (fun e => weight e = mget m (source e) (destination e)) es.

(** the invariant of the scan on such a matrix *)
Definition scan_reach (st : PrimState) (k : nat) (r : num * option nat)
    : Prop :=
  match snd r with
  | None => fst r = PInf
  | Some v =>
      v < k ∧ (v ∉ visited st) ∧ fst r = get (minEdges st) v
      ∧ Num.finite (fst r)
  end.

(** ** Union-find and connectivity *)

(** [uf_path parent x r d]: following [parent] from [x] reaches the root
    [r] in [d] steps *)
Inductive uf_path (parent : list nat) : nat → nat → nat → Prop :=
  | uf_path_root x : parent !! x = Some x → uf_path parent x x 0
  | uf_path_step x p r d :
      parent !! x = Some p → p ≠ x → uf_path parent p r d →
      uf_path parent x r (S d).

Definition uf_root (parent : list nat) (x r : nat) : Prop :=
  ∃ d, uf_path parent x r d.

(** every index has a root: the array is a forest *)
Definition uf_forest (parent : list nat) : Prop :=
  ∀ x, x < length parent → ∃ r, uf_root parent x r.

(** [x] and [y] are joined by an edge of [es], in either direction *)
Definition adjacent (es : list Edge) (x y : nat) : Prop :=
  ∃ e, e ∈ es ∧ source e = x ∧ destination e = y.

(** [x] and [y] are connected by edges of [es] *)
Definition connected (es : list Edge) : relation nat := rtsc (adjacent es).

(** the edges of [es] with both endpoints among [points] *)
Definition internal (points : list nat) (e : Edge) : Prop :=
  source e ∈ points ∧ destination e ∈ points.

Definition internal_edges (points : list nat) (es : list Edge) : list Edge :=
  filter (internal points) es.

(** [tree_order n vis es]: the edges [es] grow a tree from the vertices
    [vis]: each edge leads from a vertex already reached to a new one *)
Inductive tree_order (n : nat) : gset nat → list Edge → Prop :=
  | tree_order_nil vis : tree_order n vis []
  | tree_order_cons vis u v w es :
      u ∈ vis → v ∉ vis → v < n →
      tree_order n ({[v]} ∪ vis) es →
      tree_order n vis ((u, v, w) :: es).

(** a set of vertices no edge of [es] leaves *)
Definition closed_under (es : list Edge) (A : gset nat) : Prop :=
  ∀ e, e ∈ es → source e ∈ A ↔ destination e ∈ A.

(** edges sorted by decreasing weight *)
Definition sorted_desc (es : list Edge) : Prop :=
  StronglySorted (fun a b => Num.leb (weight b) (weight a) = true) es.

Definition finite_weights (es : list Edge) : Prop :=
  Forall (fun e => Num.finite (weight e)) es.

(** the array [parent] represents the components of the edges [done] *)
Record uf_models (parent : list nat) (done : list Edge) : Prop := {
  uf_models_forest : uf_forest parent;
  uf_models_sound : ∀ x y r,
    uf_root parent x r → uf_root parent y r → connected done x y;
  uf_models_complete : ∀ e, e ∈ done →
    ∃ r, uf_root parent (source e) r ∧ uf_root parent (destination e) r
}.

(** [components] after the points [done] were grouped by their roots in
    [parent] *)
Record grouped (parent : list nat) (components : list (nat * list nat))
    (done : list nat) : Prop := {
  grouped_keys : NoDup (fst <$> components);
  grouped_roots : ∀ r ps, (r, ps) ∈ components →
    ps ≠ [] ∧ ∀ p, p ∈ ps → uf_root parent p r;
  grouped_perm : concat (snd <$> components) ≡ₚ done
}.

(** ** The shape of the hierarchy *)

(** the child link that a parent holds for the cluster [c] *)
Definition link_of (minClusterSize : num) (c : Cluster) : option nat :=
  if Num.geb (Num.of_nat (length (children c))) minClusterSize
  then Some (id c) else None.

(** [split_ok mcs rest hierarchy j p]: the [j]-th split divided the cluster
    at index [p] into the clusters at the indices [2j+1] and [2j+2]; no
    edge of [rest] inside the parent joins the two sides *)
Definition split_ok (mcs : num) (rest : list Edge) (hierarchy : list Cluster)
    (j p : nat) : Prop :=
  p < 2 * j + 1
  ∧ ∃ P L R,
      hierarchy !! p = Some P
      ∧ hierarchy !! (2 * j + 1) = Some L
      ∧ hierarchy !! (2 * j + 2) = Some R
      ∧ children L ++ children R ≡ₚ children P
      ∧ distance R = distance L
      ∧ Num.leb (distance L) (distance P) = true
      ∧ leftChild P = link_of mcs L
      ∧ rightChild P = link_of mcs R
      ∧ ∀ e, e ∈ rest → internal (children P) e →
          internal (children L) e ∨ internal (children R) e.

(** the invariant of the loop of [buildClusterHierarchy]: [rest] are the
    sorted edges not yet processed, [splits] lists the index of the cluster
    divided by each split so far, [mst] is the field [this.sortedEdges],
    [id0] the value of [nextClusterId] when the root was created *)
Record hier_inv (n id0 : nat) (mcs : num) (mst rest : list Edge)
    (splits : list nat) (this : HDBSCAN) (hierarchy : list Cluster) : Prop := {
  hi_length : length hierarchy = 2 * length splits + 1;
  hi_next : nextClusterId this = id0 + length hierarchy;
  hi_mcs : minClusterSize this = mcs;
  hi_mst : sortedEdges this = mst;
  hi_root : ∃ root, hierarchy !! 0 = Some root ∧ children root = seq 0 n;
  hi_ids : ∀ k c, hierarchy !! k = Some c → id c = id0 + k;
  hi_members : ∀ c, c ∈ hierarchy →
    children c ≠ [] ∧ NoDup (children c) ∧ Forall (fun x => x < n) (children c);
  hi_finite : ∀ c, c ∈ hierarchy → Num.finite (distance c);
  hi_weights : ∀ c e, c ∈ hierarchy → e ∈ rest →
    Num.leb (weight e) (distance c) = true;
  hi_splits : ∀ j p, splits !! j = Some p → split_ok mcs rest hierarchy j p;
  hi_unsplit : ∀ p P, hierarchy !! p = Some P → p ∉ splits →
    leftChild P = None ∧ rightChild P = None;
  hi_nodup : NoDup splits
}.

(** what the hierarchy builder is given by a [fit]: the edges [mst] of
    Prim's algorithm over [n] points, stored in [this.sortedEdges] *)
Record mst_ok (n : nat) (mst : list Edge) : Prop := {
  mst_length : n = length mst + 1;
  mst_tree : tree_order n {[0]} mst;
  mst_finite : finite_weights mst
}.

(** a dataset: [n] points with [d] finite coordinates each *)
Definition dataset (d : nat) (data : list (list num)) : Prop :=
  Forall (fun p => length p = d ∧ Forall Num.finite p) data.

(** the update of a parent cluster by a split *)
Definition update_parent (isLeftCluster isRightCluster : bool)
    (leftId rightId : nat) (c : Cluster) : Cluster :=
  let c := if isLeftCluster then set_leftChild leftId c else c in
  let c := if isRightCluster then set_rightChild rightId c else c in
  if (isLeftCluster && negb isRightCluster)
     || (negb isLeftCluster && isRightCluster)
  then set_stability Num.zero c else c.

(** a cluster with at least [minClusterSize] members *)
Definition is_large (mcs : num) (c : Cluster) : Prop :=
  Num.geb (Num.of_nat (length (children c))) mcs = true.

(** ** Descendants *)

Definition is_link (a c : Cluster) : Prop :=
  leftChild a = Some (id c) ∨ rightChild a = Some (id c).


(** ** Ancestors, by position in the hierarchy *)

(** the cluster at index [k] was created by a split of the cluster at [p] *)
Definition child_of (splits : list nat) (p k : nat) : Prop :=
  ∃ j, splits !! j = Some p ∧ (k = 2 * j + 1 ∨ k = 2 * j + 2).

Inductive ancestor (splits : list nat) : nat → nat → Prop :=
  | ancestor_child a b : child_of splits a b → ancestor splits a b
  | ancestor_step a p b :
      child_of splits a p → ancestor splits p b → ancestor splits a b.

(** ** Termination of the extraction *)

(** the number of clusters whose [id] is not discarded: the recursion of
    [processCluster] discards a cluster before it descends *)
Definition undiscarded (hier : list Cluster) (discarded : gset nat) : nat :=
  length (filter (fun i => i ∉ discarded) (id <$> hier)).

(** ** The extraction, cluster by cluster *)

(** the clusters of an array without their [stability], the only field
    the extraction writes *)
Definition frame (hier : list Cluster) : list Cluster :=
  set_stability Num.zero <$> hier.






(** ** Notions for the further properties *)

(** [euclideanDistance(data[i], data[j])] *)
Definition directDistance (data : list (list num)) (i j : nat) : num :=
  euclideanDistance (default [] (data !! i)) (default [] (data !! j)).

(** the indices of the points other than [i] *)
Definition others (data : list (list num)) (i : nat) : list nat :=
  filter (fun j => i ≠ j) (seq 0 (length data)).

(** records sorted by increasing distance *)
Definition sorted_by_distance (pds : list PointDistance) : Prop :=
  StronglySorted
    (fun a b => Num.leb (pd_distance a) (pd_distance b) = true) pds.

(** the edges [getMinReachability] takes the minimum over: the edges at
    [point] with both ends in the cluster *)
Definition relevantEdges (point : nat) (clusterPoints : list nat)
    (sortedEdges : list Edge) : list Edge :=
  filter (fun e : Edge =>
            (source e = point ∨ destination e = point)
            ∧ source e ∈ clusterPoints ∧ destination e ∈ clusterPoints)
         sortedEdges.

(** the entry of [minReachabilityMap] for a point: its least reachability,
    or [0] when there is none *)
Definition minReach (point : nat) (clusterPoints : list nat)
    (sortedEdges : list Edge) : num :=
  let r := getMinReachability point clusterPoints sortedEdges in
  if Num.is_PInf r then Num.zero else r.

(** the instance [new HDBSCAN({ minClusterSize, minSamples })] creates for
    two positive integers *)
Definition instance (minClusterSize minSamples : Z) : HDBSCAN :=
  mkHDBSCAN false (Num.of_Z minClusterSize) (Num.of_Z minSamples) [] [] 0 []
            true [].

(** what the statistics of a cluster are made of: its [maxEdgeWeight] and
    [birthDistance] are its [distance], which is the weight of an edge of
    the tree; its minimal reachabilities and its [leaveEdgeWeight] are [0]
    or weights of edges of the tree inside the cluster; and no edge of the
    tree inside the cluster is heavier than its [distance] *)
Definition cluster_ok (mst : list Edge) (c : Cluster) : Prop :=
  maxEdgeWeight c = distance c
  ∧ birthDistance c = distance c
  ∧ (∃ e, e ∈ mst ∧ distance c = weight e)
  ∧ (∀ p, p ∈ children c →
       ∃ v, minReachabilityMap c !! p = Some v
            ∧ (v = Num.zero
               ∨ ∃ e, e ∈ mst ∧ internal (children c) e ∧ v = weight e))
  ∧ (leaveEdgeWeight c = Num.zero
     ∨ ∃ e, e ∈ mst ∧ internal (children c) e ∧ leaveEdgeWeight c = weight e)
  ∧ (∀ e, e ∈ mst → internal (children c) e →
       Num.leb (weight e) (distance c) = true).


(** a stability that is not negative: a rational [>= 0], [Infinity] or
    [NaN] *)
Definition not_negative (x : num) : Prop :=
  match x with
  | Fin q => (0 <= q)%Q
  | PInf | NaN => True
  | NInf => False
  end.

(** * Properties *)

(** ** Numbers *)

Lemma Qltb_lt (a b : Q) : Num.Qltb a b = true ↔ (a < b)%Q.
Proof.
  unfold Num.Qltb. rewrite negb_true_iff.
  split.
  - intros H. apply Qnot_le_lt. intros Hle.
    apply Qle_bool_iff in Hle. congruence.
  - intros H. destruct (Qle_bool b a) eqn:E; [|done].
    apply Qle_bool_iff in E. exfalso. by apply (Qlt_not_le a b).
Qed.

Lemma Qltb_ge (a b : Q) : Num.Qltb a b = false ↔ (b <= a)%Q.
Proof.
  unfold Num.Qltb. rewrite negb_false_iff. apply Qle_bool_iff.
Qed.

Lemma leb_Fin (a b : Q) : Num.leb (Fin a) (Fin b) = true ↔ (a <= b)%Q.
Proof. apply Qle_bool_iff. Qed.

Lemma ltb_Fin (a b : Q) : Num.ltb (Fin a) (Fin b) = true ↔ (a < b)%Q.
Proof. apply Qltb_lt. Qed.

Lemma Qeqb_eq (a b : Q) : Num.Qeqb a b = true ↔ (a == b)%Q.
Proof. apply Qeq_bool_iff. Qed.

Lemma huge_pos : (0 < Num.huge)%Q.
Proof. by vm_compute. Qed.

Lemma overflow_cases (q : Q) :
  ((Num.huge <= q)%Q ∧ Num.overflow q = PInf)
  ∨ ((q <= - Num.huge)%Q ∧ Num.overflow q = NInf)
  ∨ ((- Num.huge < q)%Q ∧ (q < Num.huge)%Q ∧ Num.overflow q = Fin q).
Proof.
  unfold Num.overflow.
  destruct (Qle_bool Num.huge q) eqn:E1.
  { left. split; [by apply Qle_bool_iff|done]. }
  destruct (Qle_bool q (- Num.huge)) eqn:E2.
  { right; left. split; [by apply Qle_bool_iff|done]. }
  right; right. split_and!; [| |done].
  - apply Qnot_le_lt. intros H%Qle_bool_iff. congruence.
  - apply Qnot_le_lt. intros H%Qle_bool_iff. congruence.
Qed.

Lemma overflow_Fin (q : Q) :
  (- Num.huge < q)%Q ∧ (q < Num.huge)%Q → Num.overflow q = Fin q.
Proof.
  intros [H1 H2].
  destruct (overflow_cases q) as [[H _]|[[H _]|(_ & _ & H)]]; [lra..|done].
Qed.

Lemma overflow_PInf (q : Q) : (Num.huge <= q)%Q → Num.overflow q = PInf.
Proof.
  intros H1. pose proof huge_pos.
  destruct (overflow_cases q) as [[_ H']|[[H' _]|(_ & H' & _)]]; [done|lra..].
Qed.

Lemma overflow_NInf (q : Q) : (q <= - Num.huge)%Q → Num.overflow q = NInf.
Proof.
  intros H1. pose proof huge_pos.
  destruct (overflow_cases q) as [[H' _]|[[_ H']|(H' & _ & _)]]; [lra|done|lra].
Qed.

(** the sign of a result survives the overflow *)
Lemma overflow_pos (q : Q) :
  Num.ltb Num.zero (Num.overflow q) = Num.Qltb 0 q.
Proof.
  pose proof huge_pos.
  destruct (overflow_cases q) as [[H1 ->]|[[H1 ->]|(_ & _ & ->)]]; simpl.
  - symmetry. apply Qltb_lt. lra.
  - symmetry. apply Qltb_ge. lra.
  - done.
Qed.

Lemma Qplus_0_l_eq (q : Q) : (0 + q)%Q = q.
Proof.
  destruct q as [n d]. unfold Qplus. cbn [Qnum Qden].
  f_equal. lia.
Qed.

(** [0 + x] is [x] for a product [x] *)
Lemma add_zero_overflow (q : Q) :
  Num.add Num.zero (Num.overflow q) = Num.overflow q.
Proof.
  destruct (overflow_cases q) as [[_ ->]|[[_ ->]|(H1 & H2 & ->)]]; [done..|].
  unfold Num.add, Num.zero. rewrite Qplus_0_l_eq. by apply overflow_Fin.
Qed.

Lemma add_zero_mul (x y : num) :
  Num.add Num.zero (Num.mul x y) = Num.mul x y.
Proof.
  destruct x as [a| | |], y as [b| | |]; try done;
    try (cbn [Num.mul Num.sign]; by repeat case_match).
  apply add_zero_overflow.
Qed.

(** ** The constructor (C9) *)

(** C9.  The constructor throws if and only if the effective
    [minClusterSize] is [<= 0] or the effective [minSamples] is [<= 0].
    When it throws there is no instance: the program
    [new HDBSCAN(p).fit(data)] ends with the constructor's error, whatever
    [data] is.  An instance it does return has empty [labels_] and
    [probabilities_]. *)
Theorem constructor_throws_iff (p : HDBSCANParams) :
  ((∃ msg, constructor p = Err (Thrown msg))
   ↔ Num.leb (effective_minClusterSize p) Num.zero = true
     ∨ Num.leb (effective_minSamples p) Num.zero = true)
  ∧ (∀ e, constructor p = Err e →
       (∃ msg, e = Thrown msg) ∧ ∀ data, fit_once p data = Err e)
  ∧ (∀ h, constructor p = Ok h → labels_ h = [] ∧ probabilities_ h = []).
Proof.
  unfold fit_once, constructor.
  destruct (Num.leb (effective_minClusterSize p) Num.zero) eqn:E1;
    [|destruct (Num.leb (effective_minSamples p) Num.zero) eqn:E2].
  - split; [split; eauto|].
    split; [|done]. intros e [= <-]. eauto.
  - split; [split; eauto|].
    split; [|done]. intros e [= <-]. eauto.
  - split; [split|].
    + intros [msg ?]; done.
    + intros [?|?]; done.
    + split; [done|]. by intros h [= <-].
Qed.

(** ** Sets of points *)

Lemma elem_of_set_add (x y : nat) (s : list nat) :
  y ∈ set_add x s ↔ y = x ∨ y ∈ s.
Proof.
  unfold set_add. case_bool_decide.
  - split; [by right|]. by intros [->|?].
  - rewrite elem_of_app, list_elem_of_singleton. tauto.
Qed.



Lemma set_adds_NoDup (l s : list nat) :
  NoDup (s ++ l) → foldl (fun s x => set_add x s) s l = s ++ l.
Proof.
  revert s. induction l as [|x l IH]; intros s Hnd; simpl.
  - by rewrite app_nil_r.
  - assert (x ∉ s) as Hx.
    { apply NoDup_app in Hnd as (_ & Hd & _). intros Hin.
      apply (Hd x Hin). left. }
    unfold set_add at 2. rewrite bool_decide_eq_false_2 by done.
    rewrite IH; [by rewrite <- app_assoc|]. by rewrite <- app_assoc.
Qed.

Lemma getClusterPoints_NoDup (c : Cluster) :
  NoDup (children c) → getClusterPoints c = children c.
Proof. intros Hnd. unfold getClusterPoints. by rewrite set_adds_NoDup. Qed.

(** ** Stability (C4) *)




(** ** A single point (C5) *)

Lemma pointDistances_single (p : list num) : pointDistances [p] 0 = [].
Proof. reflexivity. Qed.

(** C5.  For a dataset of one point the array [pointDistances] is empty,
    the read of [.distance] on its missing element throws a [TypeError],
    and so do [computeMutualReachabilityDistance] and [fit]: no matrix
    and no labels are returned. *)
Theorem single_point_throws (this : HDBSCAN) (p : list num) :
  computeMutualReachabilityDistance this [p] = Err TypeError
  ∧ fit this [p] = Err TypeError.
Proof.
  assert (H : computeMutualReachabilityDistance this [p] = Err TypeError).
  { unfold computeMutualReachabilityDistance. cbn [length seq mapM].
    unfold coreDistance. rewrite pointDistances_single. cbn [js_sort foldr].
    by destruct (Num.to_index _). }
  split; [done|]. unfold fit. by rewrite H.
Qed.

(** ** The distance (C1) *)

(** C1.  For the points [(0)] and [(2)] the function [euclideanDistance]
    returns [4], the squared distance; the Euclidean distance is [2]. *)
Theorem euclideanDistance_is_squared :
  Num.norm (euclideanDistance (point [0%Z]) (point [2%Z])) = Fin 4
  ∧ is_euclidean_distance (Fin 2) [0%Q] [2%Q]
  ∧ (∀ d, is_euclidean_distance d [0%Q] [2%Q] → Num.eqv d (Fin 2))
  ∧ (norm_matrix <$> mutualReachabilityDistance_of 1 two_points)
    = Ok [[Fin 4; Fin 4]; [Fin 4; Fin 4]].
Proof.
  split; [by vm_compute|]. split; [by vm_compute|]. split; [|by vm_compute].
  intros [q| | |]; simpl; try done.
  unfold sum_of_squares; simpl. intros [Hq Hsq].
  assert ((q - 2) * (q + 2) == 0)%Q as H0 by (ring_simplify; rewrite Hsq; ring).
  apply Qmult_integral in H0 as [H0|H0]; lra.
Qed.

(** ** Determinism of [fit] (C2) *)

(** C2.  For the points 0, 1, 2, 4, 5 on a line with [minClusterSize = 3]
    and [minSamples = 1], the first [fit] labels the pair 4, 5 as noise and
    the second [fit] on the same instance puts all five points in cluster
    0: [nextClusterId] is not reset, the root of the second hierarchy has
    an [id] other than 0, and its stability is no longer forced to 0. *)
Theorem fit_twice_differs :
  (labels_ <$> fit_once (params 3 1) line_3_2) = Ok [0; 0; 0; -1; -1]%Z
  ∧ (labels_ <$> fit_twice (params 3 1) line_3_2) = Ok [0; 0; 0; 0; 0]%Z
  ∧ (norm_probabilities <$> fit_once (params 3 1) line_3_2)
    = Ok [Fin (3 # 4); Fin (3 # 4); Fin (3 # 4); Fin 0; Fin 0]
  ∧ (norm_probabilities <$> fit_twice (params 3 1) line_3_2)
    = Ok [Fin (3 # 4); Fin (3 # 4); Fin (3 # 4); Fin (3 # 4); Fin (3 # 4)]
  ∧ (nextClusterId <$> fit_once (params 3 1) line_3_2) = Ok 9.
Proof. repeat split; by vm_compute. Qed.

(** ** Probabilities (C3) *)

(** C3.  For two identical points with [minClusterSize = 2] both points
    are assigned to cluster 0 and their probability is [1 - 0/0 = NaN],
    which is not in [0, 1]. *)
Theorem probabilities_not_in_unit_interval :
  (labels_ <$> fit_once (params_size 2) twins) = Ok [0; 0]%Z
  ∧ (probabilities_ <$> fit_once (params_size 2) twins) = Ok [NaN; NaN]
  ∧ Num.leb Num.zero NaN = false
  ∧ Num.leb NaN Num.one = false.
Proof. repeat split; by vm_compute. Qed.

(** ** Prim's algorithm (C8) *)

Lemma leb_ltb_Fin (a b : Q) :
  Num.ltb (Fin a) (Fin b) = false → Num.leb (Fin b) (Fin a) = true.
Proof. intros H. apply leb_Fin. by apply Qltb_ge. Qed.

Lemma ltb_leb_trans (a b c : Q) :
  Num.ltb (Fin a) (Fin b) = true → Num.leb (Fin b) (Fin c) = true →
  Num.ltb (Fin a) (Fin c) = true.
Proof.
  rewrite !ltb_Fin, leb_Fin. apply Qlt_le_trans.
Qed.

Lemma leb_trans_Fin (a b c : Q) :
  Num.leb (Fin a) (Fin b) = true → Num.leb (Fin b) (Fin c) = true →
  Num.leb (Fin a) (Fin c) = true.
Proof. rewrite !leb_Fin. apply Qle_trans. Qed.

Lemma ltb_leb_Fin (a b : Q) :
  Num.ltb (Fin a) (Fin b) = true → Num.leb (Fin a) (Fin b) = true.
Proof. rewrite ltb_Fin, leb_Fin. apply Qlt_le_weak. Qed.

Lemma leb_refl_Fin (a : Q) : Num.leb (Fin a) (Fin a) = true.
Proof. apply leb_Fin, Qle_refl. Qed.

Lemma mget_finite (m : list (list num)) (i j : nat) :
  square_finite m → i < length m → j < length m → ∃ q, mget m i j = Fin q.
Proof.
  intros Hm Hi Hj. unfold mget, get.
  destruct (lookup_lt_is_Some_2 m i Hi) as [row Hrow]. rewrite Hrow. simpl.
  unfold square_finite in Hm. rewrite Forall_forall in Hm.
  destruct (Hm row) as [Hlen Hfin]; [by eapply list_elem_of_lookup_2|].
  destruct (lookup_lt_is_Some_2 row j) as [x Hx]; [lia|]. rewrite Hx. simpl.
  rewrite Forall_forall in Hfin.
  specialize (Hfin x (list_elem_of_lookup_2 _ _ _ Hx)).
  destruct x; try done. by eexists.
Qed.

Lemma prim_init_fold (m : list (list num)) (k : nat) :
  k ≤ length m - 1 →
  let st :=
    foldl (fun st i =>
             mkPrim (visited st) (<[i := mget m 0 i]> (minEdges st))
                    (<[i := 0%Z]> (minEdgeConnections st)) (edges st))
          (mkPrim {[0]} (replicate (length m) PInf)
                  (replicate (length m) (-1)%Z) [])
          (seq 1 k) in
  visited st = {[0]} ∧ edges st = []
  ∧ length (minEdges st) = length m
  ∧ length (minEdgeConnections st) = length m
  ∧ ∀ i, 1 ≤ i ≤ k →
      minEdges st !! i = Some (mget m 0 i)
      ∧ minEdgeConnections st !! i = Some 0%Z.
Proof.
  induction k as [|k IH]; intros Hk st.
  - subst st; simpl. rewrite !length_replicate. repeat split; lia.
  - subst st. rewrite seq_S, foldl_app. simpl.
    destruct IH as (Hv & He & Hl1 & Hl2 & Hi); [lia|].
    set (st := foldl _ _ (seq 1 k)) in *.
    rewrite !length_insert. repeat split; try done.
    + destruct (decide (i = S k)) as [->|Hne].
      * apply list_lookup_insert_eq. lia.
      * rewrite list_lookup_insert_ne by done. apply Hi. lia.
    + destruct (decide (i = S k)) as [->|Hne].
      * apply list_lookup_insert_eq. lia.
      * rewrite list_lookup_insert_ne by done. apply Hi. lia.
Qed.

Lemma prim_init_inv (m : list (list num)) :
  1 ≤ length m → square_finite m →
  prim_inv m (length m) (prim_init m)
  ∧ visited (prim_init m) = {[0]} ∧ edges (prim_init m) = [].
Proof.
  intros Hn Hm.
  pose proof (prim_init_fold m (length m - 1) ltac:(lia)) as H.
  cbv zeta in H. fold (prim_init m) in H.
  destruct H as (Hv & He & Hl1 & Hl2 & Hi).
  split; [|done]. split; try done.
  - rewrite Hv. set_solver.
  - intros v. rewrite Hv, elem_of_singleton. lia.
  - intros i Hlt Hnot. rewrite Hv in *.
    assert (i ≠ 0) by set_solver.
    destruct (mget_finite m 0 i Hm ltac:(lia) Hlt) as [q Hq].
    exists 0, q. destruct (Hi i) as [H1 H2]; [lia|].
    rewrite H1, H2, Hq. split_and!; try done; [set_solver..|].
    intros a ->%elem_of_singleton. rewrite Hq. apply leb_refl_Fin.
Qed.

Lemma prim_inv_get (m : list (list num)) (n : nat) (st : PrimState) (i : nat) :
  prim_inv m n st → i < n → i ∉ visited st →
  ∃ q, get (minEdges st) i = Fin q.
Proof.
  intros Hinv Hi Hv.
  destruct (prim_inv_best _ _ _ Hinv i Hi Hv) as (u & q & _ & _ & Hq & _).
  exists q. unfold get. by rewrite Hq.
Qed.

Lemma prim_scan_fold (m : list (list num)) (n : nat) (st : PrimState) (k : nat) :
  prim_inv m n st → k ≤ n →
  scan_inv st k
    (foldl (fun '(minDist, nextVertex) i =>
              if bool_decide (i ∉ visited st)
                 && Num.ltb (get (minEdges st) i) minDist
              then (get (minEdges st) i, Some i)
              else (minDist, nextVertex))
           (PInf, None) (seq 0 k)).
Proof.
  intros Hinv. induction k as [|k IH]; intros Hk.
  - simpl. split; [done|]. intros; lia.
  - rewrite seq_S, foldl_app. simpl.
    specialize (IH ltac:(lia)).
    destruct (foldl _ _ (seq 0 k)) as [md nv]. unfold scan_inv in *. simpl in *.
    destruct (decide (k ∈ visited st)) as [Hvis|Hvis].
    + rewrite bool_decide_eq_false_2 by (by intros ?). simpl.
      destruct nv as [v|].
      * destruct IH as (Hv & Hnv & Hmd & Hle & Hlt).
        split_and!; try done; [lia|].
        intros i Hi Hni. apply Hle; [|done].
        destruct (decide (i = k)) as [->|]; [done|lia].
      * destruct IH as [Hmd Hall]. split; [done|].
        intros i Hi. destruct (decide (i = k)) as [->|]; [done|].
        apply Hall. lia.
    + rewrite bool_decide_eq_true_2 by done. simpl.
      destruct (prim_inv_get m n st k Hinv ltac:(lia) Hvis) as [q Hq].
      rewrite Hq.
      destruct nv as [v|].
      * destruct IH as (Hv & Hnv & Hmd & Hle & Hlt).
        destruct (prim_inv_get m n st v Hinv ltac:(lia) Hnv) as [qv Hqv].
        rewrite Hqv in Hmd. subst md.
        destruct (Num.ltb (Fin q) (Fin qv)) eqn:E; simpl.
        -- split_and!; try done; [lia| |].
           ++ intros i Hi Hni. destruct (decide (i = k)) as [->|].
              { rewrite Hq. apply leb_refl_Fin. }
              destruct (prim_inv_get m n st i Hinv ltac:(lia) Hni) as [qi Hqi].
              specialize (Hle i ltac:(lia) Hni). rewrite Hqi in *.
              apply ltb_leb_Fin. by eapply ltb_leb_trans.
           ++ intros i Hi Hni.
              destruct (prim_inv_get m n st i Hinv ltac:(lia) Hni) as [qi Hqi].
              specialize (Hle i ltac:(lia) Hni). rewrite Hqi in *.
              by eapply ltb_leb_trans.
        -- split_and!; try done; [lia| |by rewrite Hqv..].
           intros i Hi Hni. destruct (decide (i = k)) as [->|].
           { rewrite Hq. by apply leb_ltb_Fin. }
           apply Hle; [lia|done].
      * destruct IH as [-> Hall]. simpl.
        split_and!; try done; [lia| |].
        -- intros i Hi Hni. destruct (decide (i = k)) as [->|].
           { rewrite Hq. apply leb_refl_Fin. }
           exfalso. apply Hni, Hall. lia.
        -- intros i Hi Hni. exfalso. apply Hni, Hall. lia.
Qed.

Lemma prim_scan_spec (m : list (list num)) (n : nat) (st : PrimState) :
  prim_inv m n st → scan_inv st n (prim_scan n st).
Proof. intros Hinv. by apply (prim_scan_fold m n st n). Qed.

Lemma prim_relax_fold (m : list (list num)) (v : nat) (st0 : PrimState) (k : nat) :
  length (minEdges st0) = length (minEdgeConnections st0) →
  relaxed m v st0
    (foldl (fun st i =>
              if bool_decide (i ∉ visited st)
                 && Num.ltb (mget m v i) (get (minEdges st) i)
              then mkPrim (visited st)
                     (<[i := mget m v i]> (minEdges st))
                     (<[i := Z.of_nat v]> (minEdgeConnections st))
                     (edges st)
              else st)
           st0 (seq 0 k))
    k.
Proof.
  intros Hlen. induction k as [|k IH].
  - simpl. unfold relaxed. by split_and!.
  - rewrite seq_S, foldl_app. simpl.
    destruct IH as (Hv & He & Hl1 & Hl2 & Hi).
    set (st := foldl _ _ (seq 0 k)) in *.
    assert (Hk : get (minEdges st) k = get (minEdges st0) k).
    { specialize (Hi k). rewrite bool_decide_eq_false_2 in Hi by lia.
      simpl in Hi. unfold get. by rewrite (proj1 Hi). }
    rewrite Hv, Hk.
    destruct (bool_decide (k ∉ visited st0)
              && Num.ltb (mget m v k) (get (minEdges st0) k)) eqn:E.
    + unfold relaxed; simpl. rewrite !length_insert.
      split_and!; try done. intros i. specialize (Hi i).
      destruct (decide (i = k)) as [->|Hne].
      * rewrite bool_decide_eq_true_2 by lia. simpl. simpl in E. rewrite E.
        intros Hlt. split; apply list_lookup_insert_eq; lia.
      * rewrite !list_lookup_insert_ne by done.
        destruct (decide (i < k)).
        -- rewrite bool_decide_eq_true_2 in Hi by done.
           rewrite (bool_decide_eq_true_2 (i < S k)) by lia. done.
        -- rewrite bool_decide_eq_false_2 in Hi by done.
           rewrite (bool_decide_eq_false_2 (i < S k)) by lia. done.
    + unfold relaxed. split_and!; try done. intros i. specialize (Hi i).
      destruct (decide (i = k)) as [->|Hne].
      * rewrite bool_decide_eq_true_2 by lia. simpl. simpl in E. rewrite E.
        rewrite bool_decide_eq_false_2 in Hi by lia. done.
      * destruct (decide (i < k)).
        -- rewrite bool_decide_eq_true_2 in Hi by done.
           rewrite (bool_decide_eq_true_2 (i < S k)) by lia. done.
        -- rewrite bool_decide_eq_false_2 in Hi by done.
           rewrite (bool_decide_eq_false_2 (i < S k)) by lia. done.
Qed.

Lemma prim_unvisited (n : nat) (vis : gset nat) :
  base.size vis < n → ∃ i, i < n ∧ i ∉ vis.
Proof.
  intros Hsize.
  destruct (decide (Forall (fun i => i ∈ vis) (seq 0 n))) as [Hall|Hex].
  - exfalso. rewrite Forall_forall in Hall.
    assert (Hsub : (set_seq 0 n : gset nat) ⊆ vis).
    { intros i Hi%elem_of_set_seq. apply Hall, elem_of_seq. lia. }
    apply subseteq_size in Hsub. rewrite size_set_seq in Hsub. lia.
  - apply not_Forall_Exists in Hex; [|apply _].
    apply Exists_exists in Hex as (i & Hi%elem_of_seq & Hni).
    exists i. split; [lia|done].
Qed.

(** one pass through the loop body: the edge it emits is Prim's choice *)
Lemma prim_body_spec (m : list (list num)) (n : nat) (st : PrimState) :
  n = length m →
  square_finite m → prim_inv m n st → base.size (visited st) < n →
  ∃ u v w,
    visited (prim_body m n st) = {[v]} ∪ visited st
    ∧ edges (prim_body m n st) = edges st ++ [(u, v, w)]
    ∧ prim_inv m n (prim_body m n st)
    ∧ u ∈ visited st ∧ (v ∉ visited st) ∧ v < n ∧ w = mget m u v
    ∧ (∀ a b, a ∈ visited st → b ∉ visited st → b < n →
         Num.leb w (mget m a b) = true)
    ∧ (∀ a b, a ∈ visited st → b ∉ visited st → b < v →
         Num.ltb w (mget m a b) = true).
Proof.
  intros Hn Hm Hinv Hsize.
  pose proof (prim_scan_spec m n st Hinv) as Hscan.
  unfold prim_body. destruct (prim_scan n st) as [md [v|]];
    unfold scan_inv in Hscan; simpl in Hscan.
  2: { destruct Hscan as [_ Hall].
       destruct (prim_unvisited n (visited st) Hsize) as (i & Hi & Hni).
       exfalso. by apply Hni, Hall. }
  destruct Hscan as (Hv & Hnv & Hmd & Hle & Hlt).
  destruct (prim_inv_best _ _ _ Hinv v Hv Hnv) as (u & q & Hu & Hcu & Hqv & Hmu & Hbest).
  assert (Hgv : get (minEdges st) v = Fin q) by (unfold get; by rewrite Hqv).
  rewrite Hgv in Hmd. subst md. rewrite Hcu. simpl. rewrite Nat2Z.id.
  set (st1 := mkPrim _ _ _ _).
  pose proof (prim_relax_fold m v st1 n) as Hrel.
  fold (prim_relax m n v st1) in Hrel.
  destruct Hrel as (Hrv & Hre & Hrl1 & Hrl2 & Hri).
  { subst st1; simpl.
    by rewrite (prim_inv_minEdges _ _ _ Hinv), (prim_inv_connections _ _ _ Hinv). }
  subst st1; simpl in *.
  assert (Hmin : ∀ a b, a ∈ visited st → b ∉ visited st → b < n →
            ∃ qb qab, get (minEdges st) b = Fin qb ∧ mget m a b = Fin qab
                      ∧ Num.leb (Fin qb) (Fin qab) = true).
  { intros a b Ha Hb Hbn.
    destruct (prim_inv_best _ _ _ Hinv b Hbn Hb) as (ub & qb & _ & _ & Hqb & _ & Hbb).
    destruct (mget_finite m a b Hm) as [qab Hqab];
      [rewrite <- Hn; by apply (prim_inv_bound _ _ _ Hinv)|by rewrite <- Hn|].
    exists qb, qab. unfold get. rewrite Hqb. split_and!; try done.
    rewrite <- Hqab. by apply Hbb. }
  exists u, v, (Fin q). split_and!; try done.
  - (* the invariant *)
    split.
    + rewrite Hrv. apply elem_of_union_r, (prim_inv_start _ _ _ Hinv).
    + intros x. rewrite Hrv. intros [->%elem_of_singleton|Hx]%elem_of_union; [done|].
      by apply (prim_inv_bound _ _ _ Hinv).
    + by rewrite Hrl1, (prim_inv_minEdges _ _ _ Hinv).
    + by rewrite Hrl2, (prim_inv_connections _ _ _ Hinv).
    + intros i Hi. rewrite Hrv. intros Hni.
      assert (i ≠ v ∧ i ∉ visited st) as [Hiv Hnis] by set_solver.
      destruct (prim_inv_best _ _ _ Hinv i Hi Hnis) as
        (ui & qi & Hui & Hci & Hqi & Hmi & Hbi).
      destruct (mget_finite m v i Hm) as [qvi Hqvi]; [by rewrite <- Hn..|].
      specialize (Hri i).
      rewrite (bool_decide_eq_true_2 (i < n)) in Hri by done.
      rewrite (bool_decide_eq_true_2 (i ∉ _)) in Hri by set_solver.
      simpl in Hri. unfold get in Hri. rewrite Hqi, Hqvi in Hri. simpl in Hri.
      destruct (Num.Qltb qvi qi) eqn:E.
      * destruct Hri as [Hr1 Hr2];
          [by rewrite (prim_inv_minEdges _ _ _ Hinv)|].
        exists v, qvi. split_and!; try done; [set_solver|].
        intros a [->%elem_of_singleton|Ha]%elem_of_union.
        -- rewrite Hqvi. apply leb_refl_Fin.
        -- destruct (mget_finite m a i Hm) as [qai Hqai];
             [rewrite <- Hn; by apply (prim_inv_bound _ _ _ Hinv)|by rewrite <- Hn|].
           specialize (Hbi a Ha). rewrite Hqai in *.
           apply ltb_leb_Fin. eapply ltb_leb_trans; [|exact Hbi].
           by apply ltb_Fin, Qltb_lt.
      * destruct Hri as [Hr1 Hr2].
        exists ui, qi. rewrite Hr1, Hr2. split_and!; try done; [set_solver|].
        intros a [->%elem_of_singleton|Ha]%elem_of_union; [|by apply Hbi].
        rewrite Hqvi. by apply leb_ltb_Fin.
  - intros a b Ha Hb Hbn.
    destruct (Hmin a b Ha Hb Hbn) as (qb & qab & Hgb & Hab & Hlb).
    rewrite Hab. eapply leb_trans_Fin; [|exact Hlb].
    rewrite <- Hgb. by apply Hle.
  - intros a b Ha Hb Hbv.
    destruct (Hmin a b Ha Hb ltac:(lia)) as (qb & qab & Hgb & Hab & Hlb).
    rewrite Hab. eapply ltb_leb_trans; [|exact Hlb].
    rewrite <- Hgb. by apply Hlt.
Qed.

Lemma prim_while_spec (m : list (list num)) (fuel : nat) (st : PrimState) :
  square_finite m → prim_inv m (length m) st →
  length m - base.size (visited st) < fuel →
  ∃ es, prim_while fuel m (length m) st = Ok (edges st ++ es)
        ∧ length es = length m - base.size (visited st)
        ∧ prim_order m (length m) (visited st) es.
Proof.
  intros Hm. revert st.
  induction fuel as [|fuel IH]; intros st Hinv Hfuel; [lia|].
  cbn [prim_while].
  destruct (decide (base.size (visited st) < length m)) as [Hlt|Hge].
  - rewrite bool_decide_eq_true_2 by done.
    destruct (prim_body_spec m (length m) st eq_refl Hm Hinv Hlt) as
      (u & v & w & Hv & He & Hinv' & Hu & Hnv & Hvn & Hw & Hmin & Htie).
    assert (Hsize : base.size (visited (prim_body m (length m) st))
                    = S (base.size (visited st))).
    { rewrite Hv, size_union by set_solver. by rewrite size_singleton. }
    destruct (IH (prim_body m (length m) st) Hinv') as (es & Hrun & Hlen & Hord).
    { lia. }
    exists ((u, v, w) :: es). split_and!.
    + rewrite Hrun, He, <- app_assoc. done.
    + simpl. rewrite Hlen, Hsize. lia.
    + apply prim_order_next; try done. by rewrite <- Hv.
  - rewrite bool_decide_eq_false_2 by done.
    exists []. rewrite app_nil_r. split_and!; [done|simpl; lia|constructor].
Qed.

(** C8.  For a square matrix of finite weights over [n >= 2] points
    (symmetric or not) [buildMinimumSpanningTree] returns [n - 1] edges,
    in the order Prim's algorithm started from vertex 0 discovers them;
    among the unvisited vertices at the least distance from the visited
    ones it takes the one of smallest index. *)
Theorem buildMinimumSpanningTree_prim (m : list (list num)) :
  2 ≤ length m → square_finite m →
  ∃ es, buildMinimumSpanningTree m = Ok es
        ∧ length es = length m - 1
        ∧ prim_order m (length m) {[0]} es.
Proof.
  intros Hn Hm. unfold buildMinimumSpanningTree.
  destruct (prim_init_inv m ltac:(lia) Hm) as (Hinv & Hv & He).
  destruct (prim_while_spec m (S (length m)) (prim_init m) Hm Hinv)
    as (es & Hrun & Hlen & Hord).
  { rewrite Hv, size_singleton. lia. }
  exists es. rewrite Hrun, He, Hv in *. rewrite size_singleton in Hlen.
  done.
Qed.

Lemma buildMinimumSpanningTree_prim_witness :
  ∃ es, buildMinimumSpanningTree matrix_3_1 = Ok es
        ∧ length es = 3
        ∧ prim_order matrix_3_1 4 {[0]} es.
Proof.
  apply (buildMinimumSpanningTree_prim matrix_3_1).
  - simpl. lia.
  - unfold square_finite. repeat (constructor; [by repeat constructor|]).
    constructor.
Defined.

(** ** Union-find *)

Lemma uf_path_fun (parent : list nat) (x r r' d d' : nat) :
  uf_path parent x r d → uf_path parent x r' d' → r = r' ∧ d = d'.
Proof.
  intros H. revert r' d'. induction H as [x Hx|x p r d Hx Hne Hp IH];
    intros r' d' H'; inversion H' as [|? ? ? ? ? ? Hp']; simplify_eq; try done.
  destruct (IH _ _ Hp') as [-> ->]. done.
Qed.

Lemma uf_root_fun (parent : list nat) (x r r' : nat) :
  uf_root parent x r → uf_root parent x r' → r = r'.
Proof. intros [d H] [d' H']. by destruct (uf_path_fun _ _ _ _ _ _ H H'). Qed.

Lemma uf_path_lt (parent : list nat) (x r d : nat) :
  uf_path parent x r d →
  x < length parent ∧ r < length parent ∧ parent !! r = Some r.
Proof.
  induction 1 as [x Hx|x p r d Hx Hne Hp IH].
  - pose proof (lookup_lt_Some _ _ _ Hx). done.
  - pose proof (lookup_lt_Some _ _ _ Hx). naive_solver.
Qed.

Lemma uf_root_lt (parent : list nat) (x r : nat) :
  uf_root parent x r →
  x < length parent ∧ r < length parent ∧ parent !! r = Some r.
Proof. intros [d H]. by eapply uf_path_lt. Qed.

Lemma uf_root_self (parent : list nat) (r : nat) :
  parent !! r = Some r → uf_root parent r r.
Proof. intros. exists 0. by constructor. Qed.

Lemma uf_root_step (parent : list nat) (x p r : nat) :
  parent !! x = Some p → p ≠ x → uf_root parent p r → uf_root parent x r.
Proof. intros Hx Hne [d H]. exists (S d). by econstructor. Qed.

(** the vertices on the way from [x] to its root are distinct *)
Lemma uf_path_vertices (parent : list nat) (x r d : nat) :
  uf_path parent x r d →
  ∃ l, length l = S d ∧ NoDup l
       ∧ ∀ y, y ∈ l → y < length parent ∧ ∃ d', d' ≤ d ∧ uf_path parent y r d'.
Proof.
  induction 1 as [x Hx|x p r d Hx Hne Hp IH].
  - exists [x]. split_and!; [done|apply NoDup_singleton|].
    intros y ->%list_elem_of_singleton.
    split; [by eapply lookup_lt_Some|]. exists 0. split; [done|by constructor].
  - destruct IH as (l & Hlen & Hnd & Hl).
    exists (x :: l). split_and!; [simpl; lia| |].
    + apply NoDup_cons. split; [|done]. intros Hin.
      destruct (Hl x Hin) as (_ & d' & Hd' & Hpath).
      assert (uf_path parent x r (S d)) as Hx' by (by econstructor).
      destruct (uf_path_fun _ _ _ _ _ _ Hpath Hx'). lia.
    + intros y [->|Hy]%elem_of_cons.
      * split; [by eapply lookup_lt_Some|]. exists (S d).
        split; [done|by econstructor].
      * destruct (Hl y Hy) as (? & d' & ? & ?). split; [done|].
        exists d'. split; [lia|done].
Qed.

Lemma uf_path_bound (parent : list nat) (x r d : nat) :
  uf_path parent x r d → d < length parent.
Proof.
  intros H. destruct (uf_path_vertices _ _ _ _ H) as (l & Hlen & Hnd & Hl).
  assert (l ⊆ seq 0 (length parent)) as Hsub.
  { intros y Hy. apply elem_of_seq. destruct (Hl y Hy). lia. }
  pose proof (submseteq_length l (seq 0 (length parent))
                (NoDup_submseteq _ _ Hnd Hsub)) as Hle.
  rewrite length_seq in Hle. lia.
Qed.

(** path compression keeps the roots *)
Lemma uf_compress (parent : list nat) (x r : nat) :
  uf_root parent x r →
  ∀ y s, uf_root parent y s ↔ uf_root (<[x := r]> parent) y s.
Proof.
  intros Hx y s.
  destruct (uf_root_lt _ _ _ Hx) as (Hxlt & Hrlt & Hr).
  assert (Hr' : <[x := r]> parent !! r = Some r).
  { destruct (decide (x = r)) as [->|];
      [by apply list_lookup_insert_eq|by rewrite list_lookup_insert_ne]. }
  split.
  - intros [d H]. induction H as [y Hy|y p s d Hy Hne Hp IH].
    + destruct (decide (y = x)) as [->|Hyx].
      * assert (r = x) as -> by (eapply uf_root_fun; [done|by apply uf_root_self]).
        by apply uf_root_self.
      * apply uf_root_self. by rewrite list_lookup_insert_ne.
    + destruct (decide (y = x)) as [->|Hyx].
      * assert (r = s) as ->.
        { eapply uf_root_fun; [done|]. exists (S d). by econstructor. }
        destruct (decide (s = x)) as [->|].
        -- apply uf_root_self. by apply list_lookup_insert_eq.
        -- eapply uf_root_step; [by apply list_lookup_insert_eq|done|].
           by apply uf_root_self.
      * eapply uf_root_step; [by rewrite list_lookup_insert_ne|done|].
        apply IH.
  - intros [d H]. induction H as [y Hy|y p s d Hy Hne Hp IH].
    + destruct (decide (y = x)) as [->|Hyx].
      * rewrite list_lookup_insert_eq in Hy by done. by simplify_eq.
      * rewrite list_lookup_insert_ne in Hy by done. by apply uf_root_self.
    + destruct (decide (y = x)) as [->|Hyx].
      * rewrite list_lookup_insert_eq in Hy by done. simplify_eq.
        assert (uf_root (<[x := p]> parent) p p) as Hpp by (by apply uf_root_self).
        assert (s = p) as -> by (eapply uf_root_fun; [by exists d|done]).
        done.
      * rewrite list_lookup_insert_ne in Hy by done.
        eapply uf_root_step; [done..|]. apply IH.
Qed.

Lemma find_rec_spec (parent : list nat) (x r d fuel : nat) :
  uf_path parent x r d → d < fuel →
  ∃ parent', find_rec fuel x parent = Ok (r, parent')
    ∧ length parent' = length parent
    ∧ ∀ y s, uf_root parent y s ↔ uf_root parent' y s.
Proof.
  intros H. revert fuel. induction H as [x Hx|x p r d Hx Hne Hp IH];
    intros fuel Hfuel; (destruct fuel as [|fuel]; [lia|]); cbn [find_rec].
  - pose proof (lookup_lt_Some _ _ _ Hx).
    rewrite bool_decide_eq_false_2 by lia. rewrite Hx. simpl.
    rewrite bool_decide_eq_false_2 by (by intros ?).
    exists parent. done.
  - pose proof (lookup_lt_Some _ _ _ Hx).
    rewrite bool_decide_eq_false_2 by lia. rewrite Hx. simpl.
    rewrite bool_decide_eq_true_2 by done.
    destruct (IH fuel ltac:(lia)) as (parent' & -> & Hlen & Hroots). simpl.
    eexists. split; [done|]. rewrite length_insert. split; [done|].
    intros y s. rewrite Hroots. apply uf_compress.
    apply Hroots. eapply uf_root_step; [done..|]. by exists d.
Qed.

Lemma find_spec (parent : list nat) (x : nat) :
  uf_forest parent → x < length parent →
  ∃ r parent', find x parent = Ok (r, parent')
    ∧ uf_root parent x r
    ∧ length parent' = length parent
    ∧ uf_forest parent'
    ∧ ∀ y s, uf_root parent y s ↔ uf_root parent' y s.
Proof.
  intros Hf Hx. destruct (Hf x Hx) as (r & d & Hpath).
  pose proof (uf_path_bound _ _ _ _ Hpath) as Hd.
  destruct (find_rec_spec parent x r d (S (length parent)) Hpath ltac:(lia))
    as (parent' & Hfind & Hlen & Hroots).
  exists r, parent'. split_and!; try done; [by exists d|].
  intros y Hy. rewrite Hlen in Hy. destruct (Hf y Hy) as (s & Hs).
  exists s. by apply Hroots.
Qed.

(** linking the root [ry] below the root [rx] *)
Lemma uf_link (parent : list nat) (rx ry : nat) :
  parent !! rx = Some rx → parent !! ry = Some ry → rx ≠ ry →
  uf_forest parent →
  uf_forest (<[ry := rx]> parent)
  ∧ ∀ y s, uf_root (<[ry := rx]> parent) y s
           ↔ ∃ s0, uf_root parent y s0 ∧ s = (if decide (s0 = ry) then rx else s0).
Proof.
  intros Hrx Hry Hne Hf.
  assert (Hto : ∀ y s0, uf_root parent y s0 →
            uf_root (<[ry := rx]> parent) y (if decide (s0 = ry) then rx else s0)).
  { intros y s0 [d H]. induction H as [y Hy|y p s d Hy Hnp Hp IH].
    - destruct (decide (y = ry)) as [->|Hyr].
      + eapply uf_root_step; [|done|].
        * apply list_lookup_insert_eq. by eapply lookup_lt_Some.
        * apply uf_root_self. by rewrite list_lookup_insert_ne.
      + apply uf_root_self. by rewrite list_lookup_insert_ne.
    - assert (y ≠ ry) by (intros ->; congruence).
      eapply uf_root_step; [by rewrite list_lookup_insert_ne|done|done]. }
  split.
  - intros y Hy. rewrite length_insert in Hy.
    destruct (Hf y Hy) as (s0 & Hs0). eexists. by apply Hto.
  - intros y s. split.
    + intros Hs. destruct (uf_root_lt _ _ _ Hs) as (Hy & _).
      rewrite length_insert in Hy. destruct (Hf y Hy) as (s0 & Hs0).
      exists s0. split; [done|]. eapply uf_root_fun; [done|]. by apply Hto.
    + intros (s0 & Hs0 & ->). by apply Hto.
Qed.

Lemma uf_forest_seq (n : nat) : uf_forest (seq 0 n).
Proof.
  intros x Hx. rewrite length_seq in Hx. exists x. apply uf_root_self.
  by apply lookup_seq_lt.
Qed.

Lemma uf_root_seq (n x r : nat) : uf_root (seq 0 n) x r → x = r.
Proof.
  intros H. destruct (uf_root_lt _ _ _ H) as (Hx & _).
  rewrite length_seq in Hx. eapply uf_root_fun; [|done].
  apply uf_root_self. by apply lookup_seq_lt.
Qed.

(** ** Connectivity *)

Lemma connected_mono (es es' : list Edge) (x y : nat) :
  (∀ e, e ∈ es → e ∈ es') → connected es x y → connected es' x y.
Proof.
  intros Hsub. apply (rtsc_congruence (fun v => v)).
  intros a b (e & He & <- & <-). exists e. auto.
Qed.

Lemma connected_edge (es : list Edge) (e : Edge) :
  e ∈ es → connected es (source e) (destination e).
Proof. intros He. apply rtsc_lr. by exists e. Qed.

Lemma connected_closed (es : list Edge) (A : gset nat) (x y : nat) :
  closed_under es A → connected es x y → x ∈ A ↔ y ∈ A.
Proof.
  intros Hc H. induction H as [x|x z y Hxz _ IH]; [done|].
  rewrite <- IH. destruct Hxz as [(e & He & <- & <-)|(e & He & <- & <-)].
  - by apply Hc.
  - symmetry. by apply Hc.
Qed.

#[local] Instance connected_equiv (es : list Edge) : Equivalence (connected es).
Proof. apply rtsc_equivalence. Qed.

Lemma uf_models_roots (parent parent' : list nat) (done : list Edge) :
  uf_forest parent' →
  (∀ y s, uf_root parent y s ↔ uf_root parent' y s) →
  uf_models parent done → uf_models parent' done.
Proof.
  intros Hf Hroots [_ Hs Hc]. split; [done|..].
  - intros x y r ?%Hroots ?%Hroots. eauto.
  - intros e He. destruct (Hc e He) as (r & ? & ?). exists r.
    split; by apply Hroots.
Qed.

Lemma uf_models_connected (parent : list nat) (done : list Edge) (x y r : nat) :
  uf_models parent done → connected done x y →
  uf_root parent x r → uf_root parent y r.
Proof.
  intros [Hf Hs Hc] H. revert r. induction H as [x|x z y Hxz _ IH]; [done|].
  intros r Hr. apply IH.
  destruct Hxz as [(e & He & <- & <-)|(e & He & <- & <-)];
    destruct (Hc e He) as (r' & H1 & H2).
  - by rewrite (uf_root_fun _ _ _ _ Hr H1).
  - by rewrite (uf_root_fun _ _ _ _ Hr H2).
Qed.

Lemma split_union_spec (points parent : list nat) (done : list Edge) (e : Edge) :
  uf_models parent done →
  Forall (fun p => p < length parent) points →
  ∃ parent', split_union points parent e = Ok parent'
    ∧ length parent' = length parent
    ∧ uf_models parent' (done ++ internal_edges points [e]).
Proof.
  intros Hm Hpts. unfold split_union, includes, internal_edges.
  rewrite Forall_forall in Hpts.
  destruct (decide (internal points e)) as [[Hs Hd]|Hni].
  2: { exists parent.
       rewrite filter_cons_False, filter_nil, app_nil_r by done.
       split; [|done].
       destruct (decide (source e ∈ points)); [|by rewrite bool_decide_eq_false_2].
       rewrite (bool_decide_eq_false_2 (destination e ∈ _)); [|unfold internal in *; tauto].
       by rewrite andb_false_r. }
  rewrite filter_cons_True, filter_nil by done.
  rewrite !bool_decide_eq_true_2 by done. simpl.
  destruct (find_spec parent (source e)) as (rx & p1 & -> & Hrx & Hl1 & Hf1 & Hr1);
    [apply Hm|by apply Hpts|]. simpl.
  destruct (find_spec p1 (destination e)) as (ry & p2 & -> & Hry & Hl2 & Hf2 & Hr2);
    [done|rewrite Hl1; by apply Hpts|]. simpl.
  assert (Hm2 : uf_models p2 done).
  { eapply (uf_models_roots p1); [done..|]. by eapply uf_models_roots. }
  apply Hr1, Hr2 in Hrx. apply Hr2 in Hry.
  destruct Hm2 as [_ Hs2 Hc2].
  destruct (decide (rx = ry)) as [->|Hne].
  - rewrite bool_decide_eq_false_2 by (by intros ?).
    eexists. split; [done|]. split; [lia|]. split; [done|..].
    + intros x y r Hx Hy. eapply connected_mono; [|by eapply Hs2].
      intros e'. set_solver.
    + intros e' [He'| ->%list_elem_of_singleton]%elem_of_app; [by apply Hc2|].
      by exists ry.
  - rewrite bool_decide_eq_true_2 by done.
    destruct (uf_root_lt _ _ _ Hrx) as (_ & _ & Hrx').
    destruct (uf_root_lt _ _ _ Hry) as (_ & _ & Hry').
    destruct (uf_link p2 rx ry Hrx' Hry' Hne Hf2) as [Hf3 Hr3].
    eexists. split; [done|]. rewrite length_insert. split; [lia|].
    assert (Hmono : ∀ x y, connected done x y → connected (done ++ [e]) x y).
    { intros x y. apply connected_mono. set_solver. }
    assert (He : connected (done ++ [e]) (source e) (destination e)).
    { apply connected_edge. set_solver. }
    split; [done|..].
    + intros x y r (sx & Hsx & Hx)%Hr3 (sy & Hsy & Hy)%Hr3.
      destruct (decide (sx = ry)) as [->|Hnx], (decide (sy = ry)) as [->|Hny].
      * apply Hmono. by apply (Hs2 _ _ ry).
      * (* x with the destination, y with the source *)
        assert (sy = rx) as -> by congruence.
        transitivity (destination e); [apply Hmono; by apply (Hs2 _ _ ry)|].
        transitivity (source e); [by symmetry|].
        apply Hmono. by apply (Hs2 _ _ rx).
      * assert (sx = rx) as -> by congruence.
        transitivity (source e); [apply Hmono; by apply (Hs2 _ _ rx)|].
        transitivity (destination e); [done|].
        apply Hmono. by apply (Hs2 _ _ ry).
      * assert (sx = sy) as -> by congruence.
        apply Hmono. by apply (Hs2 _ _ sy).
    + intros e' [He'| ->%list_elem_of_singleton]%elem_of_app.
      * destruct (Hc2 e' He') as (r & H1 & H2).
        exists (if decide (r = ry) then rx else r). split; apply Hr3; eauto.
      * exists rx. split; apply Hr3.
        -- exists rx. by rewrite decide_False.
        -- exists ry. by rewrite decide_True.
Qed.

Lemma split_union_fold (points : list nat) (es : list Edge) :
  ∀ (parent : list nat) (done : list Edge),
  uf_models parent (internal_edges points done) →
  Forall (fun p => p < length parent) points →
  ∃ parent', foldM (split_union points) parent es = Ok parent'
    ∧ length parent' = length parent
    ∧ uf_models parent' (internal_edges points (done ++ es)).
Proof.
  induction es as [|e es IH]; intros parent done Hm Hpts.
  - exists parent. by rewrite app_nil_r.
  - destruct (split_union_spec points parent _ e Hm Hpts)
      as (p1 & H1 & Hl1 & Hm1). cbn [foldM]. rewrite H1. simpl.
    unfold internal_edges in *. rewrite <- filter_app in Hm1.
    destruct (IH p1 (done ++ [e]) Hm1) as (p2 & H2 & Hl2 & Hm2).
    { by rewrite Hl1. }
    exists p2. rewrite <- app_assoc in Hm2. split_and!; [done|lia|done].
Qed.

Lemma uf_models_seq (n : nat) : uf_models (seq 0 n) [].
Proof.
  split; [apply uf_forest_seq|..].
  - intros x y r Hx Hy. apply uf_root_seq in Hx, Hy. by subst.
  - intros e He. by apply not_elem_of_nil in He.
Qed.

(** ** The components of [splitClusterAtEdge] *)

Lemma elem_of_concat {A} (x : A) (ls : list (list A)) :
  x ∈ concat ls ↔ ∃ l, x ∈ l ∧ l ∈ ls.
Proof.
  induction ls as [|l ls IH]; simpl.
  - split; [by intros ?%not_elem_of_nil|by intros (? & _ & ?%not_elem_of_nil)].
  - rewrite elem_of_app, IH. split.
    + intros [?|(l' & ? & ?)]; [exists l; split; [done|left]|].
      exists l'. split; [done|by right].
    + intros (l' & ? & [->|?]%elem_of_cons); [by left|right; by exists l'].
Qed.

Lemma NoDup_fst_lookup {A B} (l : list (A * B)) (x : A) (y1 y2 : B) :
  NoDup (fst <$> l) → (x, y1) ∈ l → (x, y2) ∈ l → y1 = y2.
Proof.
  induction l as [|[a b] l IH]; csimpl; [by intros _ ?%not_elem_of_nil|].
  intros [Hna Hnd]%NoDup_cons [?|H1]%elem_of_cons [?|H2]%elem_of_cons;
    simplify_eq; try done.
  - exfalso. apply Hna. apply list_elem_of_fmap. by exists (a, y2).
  - exfalso. apply Hna. apply list_elem_of_fmap. by exists (a, y1).
  - by apply IH.
Qed.

Lemma push_component_keys (root point : nat) (components : list (nat * list nat)) :
  fst <$> push_component root point components
  = if bool_decide (root ∈ fst <$> components) then fst <$> components
    else (fst <$> components) ++ [root].
Proof.
  induction components as [|[r ps] cs IH]; [done|]. cbn [push_component].
  destruct (decide (r = root)) as [->|Hne].
  - rewrite bool_decide_eq_true_2 by done. csimpl.
    by rewrite bool_decide_eq_true_2 by left.
  - rewrite bool_decide_eq_false_2 by done. csimpl. rewrite IH.
    destruct (decide (root ∈ fst <$> cs)).
    + rewrite !bool_decide_eq_true_2; [done| |done]. by right.
    + rewrite !bool_decide_eq_false_2; [done| |done].
      intros [?|?]%elem_of_cons; simplify_eq/=; done.
Qed.

Lemma push_component_elem (root point : nat) (components : list (nat * list nat))
    (r : nat) (ps : list nat) :
  (r, ps) ∈ push_component root point components →
  (r, ps) ∈ components
  ∨ r = root ∧ (ps = [point]
                ∨ ∃ ps0, (r, ps0) ∈ components ∧ ps = ps0 ++ [point]).
Proof.
  induction components as [|[r' ps'] cs IH]; cbn [push_component].
  - intros ?%list_elem_of_singleton. simplify_eq. right. split; [done|by left].
  - destruct (decide (r' = root)) as [->|Hne].
    + rewrite bool_decide_eq_true_2 by done.
      intros [?|?]%elem_of_cons; simplify_eq.
      * right. split; [done|]. right. exists ps'. split; [left|done].
      * left. by right.
    + rewrite bool_decide_eq_false_2 by done.
      intros [?|Hin]%elem_of_cons; simplify_eq.
      * left. left.
      * destruct (IH Hin) as [?|(-> & [->|(ps0 & ? & ->)])].
        -- left. by right.
        -- right. split; [done|by left].
        -- right. split; [done|]. right. exists ps0. split; [by right|done].
Qed.

Lemma push_component_perm (root point : nat) (components : list (nat * list nat)) :
  concat (snd <$> push_component root point components)
  ≡ₚ concat (snd <$> components) ++ [point].
Proof.
  induction components as [|[r ps] cs IH]; [done|]. cbn [push_component].
  destruct (decide (r = root)) as [->|Hne].
  - rewrite bool_decide_eq_true_2 by done. csimpl.
    rewrite <- !app_assoc. apply Permutation_app_head, Permutation_app_comm.
  - rewrite bool_decide_eq_false_2 by done. csimpl. rewrite IH.
    by rewrite app_assoc.
Qed.

Lemma grouped_roots_equiv (parent parent' : list nat) components done :
  (∀ y s, uf_root parent y s ↔ uf_root parent' y s) →
  grouped parent components done → grouped parent' components done.
Proof.
  intros Hroots [Hk Hr Hp]. split; [done| |done].
  intros r ps Hin. destruct (Hr r ps Hin) as [? Hps]. split; [done|].
  intros p Hp'. by apply Hroots, Hps.
Qed.

Lemma split_group_eq (parent : list nat) (components : list (nat * list nat))
    (point : nat) :
  split_group (parent, components) point
  = '(root, parent') ← find point parent;
    mret (parent', push_component root point components).
Proof. reflexivity. Qed.

Lemma split_group_fold (points : list nat) :
  ∀ (parent : list nat) (components : list (nat * list nat)) (done : list nat),
  uf_forest parent →
  Forall (fun p => p < length parent) points →
  grouped parent components done →
  ∃ parent' components',
    foldM split_group (parent, components) points = Ok (parent', components')
    ∧ uf_forest parent'
    ∧ (∀ y s, uf_root parent y s ↔ uf_root parent' y s)
    ∧ grouped parent' components' (done ++ points).
Proof.
  induction points as [|point points IH];
    intros parent components done Hf Hpts Hg.
  - exists parent, components. rewrite app_nil_r. done.
  - apply Forall_cons in Hpts as [Hpt Hpts].
    cbn [foldM]. rewrite split_group_eq.
    destruct (find_spec parent point Hf Hpt)
      as (root & p1 & -> & Hroot & Hl1 & Hf1 & Hr1). simpl.
    apply (grouped_roots_equiv _ p1) in Hg; [|done].
    apply Hr1 in Hroot.
    destruct (IH p1 (push_component root point components) (done ++ [point]))
      as (p2 & cs2 & H2 & Hf2 & Hr2 & Hg2); [done|by rewrite Hl1|..].
    + destruct Hg as [Hk Hr Hp]. split.
      * rewrite push_component_keys. case_bool_decide; [done|].
        apply NoDup_app. split_and!; [done| |apply NoDup_singleton].
        intros x Hx ->%list_elem_of_singleton. done.
      * intros r ps [Hin|(-> & [->|(ps0 & Hin & ->)])]%push_component_elem.
        -- by apply Hr.
        -- split; [done|]. by intros p ->%list_elem_of_singleton.
        -- destruct (Hr _ _ Hin) as [? Hps]. split; [by destruct ps0|].
           intros p [?| ->%list_elem_of_singleton]%elem_of_app; [by apply Hps|done].
      * by rewrite push_component_perm, Hp.
    + exists p2, cs2. rewrite <- app_assoc in Hg2. split_and!; [done..| |done].
      intros y s. by rewrite Hr1, Hr2.
Qed.

(** what [splitClusterAtEdge] returns: the classes of [points] under the
    lighter edges that lie inside [points] *)
Lemma splitClusterAtEdge_spec (this : HDBSCAN) (points : list nat)
    (removed : Edge) (es : list Edge) :
  let n := length (sortedEdges this) + 1 in
  let inner :=
    internal_edges points
      (filter (fun e : Edge => Num.leb (weight e) (weight removed)) es) in
  Forall (fun p => p < n) points →
  ∃ components,
    splitClusterAtEdge this points removed es = Ok components
    ∧ concat components ≡ₚ points
    ∧ Forall (fun c => c ≠ []) components
    ∧ (∀ c x y, c ∈ components → x ∈ c → y ∈ c → connected inner x y)
    ∧ (∀ c x y, c ∈ components → x ∈ c → y ∈ points →
         connected inner x y → y ∈ c).
Proof.
  intros n inner Hpts. unfold splitClusterAtEdge. cbv zeta. fold n.
  destruct (split_union_fold points
              (filter (fun e : Edge => Num.leb (weight e) (weight removed)) es)
              (seq 0 n) [])
    as (p1 & -> & Hl1 & Hm1).
  { apply uf_models_seq. }
  { by rewrite length_seq. }
  simpl in Hm1. fold inner in Hm1. rewrite length_seq in Hl1. simpl.
  destruct (split_group_fold points p1 [] []) as (p2 & cs & -> & Hf2 & Hr2 & Hg).
  { apply Hm1. }
  { by rewrite Hl1. }
  { split; [constructor|by intros ?? ?%not_elem_of_nil|done]. }
  simpl. unfold component_values. simpl. simpl in Hg.
  destruct Hg as [Hk Hr Hp].
  assert (Hm2 : uf_models p2 inner) by (by eapply uf_models_roots).
  eexists. split; [done|]. split_and!.
  - done.
  - apply Forall_forall. intros c ([r ps] & -> & Hin)%list_elem_of_fmap.
    by destruct (Hr _ _ Hin).
  - intros c x y ([r ps] & -> & Hin)%list_elem_of_fmap Hx Hy. simpl in *.
    destruct (Hr _ _ Hin) as [_ Hps].
    eapply (uf_models_sound _ _ Hm2); by apply Hps.
  - intros c x y ([r ps] & -> & Hin)%list_elem_of_fmap Hx Hy Hxy. simpl in *.
    destruct (Hr _ _ Hin) as [_ Hps].
    pose proof (uf_models_connected _ _ _ _ _ Hm2 Hxy (Hps x Hx)) as Hyr.
    assert (y ∈ concat (snd <$> cs)) as Hyc by (by rewrite Hp).
    apply elem_of_concat in Hyc as (c' & Hyc' & ([r' ps'] & -> & Hin')%list_elem_of_fmap).
    simpl in *. destruct (Hr _ _ Hin') as [_ Hps'].
    assert (r' = r) as -> by (eapply uf_root_fun; [by apply Hps'|done]).
    by rewrite (NoDup_fst_lookup _ _ _ _ Hk Hin Hin').
Qed.

(** ** Trees grown edge by edge *)

Lemma prim_order_tree (m : list (list num)) (n : nat) (vis : gset nat)
    (es : list Edge) :
  prim_order m n vis es → tree_order n vis es.
Proof. induction 1; by constructor. Qed.

Lemma prim_order_finite (m : list (list num)) (vis : gset nat) (es : list Edge) :
  square_finite m → (∀ x, x ∈ vis → x < length m) →
  prim_order m (length m) vis es → finite_weights es.
Proof.
  intros Hm Hvis H. induction H as [|vis u v w es Hu Hv Hvn -> _ _ _ IH];
    [constructor|].
  constructor.
  - destruct (mget_finite m u v Hm) as [q ->]; [by apply Hvis|done|done].
  - apply IH. intros x [->%elem_of_singleton|?]%elem_of_union; auto.
Qed.

Lemma tree_order_app (n : nat) (pre es : list Edge) :
  ∀ vis, tree_order n vis (pre ++ es) →
  ∃ vis', vis ⊆ vis' ∧ tree_order n vis' es
          ∧ ∀ e, e ∈ pre → source e ∈ vis' ∧ destination e ∈ vis'.
Proof.
  induction pre as [|e pre IH]; intros vis H.
  - exists vis. split_and!; [done..|]. by intros e ?%not_elem_of_nil.
  - inversion H as [|? u v w ? Hu Hv Hvn Hrest]; subst.
    destruct (IH _ Hrest) as (vis' & Hsub & Htree & Hpre).
    exists vis'. split_and!; [set_solver|done|].
    intros e [->|?]%elem_of_cons; [|by apply Hpre].
    unfold source, destination; simpl. set_solver.
Qed.

Lemma tree_order_descendants (n : nat) (es : list Edge) :
  ∀ (vis A0 : gset nat), tree_order n vis es → A0 ⊆ vis →
  ∃ A : gset nat, (∀ x, x ∈ vis → x ∈ A ↔ x ∈ A0) ∧ closed_under es A.
Proof.
  induction es as [|e es IH]; intros vis A0 H Hsub.
  - exists A0. split; [done|]. by intros e ?%not_elem_of_nil.
  - inversion H as [|? u v w ? Hu Hv Hvn Hrest]; subst.
    destruct (IH ({[v]} ∪ vis) (if decide (u ∈ A0) then {[v]} ∪ A0 else A0) Hrest)
      as (A & HA & Hclosed).
    { case_decide; set_solver. }
    exists A. split.
    + intros x Hx. rewrite HA by set_solver. case_decide; set_solver.
    + intros e [->|?]%elem_of_cons; [|by apply Hclosed].
      unfold source, destination; simpl.
      rewrite !HA by set_solver. case_decide; set_solver.
Qed.

Lemma tree_order_cut (n : nat) (vis : gset nat) (pre post : list Edge)
    (u v : nat) (w : num) :
  tree_order n vis (pre ++ (u, v, w) :: post) →
  ∃ A : gset nat, v ∈ A ∧ (u ∉ A) ∧ closed_under (pre ++ post) A.
Proof.
  intros H. destruct (tree_order_app _ _ _ _ H) as (vis' & Hsub & Htree & Hpre).
  inversion Htree as [|? ? ? ? ? Hu Hv Hvn Hrest]; subst.
  destruct (tree_order_descendants n post ({[v]} ∪ vis') {[v]} Hrest)
    as (A & HA & Hclosed); [set_solver|].
  exists A. split_and!.
  - apply HA; set_solver.
  - rewrite HA by set_solver. set_solver.
  - intros e [He|He]%elem_of_app; [|by apply Hclosed].
    destruct (Hpre e He) as [Hs Hd].
    rewrite !HA by set_solver. set_solver.
Qed.

Lemma closed_under_perm (es es' : list Edge) (A : gset nat) :
  es ≡ₚ es' → closed_under es A → closed_under es' A.
Proof. intros Hp Hc e He. apply Hc. by rewrite Hp. Qed.

(** the endpoints of a tree edge are not connected by the other edges *)
Lemma tree_order_separated (n : nat) (vis : gset nat) (es l1 l2 : list Edge)
    (e : Edge) :
  tree_order n vis es → es ≡ₚ l1 ++ e :: l2 →
  ¬ connected (l1 ++ l2) (source e) (destination e).
Proof.
  intros Htree Hperm Hconn.
  assert (e ∈ es) as He by (rewrite Hperm; set_solver).
  apply list_elem_of_split in He as (pre & post & ->).
  destruct e as [[u v] w].
  destruct (tree_order_cut _ _ _ _ _ _ _ Htree) as (A & Hv & Hu & Hclosed).
  apply Permutation_app_inv in Hperm.
  apply (closed_under_perm _ _ _ Hperm) in Hclosed.
  apply (connected_closed _ _ _ _ Hclosed) in Hconn.
  unfold source, destination in Hconn; simpl in Hconn. tauto.
Qed.

Lemma tree_order_bound (n : nat) (vis : gset nat) (es : list Edge) :
  tree_order n vis es → (∀ x, x ∈ vis → x < n) →
  ∀ e, e ∈ es → source e < n ∧ destination e < n ∧ source e ≠ destination e.
Proof.
  induction 1 as [|vis u v w es Hu Hv Hvn _ IH]; intros Hvis e He.
  - by apply not_elem_of_nil in He.
  - apply elem_of_cons in He as [->|He].
    + unfold source, destination; simpl. split_and!; [auto|done|].
      intros ->. done.
    + apply IH; [|done].
      intros x [->%elem_of_singleton|?]%elem_of_union; auto.
Qed.

(** ** Sorting *)

Lemma sort_insert_perm {A} (cmp : A → A → num) (x : A) (l : list A) :
  sort_insert cmp x l ≡ₚ x :: l.
Proof.
  induction l as [|y l IH]; [done|]. cbn [sort_insert].
  destruct (Num.ltb Num.zero (cmp x y)); [|done].
  rewrite IH. apply Permutation_swap.
Qed.

Lemma js_sort_perm {A} (cmp : A → A → num) (l : list A) : js_sort cmp l ≡ₚ l.
Proof.
  induction l as [|x l IH]; [done|]. unfold js_sort in *. simpl.
  by rewrite sort_insert_perm, IH.
Qed.

Lemma by_weight_desc_pos (x y : Edge) :
  Num.finite (weight x) → Num.finite (weight y) →
  (Num.ltb Num.zero (by_weight_desc x y) = true
   → Num.leb (weight x) (weight y) = true)
  ∧ (Num.ltb Num.zero (by_weight_desc x y) = false
     → Num.leb (weight y) (weight x) = true).
Proof.
  unfold by_weight_desc. destruct (weight x) as [a| | |], (weight y) as [b| | |];
    try done. intros _ _. cbn [Num.sub Num.neg Num.add].
  rewrite overflow_pos. split.
  - intros H%Qltb_lt. apply Qle_bool_iff. lra.
  - intros H%Qltb_ge. apply Qle_bool_iff. lra.
Qed.

Lemma sort_insert_sorted (x : Edge) (l : list Edge) :
  Num.finite (weight x) → finite_weights l →
  sorted_desc l → sorted_desc (sort_insert by_weight_desc x l).
Proof.
  intros Hx Hl Hs. induction Hs as [|y l Hs IH Hy]; cbn [sort_insert].
  - repeat constructor.
  - apply Forall_cons in Hl as [Hfy Hl].
    destruct (by_weight_desc_pos x y Hx Hfy) as [Hpos Hneg].
    destruct (Num.ltb Num.zero (by_weight_desc x y)) eqn:E.
    + constructor; [by apply IH|].
      rewrite sort_insert_perm. constructor; [by apply Hpos|done].
    + constructor; [by constructor|].
      constructor; [by apply Hneg|].
      eapply Forall_impl; [exact Hy|]. intros z Hz. cbv beta in *.
      unfold finite_weights in *.
      destruct (weight x) as [a| | |]; try done.
      destruct (weight y) as [b| | |]; try done.
      destruct (weight z) as [c| | |]; try done.
      eapply leb_trans_Fin; [exact Hz|by apply Hneg].
Qed.

Lemma js_sort_sorted (l : list Edge) :
  finite_weights l → sorted_desc (js_sort by_weight_desc l).
Proof.
  induction l as [|x l IH]; intros Hl; [constructor|].
  apply Forall_cons in Hl as [Hx Hl]. unfold js_sort in *. simpl.
  apply sort_insert_sorted; [done| |by apply IH].
  unfold finite_weights. by rewrite (js_sort_perm by_weight_desc l).
Qed.

(** ** The cluster hierarchy *)

Lemma find_last_None {A} (P : A → bool) (l : list A) :
  find_last P l = None → ∀ x, x ∈ l → P x = false.
Proof.
  induction l as [|y l IH]; simpl; [by intros _ x ?%not_elem_of_nil|].
  destruct (find_last P l); [done|]. destruct (P y) eqn:HPy; [done|].
  intros _ x [->|?]%elem_of_cons; auto.
Qed.

Lemma find_last_Some {A} (P : A → bool) (l : list A) (i : nat) :
  find_last P l = Some i →
  ∃ x, l !! i = Some x ∧ P x = true
       ∧ ∀ k y, i < k → l !! k = Some y → P y = false.
Proof.
  revert i. induction l as [|x l IH]; intros i; simpl; [done|].
  destruct (find_last P l) as [i'|] eqn:E.
  - intros [= <-]. destruct (IH i' eq_refl) as (y & Hy & HP & Hlater).
    exists y. split_and!; [done..|].
    intros [|k] z Hk Hz; [lia|]. simpl in Hz. eapply Hlater; [|done]. lia.
  - destruct (P x) eqn:HP; [|done]. intros [= <-].
    exists x. split_and!; [done..|].
    intros [|k] z Hk Hz; [lia|]. simpl in Hz.
    eapply find_last_None; [done|]. by eapply list_elem_of_lookup_2.
Qed.

Lemma contains_both (points : list nat) (s d : nat) :
  forallb (includes points) [s; d] = true ↔ s ∈ points ∧ d ∈ points.
Proof.
  simpl. unfold includes. rewrite andb_true_r, andb_true_iff.
  by rewrite !bool_decide_eq_true.
Qed.

Lemma createCluster_spec (this : HDBSCAN) (points : list nat) (dist : num)
    (es : list Edge) (birth : num) :
  ∃ c, createCluster this points dist es birth
       = (set_nextClusterId (S (nextClusterId this)) this, c)
     ∧ id c = nextClusterId this ∧ children c = points ∧ distance c = dist
     ∧ maxEdgeWeight c = dist ∧ birthDistance c = birth
     ∧ size c = length points
     ∧ leftChild c = None ∧ rightChild c = None.
Proof.
  unfold createCluster. destruct (foldl _ _ points) as [m l].
  eexists. split; [reflexivity|]. done.
Qed.

Lemma sorted_desc_drop (es : list Edge) (i : nat) (e e' : Edge) :
  sorted_desc es → es !! i = Some e → e' ∈ drop (S i) es →
  Num.leb (weight e') (weight e) = true.
Proof.
  intros Hs. revert i. induction Hs as [|x l Hs IH Hx]; intros i; [done|].
  destruct i as [|i]; simpl.
  - intros [= ->] Hin. rewrite drop_0 in Hin.
    rewrite Forall_forall in Hx. by apply Hx.
  - apply IH.
Qed.

Lemma filter_lighter_drop (es : list Edge) (i : nat) (e : Edge) :
  sorted_desc es → es !! i = Some e →
  filter (fun e' : Edge => Num.leb (weight e') (weight e)) (drop (S i) es)
  = drop (S i) es.
Proof.
  intros Hs He. induction (drop (S i) es) as [|x l IH] eqn:E using rev_ind;
    [done|].
  assert (Hall : Forall (fun e' : Edge => Num.leb (weight e') (weight e))
                        (drop (S i) es)).
  { apply Forall_forall. intros e' He'. apply Is_true_true.
    by eapply sorted_desc_drop. }
  rewrite E in Hall. clear -Hall. induction Hall as [|y k Hy _ IH]; [done|].
  rewrite filter_cons_True by done. by rewrite IH.
Qed.

Lemma update_parent_fields (bl br : bool) (il ir : nat) (c : Cluster) :
  id (update_parent bl br il ir c) = id c
  ∧ children (update_parent bl br il ir c) = children c
  ∧ distance (update_parent bl br il ir c) = distance c
  ∧ leftChild (update_parent bl br il ir c) = (if bl then Some il else leftChild c)
  ∧ rightChild (update_parent bl br il ir c) = (if br then Some ir else rightChild c).
Proof. by destruct bl, br. Qed.

Lemma hierarchy_step_shape (bl br : bool) (pi : nat) (hierarchy : list Cluster)
    (lc rc : Cluster) :
  pi < length hierarchy →
  (let h1 := if bl then alter (set_leftChild (id lc)) pi hierarchy ++ [lc]
             else hierarchy ++ [set_stability Num.zero lc] in
   let h2 := if br then alter (set_rightChild (id rc)) pi h1 ++ [rc]
             else h1 ++ [set_stability Num.zero rc] in
   if (bl && negb br) || (negb bl && br)
   then alter (set_stability Num.zero) pi h2 else h2)
  = alter (update_parent bl br (id lc) (id rc)) pi hierarchy
    ++ [if bl then lc else set_stability Num.zero lc;
        if br then rc else set_stability Num.zero rc].
Proof.
  intros Hpi. destruct bl, br; cbv zeta; cbn [andb orb negb].
  - rewrite alter_app_l by (by rewrite length_alter).
    rewrite list_alter_alter_eq, <- app_assoc. f_equal; by apply list_alter_ext.
  - rewrite <- app_assoc. rewrite alter_app_l by (by rewrite length_alter).
    rewrite list_alter_alter_eq. f_equal; by apply list_alter_ext.
  - rewrite alter_app_l by (rewrite length_alter, length_app; lia).
    rewrite (alter_app_l _ hierarchy) by done.
    rewrite alter_app_l by (by rewrite length_alter).
    rewrite list_alter_alter_eq, <- app_assoc. f_equal; by apply list_alter_ext.
  - rewrite <- app_assoc. by rewrite list_alter_id.
Qed.

Lemma hier_inv_rest (n id0 : nat) (mcs : num) (mst rest rest' : list Edge)
    (splits : list nat) (this : HDBSCAN) (hierarchy : list Cluster) :
  (∀ e, e ∈ rest' → e ∈ rest) →
  hier_inv n id0 mcs mst rest splits this hierarchy →
  hier_inv n id0 mcs mst rest' splits this hierarchy.
Proof.
  intros Hsub [H1 H2 H3 H4 H5 H6 H7 H8 H9 H10 H11 H12].
  split; try done.
  - intros c e Hc He. apply H9; auto.
  - intros j p Hj. destruct (H10 j p Hj) as (Hlt & P & L & R & Hrest).
    split; [done|]. exists P, L, R.
    destruct Hrest as (? & ? & ? & ? & ? & ? & ? & ? & Hr).
    split_and!; try done. intros e He. apply Hr; auto.
Qed.

Lemma bind_Ok {A B} (a : A) (f : A → result B) : (Ok a ≫= f) = f a.
Proof. reflexivity. Qed.

Lemma lookup_split (hierarchy : list Cluster) (pi : nat) (f : Cluster → Cluster)
    (l r : Cluster) (k : nat) (c : Cluster) :
  (alter f pi hierarchy ++ [l; r]) !! k = Some c →
  (k < length hierarchy
   ∧ ∃ c0, hierarchy !! k = Some c0 ∧ c = (if decide (k = pi) then f c0 else c0))
  ∨ (k = length hierarchy ∧ c = l)
  ∨ (k = S (length hierarchy) ∧ c = r).
Proof.
  intros Hk. destruct (decide (k < length hierarchy)) as [Hlt|Hge].
  - left. split; [done|]. rewrite lookup_app_l in Hk by (by rewrite length_alter).
    destruct (decide (k = pi)) as [->|Hne].
    + rewrite list_lookup_alter_eq in Hk.
      destruct (hierarchy !! pi) as [c0|]; simplify_eq/=. by exists c0.
    + rewrite list_lookup_alter_ne in Hk by done. by exists c.
  - right. rewrite lookup_app_r in Hk by (rewrite length_alter; lia).
    rewrite length_alter in Hk.
    destruct (k - length hierarchy) as [|[|m]] eqn:E; simplify_eq/=.
    + left. split; [lia|done].
    + right. split; [lia|done].
Qed.

Lemma lookup_split_old (hierarchy : list Cluster) (pi : nat)
    (f : Cluster → Cluster) (l r : Cluster) (k : nat) (c0 : Cluster) :
  hierarchy !! k = Some c0 →
  (alter f pi hierarchy ++ [l; r]) !! k
  = Some (if decide (k = pi) then f c0 else c0).
Proof.
  intros Hk. pose proof (lookup_lt_Some _ _ _ Hk).
  rewrite lookup_app_l by (by rewrite length_alter).
  destruct (decide (k = pi)) as [->|Hne].
  - by rewrite list_lookup_alter_eq, Hk.
  - by rewrite list_lookup_alter_ne.
Qed.

Lemma lookup_split_old_eq (hierarchy : list Cluster) (pi : nat)
    (f : Cluster → Cluster) (l r : Cluster) (c0 : Cluster) :
  hierarchy !! pi = Some c0 →
  (alter f pi hierarchy ++ [l; r]) !! pi = Some (f c0).
Proof.
  intros Hk. rewrite (lookup_split_old _ _ _ _ _ _ _ Hk). by rewrite decide_True.
Qed.

Section hierarchy_step.
Context (n id0 : nat) (mcs : num) (mst sorted : list Edge).
Hypothesis Hmst : mst_ok n mst.
Hypothesis Hperm : sorted ≡ₚ mst.
Hypothesis Hsorted : sorted_desc sorted.

Lemma sorted_edge_bound (e : Edge) :
  e ∈ sorted →
  source e < n ∧ destination e < n ∧ source e ≠ destination e.
Proof.
  intros He. rewrite Hperm in He.
  eapply tree_order_bound; [apply Hmst| |done].
  intros x ->%elem_of_singleton. rewrite (mst_length _ _ Hmst). lia.
Qed.

Lemma sorted_finite : finite_weights sorted.
Proof. unfold finite_weights. rewrite Hperm. apply Hmst. Qed.

Lemma sorted_separated (i : nat) (e : Edge) (points : list nat) :
  sorted !! i = Some e →
  ¬ connected (internal_edges points (drop (S i) sorted))
      (source e) (destination e).
Proof.
  intros He Hc.
  eapply (tree_order_separated n {[0]} mst (take i sorted) (drop (S i) sorted) e).
  - apply Hmst.
  - by rewrite take_drop_middle.
  - eapply connected_mono; [|done].
    intros e' [_ He']%list_elem_of_filter. set_solver.
Qed.

Lemma hierarchy_step_inv (i : nat) (e : Edge) (splits : list nat)
    (this : HDBSCAN) (hierarchy : list Cluster) :
  sorted !! i = Some e →
  hier_inv n id0 mcs mst (drop i sorted) splits this hierarchy →
  ∃ splits' this' hierarchy',
    hierarchy_step sorted (this, hierarchy) i = Ok (this', hierarchy')
    ∧ hier_inv n id0 mcs mst (drop (S i) sorted) splits' this' hierarchy'.
Proof.
  intros He Hinv.
  assert (Hein : e ∈ sorted) by (by eapply list_elem_of_lookup_2).
  destruct (sorted_edge_bound e Hein) as (Hs & Hd & Hsd).
  assert (Hdrop : drop i sorted = e :: drop (S i) sorted)
    by (by apply drop_S).
  assert (Hrest : ∀ e', e' ∈ drop (S i) sorted → e' ∈ drop i sorted)
    by (rewrite Hdrop; set_solver).
  unfold hierarchy_step. rewrite He. cbn [defined]. rewrite bind_Ok.
  destruct (hi_root _ _ _ _ _ _ _ _ Hinv) as (root & Hroot & Hrootc).
  destruct (findClusterContainingPoints _ hierarchy) as [pi|] eqn:Hfind.
  2: { unfold findClusterContainingPoints in Hfind.
       eapply find_last_None in Hfind; [|by eapply list_elem_of_lookup_2].
       apply not_true_iff_false in Hfind. exfalso. apply Hfind.
       apply contains_both. rewrite Hrootc, !elem_of_seq. lia. }
  unfold findClusterContainingPoints in Hfind.
  apply find_last_Some in Hfind as (P & HP & [HsP HdP]%contains_both & Hlater).
  rewrite HP. cbn [defined]. rewrite bind_Ok.
  assert (Hpi : pi < length hierarchy) by (by eapply lookup_lt_Some).
  assert (Hnotsplit : pi ∉ splits).
  { intros (j & Hj)%list_elem_of_lookup_1.
    destruct (hi_splits _ _ _ _ _ _ _ _ Hinv j pi Hj)
      as (Hlt & P' & L & R & HP' & HL & HR & _ & _ & _ & _ & _ & Hin).
    rewrite HP in HP'. simplify_eq.
    destruct (Hin e) as [[? ?]|[? ?]]; [rewrite Hdrop; left|done|..].
    - specialize (Hlater _ _ Hlt HL). apply not_true_iff_false in Hlater.
      apply Hlater, contains_both. done.
    - specialize (Hlater (2 * j + 2) _ ltac:(lia) HR).
      apply not_true_iff_false in Hlater.
      apply Hlater, contains_both. done. }
  destruct (hi_unsplit _ _ _ _ _ _ _ _ Hinv pi P HP Hnotsplit) as [HlP HrP].
  rewrite HlP. rewrite bool_decide_eq_false_2 by (by intros [? ?]).
  destruct (hi_members _ _ _ _ _ _ _ _ Hinv P) as (HPne & HPnd & HPb);
    [by eapply list_elem_of_lookup_2|].
  destruct (splitClusterAtEdge_spec this (children P) e (drop (i + 1) sorted))
    as (comps & -> & Hcperm & Hcne & Hcsound & Hccomplete).
  { rewrite (hi_mst _ _ _ _ _ _ _ _ Hinv), <- (mst_length _ _ Hmst). done. }
  rewrite bind_Ok. rewrite Nat.add_1_r in *.
  rewrite (filter_lighter_drop sorted i e Hsorted He) in Hcsound, Hccomplete.
  (* the endpoints of the edge lie in two components *)
  assert (Hin2 : ∀ x, x ∈ children P → ∃ c, c ∈ comps ∧ x ∈ c).
  { intros x Hx. rewrite <- Hcperm in Hx.
    apply elem_of_concat in Hx as (c & ? & ?). by exists c. }
  destruct (Hin2 _ HsP) as (cs & Hcs & Hscs).
  destruct (Hin2 _ HdP) as (cd & Hcd & Hdcd).
  assert (Hdiff : cs ≠ cd).
  { intros <-. eapply (sorted_separated i e); [done|]. by eapply Hcsound. }
  assert (Hok : components_ok comps = true).
  { destruct comps as [|c1 [|c2 [|c3 comps']]];
      [by apply not_elem_of_nil in Hcs| |done..].
    apply list_elem_of_singleton in Hcs, Hcd. congruence. }
  rewrite Hok. cbn [negb].
  destruct comps as [|c1 [|c2 [|c3 comps']]].
  1,2,4: (exists splits, this, hierarchy; split; [done|];
          by eapply hier_inv_rest).
  (* the split into two clusters *)
  destruct (createCluster_spec this c1 (weight e) (sortedEdges this) (weight e))
    as (lc & -> & Hlid & Hlch & Hldist & _ & _ & _ & Hll & Hlr).
  set (this1 := set_nextClusterId _ this).
  destruct (createCluster_spec this1 c2 (weight e) (sortedEdges this1) (weight e))
    as (rc & -> & Hrid & Hrch & Hrdist & _ & _ & _ & Hrl & Hrr).
  set (this2 := set_nextClusterId _ this1).
  set (bl := large_enough this1 (length c1)).
  set (br := large_enough this2 (length c2)).
  pose proof (hierarchy_step_shape bl br pi hierarchy lc rc Hpi) as Hshape.
  cbv zeta in Hshape. rewrite Hshape. clear Hshape.
  set (L := if bl then lc else set_stability Num.zero lc).
  set (R := if br then rc else set_stability Num.zero rc).
  set (upd := update_parent bl br (id lc) (id rc)).
  exists (splits ++ [pi]), this2, (alter upd pi hierarchy ++ [L; R]).
  split; [done|].
  assert (HLf : id L = id0 + length hierarchy ∧ children L = c1
                ∧ distance L = weight e
                ∧ leftChild L = None ∧ rightChild L = None).
  { rewrite <- (hi_next _ _ _ _ _ _ _ _ Hinv). subst L. by destruct bl. }
  assert (HRf : id R = id0 + S (length hierarchy) ∧ children R = c2
                ∧ distance R = weight e
                ∧ leftChild R = None ∧ rightChild R = None).
  { rewrite Nat.add_succ_r, <- (hi_next _ _ _ _ _ _ _ _ Hinv).
    subst R. by destruct br. }
  destruct HLf as (HLid & HLch & HLdist & HLl & HLr).
  destruct HRf as (HRid & HRch & HRdist & HRl & HRr).
  assert (Hmcs1 : minClusterSize this1 = mcs)
    by apply (hi_mcs _ _ _ _ _ _ _ _ Hinv).
  assert (Hmcs2 : minClusterSize this2 = mcs)
    by apply (hi_mcs _ _ _ _ _ _ _ _ Hinv).
  assert (HidL : id L = id lc) by (subst L; by destruct bl).
  assert (HidR : id R = id rc) by (subst R; by destruct br).
  assert (Hbl : link_of mcs L = if bl then Some (id lc) else None).
  { unfold link_of. rewrite HLch, HidL. unfold bl, large_enough.
    by rewrite Hmcs1. }
  assert (Hbr : link_of mcs R = if br then Some (id rc) else None).
  { unfold link_of. rewrite HRch, HidR. unfold br, large_enough.
    by rewrite Hmcs2. }
  assert (Hc12 : c1 ++ c2 ≡ₚ children P).
  { rewrite <- Hcperm. simpl. by rewrite app_nil_r. }
  assert (Hnd12 : NoDup (c1 ++ c2)) by (by rewrite Hc12).
  apply NoDup_app in Hnd12 as (Hnd1 & Hdisj & Hnd2).
  assert (Hsub1 : ∀ x, x ∈ c1 → x ∈ children P)
    by (intros x Hx; rewrite <- Hc12; set_solver).
  assert (Hsub2 : ∀ x, x ∈ c2 → x ∈ children P)
    by (intros x Hx; rewrite <- Hc12; set_solver).
  apply Forall_cons in Hcne as [Hne1 Hcne].
  apply Forall_cons in Hcne as [Hne2 _].
  rewrite Forall_forall in HPb.
  pose proof (update_parent_fields bl br (id lc) (id rc)) as Hupd.
  fold upd in Hupd.
  (* the clusters of the new hierarchy *)
  assert (Hnew : ∀ k c, (alter upd pi hierarchy ++ [L; R]) !! k = Some c →
            (k < length hierarchy
             ∧ ∃ c0, hierarchy !! k = Some c0 ∧ id c = id c0
                     ∧ children c = children c0 ∧ distance c = distance c0
                     ∧ (k ≠ pi → c = c0))
            ∨ (k = length hierarchy ∧ c = L)
            ∨ (k = S (length hierarchy) ∧ c = R)).
  { intros k c Hk.
    destruct (lookup_split _ _ _ _ _ _ _ Hk) as [(Hlt & c0 & Hc0 & ->)|Hn];
      [left|by right].
    split; [done|]. exists c0. split; [done|].
    case_decide; [|done]. destruct (Hupd c0) as (-> & -> & -> & _). done. }
  assert (Hold : ∀ k c0, hierarchy !! k = Some c0 →
            ∃ c, (alter upd pi hierarchy ++ [L; R]) !! k = Some c
                 ∧ id c = id c0 ∧ children c = children c0
                 ∧ distance c = distance c0 ∧ (k ≠ pi → c = c0)).
  { intros k c0 Hk. eexists. split; [by apply lookup_split_old|].
    case_decide; [|done]. destruct (Hupd c0) as (-> & -> & -> & _). done. }
  assert (HnewL : (alter upd pi hierarchy ++ [L; R]) !! length hierarchy
                  = Some L).
  { rewrite lookup_app_r by (by rewrite length_alter).
    by rewrite length_alter, Nat.sub_diag. }
  assert (HnewR : (alter upd pi hierarchy ++ [L; R]) !! S (length hierarchy)
                  = Some R).
  { rewrite lookup_app_r by (rewrite length_alter; lia).
    rewrite length_alter.
    by replace (S (length hierarchy) - length hierarchy) with 1 by lia. }
  assert (Hlen : length hierarchy = 2 * length splits + 1)
    by apply (hi_length _ _ _ _ _ _ _ _ Hinv).
  assert (Hwe : Num.finite (weight e)).
  { pose proof sorted_finite as Hf. unfold finite_weights in Hf.
    rewrite Forall_forall in Hf. by apply Hf. }
  split.
  - rewrite !length_app, length_alter. simpl. lia.
  - rewrite !length_app, length_alter. simpl.
    pose proof (hi_next _ _ _ _ _ _ _ _ Hinv). lia.
  - done.
  - apply (hi_mst _ _ _ _ _ _ _ _ Hinv).
  - destruct (Hold 0 root Hroot) as (c & Hc & _ & Hcc & _).
    exists c. split; [done|]. by rewrite Hcc.
  - intros k c Hk.
    destruct (Hnew k c Hk) as [(_ & c0 & Hc0 & -> & _)|[[-> ->]|[-> ->]]];
      [by apply (hi_ids _ _ _ _ _ _ _ _ Hinv)|done..].
  - intros c (k & Hk)%list_elem_of_lookup_1.
    destruct (Hnew k c Hk) as [(_ & c0 & Hc0 & _ & -> & _)|[[-> ->]|[-> ->]]].
    + apply (hi_members _ _ _ _ _ _ _ _ Hinv).
      by eapply list_elem_of_lookup_2.
    + rewrite HLch. split_and!; [done..|].
      apply Forall_forall. auto.
    + rewrite HRch. split_and!; [done..|].
      apply Forall_forall. auto.
  - intros c (k & Hk)%list_elem_of_lookup_1.
    destruct (Hnew k c Hk) as [(_ & c0 & Hc0 & _ & _ & -> & _)|[[-> ->]|[-> ->]]].
    + apply (hi_finite _ _ _ _ _ _ _ _ Hinv).
      by eapply list_elem_of_lookup_2.
    + by rewrite HLdist.
    + by rewrite HRdist.
  - intros c e' (k & Hk)%list_elem_of_lookup_1 He'.
    destruct (Hnew k c Hk) as [(_ & c0 & Hc0 & _ & _ & -> & _)|[[-> ->]|[-> ->]]].
    + apply (hi_weights _ _ _ _ _ _ _ _ Hinv); [|by apply Hrest].
      by eapply list_elem_of_lookup_2.
    + rewrite HLdist. by eapply sorted_desc_drop.
    + rewrite HRdist. by eapply sorted_desc_drop.
  - intros j p Hj.
    apply lookup_app_Some in Hj as [Hj|[Hjlen Hj]].
    + (* an earlier split *)
      destruct (hi_splits _ _ _ _ _ _ _ _ Hinv j p Hj)
        as (Hlt & P0 & L0 & R0 & HP0 & HL0 & HR0 & Hperm0 & Hd0 & Hle0
            & Hl0 & Hr0 & Hin0).
      assert (p ≠ pi).
      { intros ->. apply Hnotsplit. by eapply list_elem_of_lookup_2. }
      destruct (Hold _ _ HP0) as (P1 & HP1 & _ & _ & _ & HPeq).
      rewrite (HPeq ltac:(done)) in HP1.
      destruct (Hold _ _ HL0) as (L1 & HL1 & HL1id & HL1ch & HL1d & _).
      destruct (Hold _ _ HR0) as (R1 & HR1 & HR1id & HR1ch & HR1d & _).
      split; [done|]. exists P0, L1, R1.
      rewrite HL1ch, HR1ch, HL1d, HR1d.
      assert (link_of mcs L1 = link_of mcs L0) as ->
        by (unfold link_of; by rewrite HL1ch, HL1id).
      assert (link_of mcs R1 = link_of mcs R0) as ->
        by (unfold link_of; by rewrite HR1ch, HR1id).
      split_and!; try done. intros e' He'. apply Hin0. by apply Hrest.
    + (* the new split *)
      assert (j = length splits) as ->.
      { apply lookup_lt_Some in Hj. simpl in Hj. lia. }
      rewrite Nat.sub_diag in Hj. simpl in Hj. injection Hj as <-.
      destruct (Hupd P) as (HPid & HPch & HPd & HPl & HPr).
      split; [lia|]. exists (upd P), L, R.
      replace (2 * length splits + 1) with (length hierarchy) by lia.
      replace (2 * length splits + 2) with (S (length hierarchy)) by lia.
      rewrite HPch, HPd, HPl, HPr, HLch, HRch, HLdist, HRdist, Hbl, Hbr.
      split_and!; try done.
      * by apply lookup_split_old_eq.
      * apply (hi_weights _ _ _ _ _ _ _ _ Hinv);
          [by eapply list_elem_of_lookup_2|rewrite Hdrop; left].
      * by destruct bl.
      * by destruct br.
      * intros e' He' [Hse Hde].
        assert (Hc : connected (internal_edges (children P) (drop (S i) sorted))
                       (source e') (destination e')).
        { apply connected_edge. by apply list_elem_of_filter. }
        assert (source e' ∈ c1 ++ c2) as [?|?]%elem_of_app
          by (by rewrite Hc12).
        -- left. split; [done|].
           eapply (Hccomplete c1); [left|done..].
        -- right. split; [done|].
           eapply (Hccomplete c2); [set_solver|done..].
  - intros p c Hp Hnot.
    assert (p ≠ pi ∧ p ∉ splits) as [Hppi Hps] by set_solver.
    destruct (Hnew p c Hp) as [(_ & c0 & Hc0 & _ & _ & _ & Heq)|[[-> ->]|[-> ->]]];
      [|done..].
    rewrite (Heq Hppi). by apply (hi_unsplit _ _ _ _ _ _ _ _ Hinv p).
  - apply NoDup_app. split_and!; [apply Hinv| |apply NoDup_singleton].
    intros x Hx ->%list_elem_of_singleton. done.
Qed.


Lemma hierarchy_fold (k : nat) :
  ∀ (i : nat) (splits : list nat) (this : HDBSCAN) (hierarchy : list Cluster),
  i + k = length sorted →
  hier_inv n id0 mcs mst (drop i sorted) splits this hierarchy →
  ∃ splits' this' hierarchy',
    foldM (hierarchy_step sorted) (this, hierarchy) (seq i k)
    = Ok (this', hierarchy')
    ∧ hier_inv n id0 mcs mst [] splits' this' hierarchy'.
Proof.
  induction k as [|k IH]; intros i splits this hierarchy Hik Hinv.
  - exists splits, this, hierarchy. split; [done|].
    by rewrite drop_ge in Hinv by lia.
  - destruct (lookup_lt_is_Some_2 sorted i ltac:(lia)) as [e He].
    destruct (hierarchy_step_inv i e splits this hierarchy He Hinv)
      as (splits1 & this1 & hierarchy1 & Hstep & Hinv1).
    destruct (IH (S i) splits1 this1 hierarchy1 ltac:(lia) Hinv1)
      as (splits2 & this2 & hierarchy2 & Hfold & Hinv2).
    exists splits2, this2, hierarchy2. split; [|done].
    cbn [seq foldM]. rewrite Hstep. by rewrite bind_Ok.
Qed.


End hierarchy_step.

Lemma sorted_desc_head (es : list Edge) (first e : Edge) :
  sorted_desc es → finite_weights es → es !! 0 = Some first → e ∈ es →
  Num.leb (weight e) (weight first) = true.
Proof.
  intros Hs Hf Hfirst He. destruct es as [|x es]; [done|].
  simpl in Hfirst. injection Hfirst as ->.
  apply Forall_cons in Hf as [Hx _].
  apply elem_of_cons in He as [->|He].
  - destruct (weight first); try done. apply leb_refl_Fin.
  - inversion Hs as [|? ? _ Hall]; subst.
    rewrite Forall_forall in Hall. by apply Hall.
Qed.

(** the hierarchy builder returns, and what it returns has the shape
    [hier_inv] describes *)
Lemma buildClusterHierarchy_spec (this : HDBSCAN) (mst : list Edge) (n : nat) :
  mst_ok n mst → 2 ≤ n → sortedEdges this = mst →
  ∃ splits this' hierarchy,
    buildClusterHierarchy this mst = Ok (this', hierarchy)
    ∧ hier_inv n (nextClusterId this) (minClusterSize this) mst []
        splits this' hierarchy.
Proof.
  intros Hmst Hn Hfield. unfold buildClusterHierarchy.
  set (sorted := js_sort by_weight_desc mst).
  assert (Hperm : sorted ≡ₚ mst) by apply js_sort_perm.
  assert (Hsorted : sorted_desc sorted) by (apply js_sort_sorted, Hmst).
  assert (Hfin : finite_weights sorted).
  { unfold finite_weights. rewrite Hperm. apply Hmst. }
  assert (Hlen : length sorted = length mst) by (by rewrite Hperm).
  pose proof (mst_length _ _ Hmst) as Hnlen.
  destruct (lookup_lt_is_Some_2 sorted 0 ltac:(lia)) as [first Hfirst].
  rewrite Hfirst. cbn [defined]. rewrite bind_Ok.
  destruct (createCluster_spec this (seq 0 (length mst + 1)) (weight first)
              sorted (weight first))
    as (root & -> & Hid & Hch & Hdist & _ & _ & _ & Hl & Hr).
  apply (hierarchy_fold n (nextClusterId this) (minClusterSize this) mst sorted
           Hmst Hperm Hsorted (length sorted) 0 []); [done|].
  rewrite drop_0. rewrite <- Hnlen in Hch.
  assert (Hwf : Num.finite (weight first)).
  { unfold finite_weights in Hfin. rewrite Forall_forall in Hfin.
    apply Hfin. by eapply list_elem_of_lookup_2. }
  split; simpl; try done.
  - lia.
  - eexists. split; [done|]. done.
  - intros [|k] c Hk; simplify_eq/=. lia.
  - intros c ->%list_elem_of_singleton. simpl. rewrite Hch.
    split_and!.
    + destruct n; [lia|done].
    + apply NoDup_seq.
    + apply Forall_forall. intros x Hx%elem_of_seq. lia.
  - intros c ->%list_elem_of_singleton. simpl. by rewrite Hdist.
  - intros c e ->%list_elem_of_singleton He. simpl. rewrite Hdist.
    by eapply sorted_desc_head.
  - intros [|k] P Hk; simplify_eq/=. done.
  - constructor.
Qed.

(** ** The extraction returns *)

Lemma ids_alter_stability (s : num) (j : nat) (hier : list Cluster) :
  id <$> alter (set_stability s) j hier = id <$> hier.
Proof.
  rewrite (list_fmap_alter id (set_stability s) (fun x => x));
    [by apply list_alter_id|by apply Forall_forall].
Qed.

Lemma childrenStabilities_fold_ids (childs : list nat) :
  ∀ (hier : list Cluster) (acc : list num),
  id <$> (foldl (fun '(hier, acc) j =>
                   match hier !! j with
                   | Some c =>
                       let stability :=
                         calculateClusterStability c (getClusterPoints c) in
                       (alter (set_stability stability) j hier,
                        acc ++ [stability])
                   | None => (hier, acc)
                   end)
                (hier, acc) childs).1
  = id <$> hier.
Proof.
  induction childs as [|j childs IH]; intros hier acc; [done|].
  cbn [foldl]. destruct (hier !! j) as [c|]; [|apply IH].
  cbv zeta. rewrite IH. apply ids_alter_stability.
Qed.

Lemma childrenStabilities_ids (hier : list Cluster) (childs : list nat) :
  id <$> (childrenStabilities hier childs).1 = id <$> hier.
Proof. apply childrenStabilities_fold_ids. Qed.

Lemma undiscarded_mono (hier : list Cluster) (D D' : gset nat) :
  D ⊆ D' → undiscarded hier D' ≤ undiscarded hier D.
Proof.
  intros Hsub. unfold undiscarded.
  induction (id <$> hier) as [|x l IH]; [done|].
  destruct (decide (x ∈ D')) as [Hx|Hx].
  - rewrite (filter_cons_False (fun i => i ∉ D')) by (by intros ?).
    destruct (decide (x ∈ D)).
    + rewrite filter_cons_False by (by intros ?). done.
    + rewrite filter_cons_True by done. simpl. lia.
  - rewrite !filter_cons_True by set_solver. simpl. lia.
Qed.

Lemma undiscarded_add (hier : list Cluster) (D : gset nat) (c : Cluster) :
  c ∈ hier → id c ∉ D →
  undiscarded hier ({[id c]} ∪ D) < undiscarded hier D.
Proof.
  intros Hc Hn. unfold undiscarded.
  assert (Hin : id c ∈ id <$> hier) by (apply list_elem_of_fmap; by exists c).
  induction (id <$> hier) as [|x l IH]; [by apply not_elem_of_nil in Hin|].
  destruct (decide (x = id c)) as [->|Hne].
  - rewrite filter_cons_False by set_solver.
    rewrite filter_cons_True by done. simpl.
    pose proof (undiscarded_mono [] D ({[id c]} ∪ D)) as _.
    assert (length (filter (fun i => i ∉ {[id c]} ∪ D) l)
            ≤ length (filter (fun i => i ∉ D) l)); [|lia].
    clear. induction l as [|y l IH]; [done|].
    destruct (decide (y ∈ D)).
    + rewrite !filter_cons_False by set_solver. done.
    + rewrite (filter_cons_True (fun i => i ∉ D)) by done.
      destruct (decide (y = id c)).
      * rewrite filter_cons_False by set_solver. simpl. lia.
      * rewrite filter_cons_True by set_solver. simpl. lia.
  - apply elem_of_cons in Hin as [?|Hin]; [done|].
    specialize (IH Hin).
    destruct (decide (x ∈ D)).
    + by rewrite !filter_cons_False by set_solver.
    + rewrite !filter_cons_True by set_solver. simpl. lia.
Qed.

Lemma undiscarded_ids (hier hier' : list Cluster) (D : gset nat) :
  id <$> hier' = id <$> hier → undiscarded hier' D = undiscarded hier D.
Proof. unfold undiscarded. by intros ->. Qed.

Lemma filter_indices_lt {A} (P : A → bool) (l : list A) (j : nat) :
  j ∈ filter_indices P l → j < length l.
Proof.
  unfold filter_indices. intros [_ Hj%elem_of_seq]%list_elem_of_filter. lia.
Qed.

Lemma processCluster_returns (this : HDBSCAN) (fuel : nat) :
  ∀ (st : ExtractState) (ci : nat),
  ci < length (condensed st) →
  undiscarded (condensed st) (discarded st) < fuel →
  ∃ st', processCluster fuel this st ci = Ok st'
         ∧ id <$> condensed st' = id <$> condensed st
         ∧ discarded st ⊆ discarded st'.
Proof.
  induction fuel as [|fuel IH]; intros st ci Hci Hfuel; [lia|].
  cbn [processCluster].
  destruct (lookup_lt_is_Some_2 _ _ Hci) as [cluster Hcl].
  rewrite Hcl. cbn [defined]. rewrite bind_Ok.
  case_bool_decide as Hdisc; [by exists st|].
  pose proof (childrenStabilities_ids (condensed st)
                (childClusters (condensed st) cluster)) as Hids1.
  destruct (childrenStabilities _ _) as [hier1 stabs]. simpl in Hids1.
  set (hier2 := alter (set_stability _) ci hier1).
  assert (Hids2 : id <$> hier2 = id <$> condensed st)
    by (subst hier2; by rewrite ids_alter_stability).
  set (skip := bool_decide (id cluster = 0) && shouldSkipRootCluster this).
  assert (Hids3 : ∀ s, id <$> (if skip
                               then (Num.zero, alter (set_stability Num.zero) ci hier2)
                               else (s, hier2)).2
                       = id <$> condensed st).
  { intros s. destruct skip; simpl; [|done]. by rewrite ids_alter_stability. }
  specialize (Hids3 (calculateClusterStability cluster (getClusterPoints cluster))).
  destruct (if skip then _ else _) as [stability hier3]. simpl in Hids3.
  destruct (_ || _).
  - eexists. split; [done|]. split; [done|]. simpl. set_solver.
  - set (D' := {[id cluster]} ∪ discarded st).
    set (todo := filter _ (childClusters (condensed st) cluster)).
    assert (Htodo : ∀ j, j ∈ todo → j < length hier3).
    { intros j [_ Hj]%list_elem_of_filter.
      apply filter_indices_lt in Hj.
      by rewrite <- (length_fmap id hier3), Hids3, length_fmap. }
    assert (Hlt : undiscarded hier3 D' < fuel).
    { rewrite (undiscarded_ids _ _ _ Hids3).
      pose proof (undiscarded_add (condensed st) (discarded st) cluster
                    (list_elem_of_lookup_2 _ _ _ Hcl) Hdisc). subst D'. lia. }
    assert (Hfold : ∀ (todo : list nat) (st1 : ExtractState),
              (∀ j, j ∈ todo → j < length (condensed st1)) →
              undiscarded (condensed st1) (discarded st1) < fuel →
              ∃ st', foldM (processCluster fuel this) st1 todo = Ok st'
                     ∧ id <$> condensed st' = id <$> condensed st1
                     ∧ discarded st1 ⊆ discarded st').
    { clear -IH. induction todo as [|j todo IHt]; intros st1 Hj Hm.
      - by exists st1.
      - destruct (IH st1 j) as (st2 & Hrun & Hids & Hsub);
          [apply Hj; left|done|].
        destruct (IHt st2) as (st3 & Hrun3 & Hids3 & Hsub3).
        + intros k Hk.
          rewrite <- (length_fmap id (condensed st2)), Hids, length_fmap.
          apply Hj. by right.
        + rewrite (undiscarded_ids _ _ _ Hids).
          pose proof (undiscarded_mono (condensed st1) _ _ Hsub). lia.
        + exists st3. cbn [foldM]. rewrite Hrun, bind_Ok.
          split; [done|]. split; [congruence|set_solver]. }
    destruct (Hfold todo (mkExtract hier3 (selected st) D'))
      as (st' & Hrun & Hids & Hsub); [done..|].
    exists st'. split; [done|]. simpl in *. split; [congruence|set_solver].
Qed.

Lemma extractClusters_returns (this : HDBSCAN) (condensedHierarchy : list Cluster)
    (data : list (list num)) :
  ∃ this', extractClusters this condensedHierarchy data = Ok this'.
Proof.
  unfold extractClusters. case_bool_decide as Hlen.
  - destruct (processCluster_returns this (S (length condensedHierarchy))
                (mkExtract condensedHierarchy [] ∅) 0)
      as (st & -> & _); [done| |by eexists].
    unfold undiscarded. cbn [condensed discarded].
    eapply Nat.le_lt_trans; [apply length_filter|].
    rewrite length_fmap. lia.
  - by eexists.
Qed.

(** ** What the extraction leaves unchanged *)

Lemma frame_alter_stability (s : num) (j : nat) (hier : list Cluster) :
  frame (alter (set_stability s) j hier) = frame hier.
Proof.
  unfold frame.
  rewrite (list_fmap_alter (set_stability Num.zero) (set_stability s)
             (fun x => x));
    [by apply list_alter_id|by apply Forall_forall].
Qed.



Lemma frame_length (hier hier' : list Cluster) :
  frame hier' = frame hier → length hier' = length hier.
Proof.
  intros Hf. apply (f_equal length) in Hf. unfold frame in Hf.
  by rewrite !length_fmap in Hf.
Qed.

Lemma childrenStabilities_fold_frame (childs : list nat) :
  ∀ (hier : list Cluster) (acc : list num),
  frame (foldl (fun '(hier, acc) j =>
                  match hier !! j with
                  | Some c =>
                      let stability :=
                        calculateClusterStability c (getClusterPoints c) in
                      (alter (set_stability stability) j hier,
                       acc ++ [stability])
                  | None => (hier, acc)
                  end)
               (hier, acc) childs).1
  = frame hier.
Proof.
  induction childs as [|j childs IH]; intros hier acc; [done|].
  cbn [foldl]. destruct (hier !! j) as [c|]; [|apply IH].
  cbv zeta. rewrite IH. apply frame_alter_stability.
Qed.

Lemma childrenStabilities_frame (hier : list Cluster) (childs : list nat) :
  frame (childrenStabilities hier childs).1 = frame hier.
Proof. apply childrenStabilities_fold_frame. Qed.












(** ** Prim's loop on distances that may be [Infinity] *)

Lemma nonneg_lt_finite (x y : num) :
  Num.nonneg x → Num.ltb x y = true → Num.finite x.
Proof. by destruct x, y. Qed.

Lemma mget_nonneg (m : list (list num)) (i j : nat) :
  square_nonneg m → i < length m → j < length m → Num.nonneg (mget m i j).
Proof.
  intros Hm Hi Hj. unfold mget, get.
  destruct (lookup_lt_is_Some_2 m i Hi) as [row Hrow]. rewrite Hrow. simpl.
  unfold square_nonneg in Hm. rewrite Forall_forall in Hm.
  destruct (Hm row) as [Hlen Hfin]; [by eapply list_elem_of_lookup_2|].
  destruct (lookup_lt_is_Some_2 row j) as [x Hx]; [lia|]. rewrite Hx. simpl.
  rewrite Forall_forall in Hfin.
  apply Hfin. by eapply list_elem_of_lookup_2.
Qed.

Lemma prim_init_reach (m : list (list num)) :
  1 ≤ length m → square_nonneg m →
  prim_reach m (length m) (prim_init m)
  ∧ visited (prim_init m) = {[0]} ∧ edges (prim_init m) = [].
Proof.
  intros Hn Hm.
  pose proof (prim_init_fold m (length m - 1) ltac:(lia)) as H.
  cbv zeta in H. fold (prim_init m) in H.
  destruct H as (Hv & He & Hl1 & Hl2 & Hi).
  split; [|done]. split; try done.
  - rewrite Hv. set_solver.
  - intros v. rewrite Hv, elem_of_singleton. lia.
  - intros i Hlt Hnot. rewrite Hv in *.
    assert (i ≠ 0) by set_solver.
    destruct (Hi i) as [H1 _]; [lia|].
    unfold get. rewrite H1. simpl. apply mget_nonneg; [done|lia|done].
  - intros i Hlt Hnot. rewrite Hv in *.
    assert (i ≠ 0) by set_solver.
    destruct (Hi i) as [H1 H2]; [lia|].
    exists 0. split_and!; [set_solver|done|].
    unfold get. by rewrite H1.
Qed.

Lemma prim_scan_reach_fold (m : list (list num)) (n : nat) (st : PrimState)
    (k : nat) :
  prim_reach m n st → k ≤ n →
  scan_reach st k
    (foldl (fun '(minDist, nextVertex) i =>
              if bool_decide (i ∉ visited st)
                 && Num.ltb (get (minEdges st) i) minDist
              then (get (minEdges st) i, Some i)
              else (minDist, nextVertex))
           (PInf, None) (seq 0 k)).
Proof.
  intros Hinv. induction k as [|k IH]; intros Hk; [done|].
  rewrite seq_S, foldl_app. simpl.
  specialize (IH ltac:(lia)).
  destruct (foldl _ _ (seq 0 k)) as [md nv]. unfold scan_reach in *.
  destruct (bool_decide (k ∉ visited st)
            && Num.ltb (get (minEdges st) k) md) eqn:E.
  - apply andb_true_iff in E as [Hvis%bool_decide_eq_true Hlt].
    cbn [fst snd]. split_and!; [lia|done|done|].
    eapply nonneg_lt_finite; [|exact Hlt].
    apply (prim_reach_entries _ _ _ Hinv); [lia|done].
  - cbn [fst snd] in *. destruct nv as [v|]; [|done].
    destruct IH as (Hv & Hnv & Hmd & Hfin). split_and!; try done. lia.
Qed.

Lemma prim_scan_reach (m : list (list num)) (n : nat) (st : PrimState) :
  prim_reach m n st → scan_reach st n (prim_scan n st).
Proof. intros Hinv. by apply (prim_scan_reach_fold m n st n). Qed.

(** one pass through the loop body: it changes nothing, or it visits a
    vertex over an edge of finite weight *)
Lemma prim_body_reach (m : list (list num)) (n : nat) (st : PrimState) :
  n = length m → square_nonneg m → prim_reach m n st →
  prim_body m n st = st
  ∨ ∃ u v w,
      visited (prim_body m n st) = {[v]} ∪ visited st
      ∧ edges (prim_body m n st) = edges st ++ [(u, v, w)]
      ∧ prim_reach m n (prim_body m n st)
      ∧ u ∈ visited st ∧ (v ∉ visited st) ∧ v < n ∧ Num.finite w
      ∧ w = mget m u v.
Proof.
  intros Hn Hm Hinv.
  pose proof (prim_scan_reach m n st Hinv) as Hscan.
  unfold prim_body. destruct (prim_scan n st) as [md [v|]];
    unfold scan_reach in Hscan; cbn [fst snd] in Hscan; [right|by left].
  destruct Hscan as (Hv & Hnv & Hmd & Hfin).
  destruct (prim_reach_source _ _ _ Hinv v Hv Hnv) as (u & Hu & Hcu & Hgu).
  rewrite Hcu. simpl. rewrite Nat2Z.id.
  set (st1 := mkPrim _ _ _ _).
  pose proof (prim_relax_fold m v st1 n) as Hrel.
  fold (prim_relax m n v st1) in Hrel.
  destruct Hrel as (Hrv & Hre & Hrl1 & Hrl2 & Hri).
  { subst st1; simpl.
    by rewrite (prim_reach_minEdges _ _ _ Hinv),
         (prim_reach_connections _ _ _ Hinv). }
  subst st1; simpl in *.
  exists u, v, md. split_and!; try done; [|congruence].
  split.
  - rewrite Hrv. apply elem_of_union_r, (prim_reach_start _ _ _ Hinv).
  - intros x. rewrite Hrv.
    intros [->%elem_of_singleton|Hx]%elem_of_union; [done|].
    by apply (prim_reach_bound _ _ _ Hinv).
  - by rewrite Hrl1, (prim_reach_minEdges _ _ _ Hinv).
  - by rewrite Hrl2, (prim_reach_connections _ _ _ Hinv).
  - intros i Hi. rewrite Hrv. intros Hni.
    assert (i ≠ v ∧ i ∉ visited st) as [Hiv Hnis] by set_solver.
    specialize (Hri i).
    destruct (_ && _).
    + destruct Hri as [Hr1 _]; [by rewrite (prim_reach_minEdges _ _ _ Hinv)|].
      unfold get. rewrite Hr1. simpl.
      apply mget_nonneg; [done|by rewrite <- Hn..].
    + destruct Hri as [Hr1 _]. unfold get. rewrite Hr1.
      by apply (prim_reach_entries _ _ _ Hinv).
  - intros i Hi. rewrite Hrv. intros Hni.
    assert (i ≠ v ∧ i ∉ visited st) as [Hiv Hnis] by set_solver.
    specialize (Hri i).
    destruct (_ && _).
    + destruct Hri as [Hr1 Hr2]; [by rewrite (prim_reach_minEdges _ _ _ Hinv)|].
      exists v. split_and!; [set_solver|done|].
      unfold get. by rewrite Hr1.
    + destruct Hri as [Hr1 Hr2]. rewrite Hr2.
      destruct (prim_reach_source _ _ _ Hinv i Hi Hnis)
        as (ui & Hui & Hci & Hgi).
      exists ui. split_and!; [set_solver|done|].
      unfold get in Hgi |- *. by rewrite Hr1.
Qed.

(** a state with vertices left that a pass leaves unchanged is never
    left: the loop exhausts any fuel *)
Lemma prim_while_stuck (m : list (list num)) (n fuel : nat) (st : PrimState) :
  base.size (visited st) < n → prim_body m n st = st →
  prim_while fuel m n st = Err Diverge.
Proof.
  intros Hlt Hstuck. induction fuel as [|fuel IH]; [done|].
  cbn [prim_while]. rewrite bool_decide_eq_true_2 by done.
  by rewrite Hstuck.
Qed.

(** the loop from the state after [k] passes: it returns a tree of edges
    of finite weight, or it has reached a state it never leaves *)
Lemma prim_while_reach (m : list (list num)) (fuel : nat) :
  square_nonneg m →
  ∀ k st,
    st = Nat.iter k (prim_body m (length m)) (prim_init m) →
    prim_reach m (length m) st →
    length m - base.size (visited st) < fuel →
    (prim_while fuel m (length m) st = Err Diverge ∧ prim_spins m)
    ∨ ∃ es, prim_while fuel m (length m) st = Ok (edges st ++ es)
            ∧ length es = length m - base.size (visited st)
            ∧ tree_order (length m) (visited st) es
            ∧ finite_weights es
            ∧ weights_of m es.
Proof.
  intros Hm.
  induction fuel as [|fuel IH]; intros k st Hst Hinv Hfuel; [lia|].
  cbn [prim_while].
  destruct (decide (base.size (visited st) < length m)) as [Hlt|Hge].
  2: { rewrite bool_decide_eq_false_2 by done. right.
       exists []. rewrite app_nil_r.
       split_and!; [done|simpl; lia|constructor|constructor|constructor]. }
  rewrite bool_decide_eq_true_2 by done.
  destruct (prim_body_reach m (length m) st eq_refl Hm Hinv) as
    [Hstuck|(u & v & w & Hv & He & Hinv' & Hu & Hnv & Hvn & Hw & Hwm)].
  - left. assert (Hspin : prim_spins m) by (exists k; by rewrite <- Hst).
    split; [|done]. rewrite Hstuck. by apply prim_while_stuck.
  - assert (Hsize : base.size (visited (prim_body m (length m) st))
                    = S (base.size (visited st))).
    { rewrite Hv, size_union by set_solver. by rewrite size_singleton. }
    destruct (IH (S k) (prim_body m (length m) st)) as
      [[Hrun Hspin]|(es & Hrun & Hlen & Hord & Hfin & Hwes)];
      [by rewrite Hst|done|lia|by left|].
    right. exists ((u, v, w) :: es). split_and!.
    + rewrite Hrun, He, <- app_assoc. done.
    + simpl. rewrite Hlen, Hsize. lia.
    + apply tree_order_cons; try done. by rewrite <- Hv.
    + by constructor.
    + by constructor.
Qed.

(** [buildMinimumSpanningTree] on a matrix of distances that may be
    [Infinity]: the loop never exits, or the result is a spanning tree
    of edges of finite weight *)
Lemma buildMinimumSpanningTree_reach (m : list (list num)) :
  2 ≤ length m → square_nonneg m →
  (buildMinimumSpanningTree m = Err Diverge ∧ prim_spins m)
  ∨ ∃ es, buildMinimumSpanningTree m = Ok es ∧ mst_ok (length m) es
          ∧ weights_of m es.
Proof.
  intros Hn Hm. unfold buildMinimumSpanningTree.
  destruct (prim_init_reach m ltac:(lia) Hm) as (Hinv & Hv & He).
  destruct (prim_while_reach m (S (length m)) Hm 0 (prim_init m) eq_refl Hinv)
    as [?|(es & Hrun & Hlen & Hord & Hfin & Hwes)]; [|by left|right].
  { rewrite Hv, size_singleton. lia. }
  exists es. rewrite Hrun, He, Hv in *. rewrite size_singleton in Hlen.
  split; [done|]. split; [|done]. split; [lia|done..].
Qed.


Lemma prim_relax_visited (m : list (list num)) (n v : nat) (st : PrimState) :
  visited (prim_relax m n v st) = visited st.
Proof.
  unfold prim_relax. generalize (seq 0 n). intros l. revert st.
  induction l as [|i l IH]; intros st; [done|].
  cbn [foldl]. destruct (_ && _); by rewrite IH.
Qed.

Lemma prim_body_visited (m : list (list num)) (n : nat) (st : PrimState) :
  visited st ⊆ visited (prim_body m n st).
Proof.
  unfold prim_body. destruct (prim_scan n st) as [md [v|]]; [|done].
  rewrite prim_relax_visited. cbn [visited]. set_solver.
Qed.

(** from a state the loop never leaves, and from every state before it,
    the loop exhausts any fuel *)
Lemma prim_spins_diverges (m : list (list num)) (fuel : nat) :
  prim_spins m →
  prim_while fuel m (length m) (prim_init m) = Err Diverge.
Proof.
  intros (k & Hsize & Hbody). cbv zeta in Hsize, Hbody.
  assert (H : ∀ i j fuel, i + j = k →
            prim_while fuel m (length m)
              (Nat.iter j (prim_body m (length m)) (prim_init m))
            = Err Diverge).
  { clear fuel. induction i as [|i IH]; intros j fuel Hij.
    - assert (j = k) as -> by lia. by apply prim_while_stuck.
    - destruct fuel as [|fuel]; [done|]. cbn [prim_while].
      assert (Hlt : base.size
                      (visited (Nat.iter j (prim_body m (length m))
                                         (prim_init m)))
                    < length m).
      { eapply Nat.le_lt_trans; [|exact Hsize]. apply subseteq_size.
        replace k with (S i + j) by lia. clear.
        induction (S i) as [|i' IH']; [done|].
        cbn [Nat.iter Nat.add]. etrans; [exact IH'|].
        apply prim_body_visited. }
      rewrite bool_decide_eq_true_2 by done.
      apply (IH (S j) fuel). lia. }
  apply (H k 0 fuel). lia.
Qed.

(** ** The mutual reachability matrix of a dataset *)

Lemma overflow_nonneg (q : Q) : (0 <= q)%Q → Num.nonneg (Num.overflow q).
Proof.
  intros Hq. pose proof huge_pos.
  destruct (overflow_cases q) as [[_ ->]|[[H1 _]|(_ & _ & ->)]];
    [done|lra|done].
Qed.

Lemma overflow_number (q : Q) : Num.overflow q ≠ NaN.
Proof.
  by destruct (overflow_cases q) as [[_ ->]|[[_ ->]|(_ & _ & ->)]].
Qed.

Lemma add_nonneg (x y : num) :
  Num.nonneg x → Num.nonneg y → Num.nonneg (Num.add x y).
Proof.
  destruct x as [a| | |], y as [b| | |]; try done. intros Ha Hb.
  apply overflow_nonneg. simpl in *. lra.
Qed.

Lemma sub_number (x y : num) :
  Num.finite x → Num.finite y → Num.sub x y ≠ NaN.
Proof.
  destruct x as [a| | |], y as [b| | |]; try done. intros _ _.
  apply overflow_number.
Qed.

(** a square is not negative; it is [Infinity] when it overflows *)
Lemma sq_nonneg (x : num) : x ≠ NaN → Num.nonneg (Num.sq x).
Proof.
  destruct x as [a| | |]; try done. intros _.
  apply overflow_nonneg. nra.
Qed.

Lemma max_nonneg (x y : num) :
  Num.nonneg x → Num.nonneg y → Num.nonneg (Num.max x y).
Proof.
  destruct x as [a| | |], y as [b| | |]; try done; intros Ha Hb;
    unfold Num.max; by destruct (Num.ltb _ _).
Qed.

Lemma get_finite (l : list num) (i : nat) :
  Forall Num.finite l → i < length l → Num.finite (get l i).
Proof.
  intros Hl Hi. unfold get.
  destruct (lookup_lt_is_Some_2 l i Hi) as [x Hx]. rewrite Hx. simpl.
  rewrite Forall_forall in Hl. apply Hl. by eapply list_elem_of_lookup_2.
Qed.

Lemma get_nonneg (l : list num) (i : nat) :
  Forall Num.nonneg l → i < length l → Num.nonneg (get l i).
Proof.
  intros Hl Hi. unfold get.
  destruct (lookup_lt_is_Some_2 l i Hi) as [x Hx]. rewrite Hx. simpl.
  rewrite Forall_forall in Hl. apply Hl. by eapply list_elem_of_lookup_2.
Qed.

(** the squared distance of two points of the same dimension is a
    rational [>= 0], or [Infinity] when a square or the sum overflows *)
Lemma euclideanDistance_nonneg (a b : list num) :
  Forall Num.finite a → Forall Num.finite b → length a = length b →
  Num.nonneg (euclideanDistance a b).
Proof.
  intros Ha Hb Hlen. unfold euclideanDistance.
  assert (H : ∀ index acc, Num.nonneg acc → index + length a ≤ length b →
            Num.nonneg
              (reduce_from
                 (fun acc curr index =>
                    Num.add acc (Num.sq (Num.sub curr (get b index))))
                 index a acc)).
  { clear Hlen. induction Ha as [|x a Hx Ha IH]; intros index acc Hacc Hle;
      [done|].
    cbn [reduce_from]. apply IH; [|simpl in Hle; lia].
    apply add_nonneg; [done|]. apply sq_nonneg, sub_number; [done|].
    apply get_finite; [done|]. simpl in Hle. lia. }
  apply H; [by simpl|lia].
Qed.

Lemma dataset_row (d : nat) (data : list (list num)) (i : nat) :
  dataset d data → i < length data →
  length (default [] (data !! i)) = d
  ∧ Forall Num.finite (default [] (data !! i)).
Proof.
  intros Hdata Hi. destruct (lookup_lt_is_Some_2 data i Hi) as [row Hrow].
  rewrite Hrow. simpl. unfold dataset in Hdata. rewrite Forall_forall in Hdata.
  apply Hdata. by eapply list_elem_of_lookup_2.
Qed.

Lemma direct_distance_nonneg (d : nat) (data : list (list num)) (i j : nat) :
  dataset d data → i < length data → j < length data →
  Num.nonneg (euclideanDistance (default [] (data !! i))
                                (default [] (data !! j))).
Proof.
  intros Hdata Hi Hj.
  destruct (dataset_row d data i Hdata Hi) as [Hli Hfi].
  destruct (dataset_row d data j Hdata Hj) as [Hlj Hfj].
  apply euclideanDistance_nonneg; [done..|congruence].
Qed.

Lemma coreDistance_result (d : nat) (data : list (list num)) (ms : num) (i : nat) :
  dataset d data → i < length data →
  (∃ x, coreDistance ms data i = Ok x ∧ Num.nonneg x)
  ∨ coreDistance ms data i = Err TypeError.
Proof.
  intros Hdata Hi. unfold coreDistance.
  set (pds := js_sort by_distance (pointDistances data i)).
  destruct (Num.to_index _ ≫= _) as [pd|] eqn:E; [left|by right].
  cbn [defined]. rewrite bind_Ok.
  apply bind_Some in E as (k & _ & Hk).
  assert (pd ∈ pointDistances data i) as Hin.
  { rewrite <- (js_sort_perm by_distance). by eapply list_elem_of_lookup_2. }
  unfold pointDistances in Hin.
  apply list_elem_of_fmap in Hin as (j & -> & [_ Hj%elem_of_seq]%list_elem_of_filter).
  simpl. eexists. split; [done|].
  apply (direct_distance_nonneg d data i j Hdata Hi). lia.
Qed.

Lemma mapM_cons {A B} (f : A → result B) (x : A) (l : list A) :
  mapM f (x :: l) = y ← f x; k ← mapM f l; mret (y :: k).
Proof. reflexivity. Qed.

Lemma coreDistances_result (d : nat) (data : list (list num)) (ms : num)
    (l : list nat) :
  dataset d data → Forall (fun i => i < length data) l →
  (∃ cs, mapM (coreDistance ms data) l = Ok cs
         ∧ length cs = length l ∧ Forall Num.nonneg cs)
  ∨ mapM (coreDistance ms data) l = Err TypeError.
Proof.
  intros Hdata. induction 1 as [|i l Hi Hl IH].
  - left. by exists [].
  - rewrite mapM_cons.
    destruct (coreDistance_result d data ms i Hdata Hi) as [(x & -> & Hx)| ->];
      [|by right].
    rewrite bind_Ok. destruct IH as [(cs & -> & Hlen & Hfin)| ->].
    + left. exists (x :: cs). rewrite bind_Ok.
      split_and!; [done|simpl; lia|by constructor].
    + by right.
Qed.

(** the matrix of a dataset: its entries are rationals [>= 0] or
    [Infinity], never [NaN]; the only error is the [TypeError] of the read
    of a core distance *)
Lemma computeMutualReachabilityDistance_result (d : nat) (this : HDBSCAN)
    (data : list (list num)) :
  dataset d data →
  (∃ m, computeMutualReachabilityDistance this data
        = Ok (set_mutualReachabilityDistance m this, m)
        ∧ length m = length data ∧ square_nonneg m)
  ∨ computeMutualReachabilityDistance this data = Err TypeError.
Proof.
  intros Hdata. unfold computeMutualReachabilityDistance.
  destruct (coreDistances_result d data (minSamples this) (seq 0 (length data)))
    as [(cs & -> & Hlen & Hfin)| ->]; [done| | |by right].
  { apply Forall_forall. intros i Hi%elem_of_seq. lia. }
  left. rewrite bind_Ok. eexists. split; [done|].
  rewrite length_seq in Hlen.
  rewrite length_fmap, length_seq. split; [done|].
  unfold square_nonneg. rewrite length_fmap, length_seq.
  apply Forall_forall. intros row (i & -> & Hi%elem_of_seq)%list_elem_of_fmap.
  rewrite length_fmap, length_seq. split; [done|].
  apply Forall_forall. intros x (j & -> & Hj%elem_of_seq)%list_elem_of_fmap.
  unfold max3. apply max_nonneg; [apply max_nonneg|].
  - apply (direct_distance_nonneg d); [done|lia..].
  - apply get_nonneg; [done|lia].
  - apply get_nonneg; [done|lia].
Qed.

Lemma prim_order_mst_ok (m : list (list num)) (es : list Edge) :
  2 ≤ length m → square_finite m →
  length es = length m - 1 → prim_order m (length m) {[0]} es →
  mst_ok (length m) es.
Proof.
  intros Hn Hm Hlen Hord. split.
  - lia.
  - by apply (prim_order_tree m).
  - apply (prim_order_finite m {[0]}); [done| |done].
    intros x ->%elem_of_singleton. lia.
Qed.

Lemma buildMinimumSpanningTree_mst_ok (m : list (list num)) :
  2 ≤ length m → square_finite m →
  ∃ es, buildMinimumSpanningTree m = Ok es ∧ mst_ok (length m) es.
Proof.
  intros Hn Hm. unfold buildMinimumSpanningTree.
  destruct (prim_init_inv m ltac:(lia) Hm) as (Hinv & Hv & He).
  destruct (prim_while_spec m (S (length m)) (prim_init m) Hm Hinv)
    as (es & Hrun & Hlen & Hord).
  { rewrite Hv, size_singleton. lia. }
  exists es. rewrite Hrun, He, Hv in *. rewrite size_singleton in Hlen.
  split; [done|]. by apply prim_order_mst_ok.
Qed.

(** ** [fit] raises no invariant error *)

(** after a matrix without [Infinity], [fit] returns *)
Lemma fit_returns_finite (d : nat) (this : HDBSCAN) (data : list (list num))
    (this' : HDBSCAN) (m : list (list num)) :
  dataset d data → 2 ≤ length data →
  computeMutualReachabilityDistance this data = Ok (this', m) →
  square_finite m →
  ∃ this'', fit this data = Ok this''.
Proof.
  intros Hdata Hn Hr Hfin. unfold fit.
  destruct (computeMutualReachabilityDistance_result d this data Hdata)
    as [(m' & Heq & Hlen & Hm)|Herr]; [|congruence].
  assert (m' = m) as -> by congruence.
  rewrite Heq, bind_Ok. cbn beta iota.
  destruct (buildMinimumSpanningTree_mst_ok m) as (es & -> & Hmst);
    [lia|done|].
  rewrite bind_Ok.
  destruct (buildClusterHierarchy_spec
              (set_sortedEdges es (set_mutualReachabilityDistance m this))
              es (length m) Hmst ltac:(lia) eq_refl)
    as (splits & this1 & hierarchy & -> & Hinv).
  rewrite bind_Ok. cbn beta iota.
  apply extractClusters_returns.
Qed.

(** after the matrix: the loop of Prim's algorithm never exits, or [fit]
    returns *)
Lemma fit_after_matrix (this : HDBSCAN) (data : list (list num))
    (m : list (list num)) :
  2 ≤ length m → square_nonneg m →
  computeMutualReachabilityDistance this data
  = Ok (set_mutualReachabilityDistance m this, m) →
  (∃ this', fit this data = Ok this')
  ∨ (fit this data = Err Diverge ∧ prim_spins m).
Proof.
  intros Hn Hm Heq. unfold fit. rewrite Heq, bind_Ok. cbn beta iota.
  destruct (buildMinimumSpanningTree_reach m Hn Hm)
    as [[-> Hspin]|(es & -> & Hmst & _)]; [by right|left].
  rewrite bind_Ok.
  destruct (buildClusterHierarchy_spec
              (set_sortedEdges es (set_mutualReachabilityDistance m this))
              es (length m) Hmst ltac:(lia) eq_refl)
    as (splits & this1 & hierarchy & -> & Hinv).
  rewrite bind_Ok. cbn beta iota.
  apply extractClusters_returns.
Qed.

Lemma fit_outcome (d : nat) (this : HDBSCAN) (data : list (list num)) :
  dataset d data → 2 ≤ length data →
  (∃ this', fit this data = Ok this')
  ∨ fit this data = Err TypeError
  ∨ (fit this data = Err Diverge
     ∧ ∃ this' m, computeMutualReachabilityDistance this data = Ok (this', m)
                  ∧ prim_spins m).
Proof.
  intros Hdata Hn.
  destruct (computeMutualReachabilityDistance_result d this data Hdata)
    as [(m & Heq & Hlen & Hm)|Herr].
  - destruct (fit_after_matrix this data m ltac:(lia) Hm Heq) as [?|[? ?]];
      [by left|].
    right; right. split; [done|]. by eexists _, _.
  - right; left. unfold fit. by rewrite Herr.
Qed.

(** *** when [minSamples - 1] is an array index *)

Lemma Qred_inject_Z (z : Z) : Qred (inject_Z z) = inject_Z z.
Proof.
  unfold inject_Z, Qred.
  pose proof (Z.ggcd_gcd z 1) as Hg.
  pose proof (Z.ggcd_correct_divisors z 1) as Hd.
  destruct (Z.ggcd z 1) as [g [aa bb]]. simpl in *.
  rewrite Z.gcd_1_r in Hg. subst g. destruct Hd as [Hz H1].
  assert (aa = z) as -> by lia. assert (bb = 1%Z) as -> by lia. done.
Qed.

Lemma to_index_inject_Z (z : Z) :
  (0 <= z)%Z → Num.to_index (Fin (inject_Z z)) = Some (Z.to_nat z).
Proof.
  intros Hz. unfold Num.to_index. rewrite Qred_inject_Z. simpl.
  by rewrite (proj2 (Z.leb_le 0 z) Hz).
Qed.

Lemma to_index_spec (x : num) (k : nat) :
  Num.to_index x = Some k →
  ∃ q, x = Fin q ∧ (q == inject_Z (Z.of_nat k))%Q.
Proof.
  destruct x as [q| | |]; try done. unfold Num.to_index.
  pose proof (Qred_correct q) as Hq.
  destruct (Qred q) as [num den]. cbn [Qden Qnum].
  destruct (Pos.eqb_spec den 1) as [->|]; [|done].
  destruct (Z.leb_spec 0 num); simpl; [|done]. intros [= <-].
  exists q. split; [done|]. rewrite <- Hq. by rewrite Z2Nat.id.
Qed.

Lemma filter_all {A} (P : A → Prop) `{∀ x, Decision (P x)} (l : list A) :
  Forall P l → filter P l = l.
Proof.
  induction 1 as [|x l Hx _ IH]; [done|].
  rewrite filter_cons_True by done. by rewrite IH.
Qed.

Lemma filter_none {A} (P : A → Prop) `{∀ x, Decision (P x)} (l : list A) :
  Forall (fun x => ¬ P x) l → filter P l = [].
Proof.
  induction 1 as [|x l Hx _ IH]; [done|].
  by rewrite filter_cons_False by done.
Qed.

Lemma length_others (n i : nat) :
  i < n → length (filter (fun j => i ≠ j) (seq 0 n)) = n - 1.
Proof.
  intros Hi. replace n with (i + (1 + (n - i - 1))) at 1 by lia.
  rewrite !seq_app, !filter_app.
  rewrite (filter_all (fun j => i ≠ j) (seq 0 i)).
  2: { apply Forall_forall. intros j Hj%elem_of_seq. lia. }
  rewrite (filter_none (fun j => i ≠ j) (seq (0 + i) 1)).
  2: { apply Forall_forall. intros j Hj%elem_of_seq. lia. }
  rewrite (filter_all (fun j => i ≠ j) (seq (0 + i + 1) _)).
  2: { apply Forall_forall. intros j Hj%elem_of_seq. lia. }
  rewrite !length_app, !length_seq. simpl. lia.
Qed.

Lemma coreDistance_index_ok (d : nat) (data : list (list num)) (ms : num)
    (k i : nat) :
  dataset d data → 2 ≤ length data → i < length data →
  Num.to_index (Num.sub ms Num.one) = Some k →
  ∃ x, coreDistance ms data i = Ok x.
Proof.
  intros Hdata Hn Hi Hk.
  destruct (coreDistance_result d data ms i Hdata Hi) as [(x & ? & _)|Herr];
    [by exists x|].
  exfalso. unfold coreDistance in Herr.
  set (pds := js_sort by_distance (pointDistances data i)) in *.
  assert (Hlen : length pds = length data - 1).
  { unfold pds. rewrite (js_sort_perm by_distance). unfold pointDistances.
    rewrite length_fmap. by apply length_others. }
  rewrite Hlen in Herr.
  apply to_index_spec in Hk as (q & Hq & Hqk). rewrite Hq in Herr.
  assert (Hidx : ∃ k', Num.to_index
                         (Num.min (Fin q)
                            (Num.of_Z (Z.of_nat (length data - 1) - 1)))
                       = Some k' ∧ k' < length pds).
  { unfold Num.min, Num.of_Z.
    destruct (Num.ltb _ (Fin q)) eqn:E.
    - exists (Z.to_nat (Z.of_nat (length data - 1) - 1)).
      split; [apply to_index_inject_Z; lia|lia].
    - exists k. split.
      + unfold Num.to_index. rewrite (Qred_complete q _ Hqk), Qred_inject_Z.
        simpl. rewrite (proj2 (Z.leb_le 0 _) (Nat2Z.is_nonneg k)).
        by rewrite Nat2Z.id.
      + apply Qltb_ge in E. rewrite Hqk in E.
        rewrite <- Zle_Qle in E. lia. }
  destruct Hidx as (k' & Hk' & Hlt). rewrite Hk' in Herr.
  destruct (lookup_lt_is_Some_2 pds k' Hlt) as [pd Hpd].
  simpl in Herr. by rewrite Hpd in Herr.
Qed.

Lemma coreDistances_ok (d : nat) (data : list (list num)) (ms : num) (k : nat)
    (l : list nat) :
  dataset d data → 2 ≤ length data →
  Num.to_index (Num.sub ms Num.one) = Some k →
  Forall (fun i => i < length data) l →
  ∃ cs, mapM (coreDistance ms data) l = Ok cs.
Proof.
  intros Hdata Hn Hk. induction 1 as [|i l Hi _ [cs IH]]; [by exists []|].
  destruct (coreDistance_index_ok d data ms k i Hdata Hn Hi Hk) as [x Hx].
  exists (x :: cs). by rewrite mapM_cons, Hx, bind_Ok, IH, bind_Ok.
Qed.

Lemma fit_index_no_TypeError (d : nat) (this : HDBSCAN)
    (data : list (list num)) (k : nat) :
  dataset d data → 2 ≤ length data →
  Num.to_index (Num.sub (minSamples this) Num.one) = Some k →
  fit this data ≠ Err TypeError.
Proof.
  intros Hdata Hn Hk.
  destruct (coreDistances_ok d data (minSamples this) k (seq 0 (length data))
              Hdata Hn Hk) as [cs Hcs].
  { apply Forall_forall. intros i Hi%elem_of_seq. lia. }
  destruct (computeMutualReachabilityDistance_result d this data Hdata)
    as [(m & Heq & Hlen & Hm)|Herr].
  - destruct (fit_after_matrix this data m ltac:(lia) Hm Heq)
      as [[? ->]|[-> _]]; done.
  - unfold computeMutualReachabilityDistance in Herr.
    by rewrite Hcs, bind_Ok in Herr.
Qed.

(** ** The hierarchy is a tree of nested clusters *)

Section laminar.
Context (n id0 : nat) (mcs : num) (mst : list Edge) (splits : list nat)
        (this : HDBSCAN) (hierarchy : list Cluster).
Hypothesis Hinv : hier_inv n id0 mcs mst [] splits this hierarchy.

Lemma child_of_split (p k : nat) :
  child_of splits p k →
  p < k
  ∧ ∃ P C S,
      hierarchy !! p = Some P ∧ hierarchy !! k = Some C ∧ S ∈ hierarchy
      ∧ (∀ x, x ∈ children P ↔ x ∈ children C ∨ x ∈ children S)
      ∧ (∀ x, x ∈ children C → x ∉ children S)
      ∧ children S ≠ []
      ∧ Num.leb (distance C) (distance P) = true
      ∧ (leftChild P = link_of mcs C ∨ rightChild P = link_of mcs C).
Proof.
  intros (j & Hj & Hk).
  destruct (hi_splits _ _ _ _ _ _ _ _ Hinv j p Hj)
    as (Hlt & P & L & R & HP & HL & HR & Hperm & Hd & Hle & Hl & Hr & _).
  destruct (hi_members _ _ _ _ _ _ _ _ Hinv P) as (_ & HPnd & _);
    [by eapply list_elem_of_lookup_2|].
  rewrite <- Hperm in HPnd. apply NoDup_app in HPnd as (_ & Hdisj & _).
  destruct (hi_members _ _ _ _ _ _ _ _ Hinv L) as (HLne & _);
    [by eapply list_elem_of_lookup_2|].
  destruct (hi_members _ _ _ _ _ _ _ _ Hinv R) as (HRne & _);
    [by eapply list_elem_of_lookup_2|].
  destruct Hk as [-> | ->].
  - split; [done|]. exists P, L, R. split_and!; try done.
    + by eapply list_elem_of_lookup_2.
    + intros x. rewrite <- Hperm. apply elem_of_app.
    + by left.
  - split; [lia|]. exists P, R, L. split_and!; try done.
    + by eapply list_elem_of_lookup_2.
    + intros x. rewrite <- Hperm, elem_of_app. tauto.
    + intros x HxR HxL. by eapply Hdisj.
    + by rewrite Hd.
    + by right.
Qed.

Lemma child_of_exists (k : nat) :
  0 < k < length hierarchy → ∃ p, child_of splits p k.
Proof.
  intros Hk. pose proof (hi_length _ _ _ _ _ _ _ _ Hinv) as Hlen.
  destruct (lookup_lt_is_Some_2 splits ((k - 1) / 2)) as [p Hp].
  { apply Nat.Div0.div_lt_upper_bound. lia. }
  exists p, ((k - 1) / 2). split; [done|].
  pose proof (Nat.div_mod_eq (k - 1) 2).
  pose proof (Nat.mod_upper_bound (k - 1) 2). lia.
Qed.

Lemma child_of_parent (p p' k : nat) :
  child_of splits p k → child_of splits p' k → p = p'.
Proof.
  intros (j & Hj & Hk) (j' & Hj' & Hk').
  assert (j = j') as -> by lia. congruence.
Qed.

(** two children of one cluster are the two sides of its split *)
Lemma child_of_siblings (p k k' : nat) (C C' : Cluster) :
  child_of splits p k → child_of splits p k' → k ≠ k' →
  hierarchy !! k = Some C → hierarchy !! k' = Some C' →
  ∀ x, x ∈ children C → x ∉ children C'.
Proof.
  intros (j & Hj & Hk) (j' & Hj' & Hk') Hne HC HC'.
  assert (j = j') as <-.
  { exact (NoDup_lookup splits j j' p
             (hi_nodup _ _ _ _ _ _ _ _ Hinv) Hj Hj'). }
  destruct (hi_splits _ _ _ _ _ _ _ _ Hinv j p Hj)
    as (Hlt & P & L & R & HP & HL & HR & Hperm & _).
  destruct (hi_members _ _ _ _ _ _ _ _ Hinv P) as (_ & HPnd & _);
    [by eapply list_elem_of_lookup_2|].
  rewrite <- Hperm in HPnd. apply NoDup_app in HPnd as (_ & Hdisj & _).
  destruct Hk as [-> | ->], Hk' as [-> | ->]; try done; simplify_eq.
  - apply Hdisj.
  - intros x HxR HxL. by eapply Hdisj.
Qed.

Lemma ancestor_snoc (a p b : nat) :
  ancestor splits a p → child_of splits p b → ancestor splits a b.
Proof.
  induction 1 as [a p Hap|a q p Haq _ IH]; intros Hpb.
  - eapply ancestor_step; [done|]. by constructor.
  - eapply ancestor_step; [done|]. by apply IH.
Qed.

Lemma ancestor_spec (a b : nat) :
  ancestor splits a b →
  a < b
  ∧ ∃ A B,
      hierarchy !! a = Some A ∧ hierarchy !! b = Some B
      ∧ (∀ x, x ∈ children B → x ∈ children A)
      ∧ (∃ x, x ∈ children A ∧ x ∉ children B)
      ∧ Num.leb (distance B) (distance A) = true.
Proof.
  induction 1 as [a b Hab|a p b Hap _ IH].
  - destruct (child_of_split a b Hab)
      as (Hlt & P & C & S & HP & HC & HS & Hunion & Hdisj & HSne & Hle & _).
    split; [done|]. exists P, C. split_and!; try done.
    + intros x Hx. apply Hunion. by left.
    + destruct (children S) as [|x l]; [done|].
      exists x. split.
      * apply Hunion. right. left.
      * intros Hx. apply (Hdisj x Hx). left.
  - destruct IH as (Hlt & P & B & HP & HB & Hsub & (x & HxP & HxB) & Hle).
    destruct (child_of_split a p Hap)
      as (Hlt' & A & P' & S & HA & HP' & HS & Hunion & _ & _ & Hle' & _).
    rewrite HP in HP'. injection HP' as <-.
    split; [lia|]. exists A, B. split_and!; try done.
    + intros y Hy. apply Hunion. left. by apply Hsub.
    + exists x. split; [|done]. apply Hunion. by left.
    + pose proof (hi_finite _ _ _ _ _ _ _ _ Hinv A
                    (list_elem_of_lookup_2 _ _ _ HA)) as HfA.
      pose proof (hi_finite _ _ _ _ _ _ _ _ Hinv P
                    (list_elem_of_lookup_2 _ _ _ HP)) as HfP.
      pose proof (hi_finite _ _ _ _ _ _ _ _ Hinv B
                    (list_elem_of_lookup_2 _ _ _ HB)) as HfB.
      destruct (distance A), (distance P), (distance B); try done.
      by eapply leb_trans_Fin.
Qed.

(** two clusters are nested, the later in the earlier, or disjoint *)
Lemma hierarchy_laminar (b : nat) :
  ∀ a A B, a < b → hierarchy !! a = Some A → hierarchy !! b = Some B →
  ancestor splits a b ∨ ∀ x, x ∈ children A → x ∉ children B.
Proof.
  induction b as [b IH] using lt_wf_ind. intros a A B Hab HA HB.
  destruct (child_of_exists b) as [p Hpb].
  { split; [lia|by eapply lookup_lt_Some]. }
  destruct (child_of_split p b Hpb)
    as (Hpltb & P & B' & S & HP & HB' & HS & Hunion & Hdisj & _).
  rewrite HB in HB'. injection HB' as <-.
  destruct (decide (p = a)) as [->|Hpa]; [left; by constructor|].
  destruct (decide (p < a)) as [Hlt|Hge].
  - (* the parent of [b] is older than [a] *)
    destruct (IH a Hab p P A Hlt HP HA) as [Hanc|Hdis].
    + right. inversion Hanc as [? ? Hpa'|? c ? Hpc Hca]; subst.
      * (* [a] is the sibling of [b] *)
        intros x HxA HxB.
        exact (child_of_siblings p a b A B Hpa' Hpb ltac:(lia) HA HB x HxA HxB).
      * (* [a] lies below a child [c] of the parent *)
        destruct (ancestor_spec c a Hca) as (Hlt' & C & A' & HC & HA' & Hsub & _).
        rewrite HA in HA'. injection HA' as <-.
        intros x HxA HxB.
        exact (child_of_siblings p c b C B Hpc Hpb ltac:(lia) HC HB x
                 (Hsub x HxA) HxB).
    + right. intros x HxA HxB. eapply Hdis; [|done].
      apply Hunion. by left.
  - (* the parent of [b] is younger than [a] *)
    destruct (IH p Hpltb a A P ltac:(lia) HA HP) as [Hanc|Hdis].
    + left. by eapply ancestor_snoc.
    + right. intros x HxA HxB. eapply Hdis; [done|].
      apply Hunion. by left.
Qed.
End laminar.

(** ** The hierarchy of a [fit] *)

Lemma hierarchy_of_inv (p : HDBSCANParams) (d : nat) (data : list (list num))
    (h : HDBSCAN) (hierarchy : list Cluster) :
  dataset d data → 2 ≤ length data →
  hierarchy_of p data = Ok (h, hierarchy) →
  ∃ id0 mst splits,
    hier_inv (length data) id0 (minClusterSize h) mst [] splits h hierarchy.
Proof.
  intros Hdata Hn. unfold hierarchy_of.
  destruct (constructor p) as [h0|]; [|done]. rewrite bind_Ok.
  destruct (computeMutualReachabilityDistance_result d h0 data Hdata)
    as [(m & -> & Hlen & Hm)| ->]; [|done].
  rewrite bind_Ok. cbn beta iota.
  destruct (buildMinimumSpanningTree_reach m ltac:(lia) Hm)
    as [[-> _]|(es & -> & Hmst & _)]; [done|].
  rewrite bind_Ok.
  destruct (buildClusterHierarchy_spec
              (set_sortedEdges es (set_mutualReachabilityDistance m h0))
              es (length m) Hmst ltac:(lia) eq_refl)
    as (splits & this1 & hierarchy1 & -> & Hinv).
  intros [= <- <-]. rewrite Hlen in Hinv.
  rewrite <- (hi_mcs _ _ _ _ _ _ _ _ Hinv) in Hinv at 1. eauto.
Qed.

Lemma link_of_Some (mcs : num) (c : Cluster) (i : nat) :
  link_of mcs c = Some i →
  i = id c ∧ Num.geb (Num.of_nat (length (children c))) mcs = true.
Proof. unfold link_of. destruct (Num.geb _ mcs); naive_solver. Qed.

(** ** Child links (C6) *)

(** C6, as the claim states it, fails: in the hierarchy of [line_3_1] with
    [minClusterSize = 2] the root has a left child, the cluster of the
    points 0, 1, 2, and no right child: the other side of the split is the
    single point 3. *)
Lemma one_child_link_only :
  ∃ h hierarchy root,
    hierarchy_of (params 2 2) line_3_1 = Ok (h, hierarchy)
    ∧ hierarchy !! 0 = Some root
    ∧ children root = [0; 1; 2; 3]
    ∧ leftChild root = Some 1
    ∧ rightChild root = None.
Proof.
  eexists _, _, _. split; [vm_compute; reflexivity|]. by vm_compute.
Qed.

(** C6, amended.  A child link is present only for a side of the split
    with at least [minClusterSize] members, and it references a cluster of
    the hierarchy whose members are members of the parent; so one link
    can be present without the other.  For every cluster with both links,
    the member sets of the two children are disjoint and their union is the
    member set of the parent. *)
Theorem child_links_partition (p : HDBSCANParams) (d : nat)
    (data : list (list num)) (h : HDBSCAN) (hierarchy : list Cluster) :
  dataset d data → 2 ≤ length data →
  hierarchy_of p data = Ok (h, hierarchy) →
  ∀ P, P ∈ hierarchy →
    (∀ c, leftChild P = Some c ∨ rightChild P = Some c →
       ∃ C, C ∈ hierarchy ∧ id C = c
            ∧ large_enough h (length (children C)) = true
            ∧ ∀ x, x ∈ children C → x ∈ children P)
    ∧ (∀ l r, leftChild P = Some l → rightChild P = Some r →
       ∃ L R, L ∈ hierarchy ∧ R ∈ hierarchy ∧ id L = l ∧ id R = r
              ∧ (∀ x, x ∈ children P ↔ x ∈ children L ∨ x ∈ children R)
              ∧ (∀ x, x ∈ children L → x ∉ children R)).
Proof.
  intros Hdata Hn Hh P (k & HP)%list_elem_of_lookup_1.
  destruct (hierarchy_of_inv p d data h hierarchy Hdata Hn Hh)
    as (id0 & mst & splits & Hinv).
  destruct (decide (k ∈ splits)) as [(j & Hj)%list_elem_of_lookup_1|Hnot].
  2: { destruct (hi_unsplit _ _ _ _ _ _ _ _ Hinv k P HP Hnot) as [-> ->].
       split; [by intros c [?|?]|done]. }
  destruct (hi_splits _ _ _ _ _ _ _ _ Hinv j k Hj)
    as (Hlt & P' & L & R & HP' & HL & HR & Hperm & _ & _ & Hl & Hr & _).
  rewrite HP in HP'. injection HP' as <-.
  destruct (hi_members _ _ _ _ _ _ _ _ Hinv P) as (_ & HPnd & _);
    [by eapply list_elem_of_lookup_2|].
  rewrite <- Hperm in HPnd. apply NoDup_app in HPnd as (_ & Hdisj & _).
  assert (HinL : L ∈ hierarchy) by (by eapply list_elem_of_lookup_2).
  assert (HinR : R ∈ hierarchy) by (by eapply list_elem_of_lookup_2).
  split.
  - intros c [Hc|Hc].
    + rewrite Hl in Hc. apply link_of_Some in Hc as [-> Hlarge].
      exists L. split_and!; try done.
      intros x Hx. rewrite <- Hperm. set_solver.
    + rewrite Hr in Hc. apply link_of_Some in Hc as [-> Hlarge].
      exists R. split_and!; try done.
      intros x Hx. rewrite <- Hperm. set_solver.
  - intros l r Hcl Hcr.
    rewrite Hl in Hcl. apply link_of_Some in Hcl as [-> _].
    rewrite Hr in Hcr. apply link_of_Some in Hcr as [-> _].
    exists L, R. split_and!; try done.
    intros x. rewrite <- Hperm. apply elem_of_app.
Qed.

Lemma dataset_line_3_1 : dataset 1 line_3_1.
Proof. unfold dataset. by repeat constructor. Qed.

Lemma child_links_partition_witness :
  ∃ h hierarchy,
    hierarchy_of (params 2 2) line_3_1 = Ok (h, hierarchy)
    ∧ ∀ P, P ∈ hierarchy →
        (∀ c, leftChild P = Some c ∨ rightChild P = Some c →
           ∃ C, C ∈ hierarchy ∧ id C = c
                ∧ large_enough h (length (children C)) = true
                ∧ ∀ x, x ∈ children C → x ∈ children P)
        ∧ (∀ l r, leftChild P = Some l → rightChild P = Some r →
           ∃ L R, L ∈ hierarchy ∧ R ∈ hierarchy ∧ id L = l ∧ id R = r
                  ∧ (∀ x, x ∈ children P ↔ x ∈ children L ∨ x ∈ children R)
                  ∧ (∀ x, x ∈ children L → x ∉ children R)).
Proof.
  eexists _, _. split; [vm_compute; reflexivity|].
  apply (child_links_partition (params 2 2) 1 line_3_1).
  - apply dataset_line_3_1.
  - simpl. lia.
  - vm_compute. reflexivity.
Defined.

(** ** The children of the extraction (C7) *)

Lemma large_mono (mcs : num) (a b : nat) :
  a ≤ b → Num.geb (Num.of_nat a) mcs = true → Num.geb (Num.of_nat b) mcs = true.
Proof.
  intros Hab. unfold Num.geb, Num.of_nat. destruct mcs as [q| | |]; try done.
  rewrite !leb_Fin. intros Hq. eapply Qle_trans; [exact Hq|].
  rewrite <- Zle_Qle. lia.
Qed.

Section descendants.
Context (n id0 : nat) (mcs : num) (mst : list Edge) (splits : list nat)
        (this : HDBSCAN) (hierarchy : list Cluster).
Hypothesis Hinv : hier_inv n id0 mcs mst [] splits this hierarchy.
Hypothesis Hmcs : minClusterSize this = mcs.

Lemma elem_of_condensed (c : Cluster) :
  c ∈ condenseHierarchy this hierarchy ↔ c ∈ hierarchy ∧ is_large mcs c.
Proof.
  unfold condenseHierarchy. rewrite list_elem_of_filter, Hmcs.
  split; intros [H1 H2].
  - split; [done|].
    destruct (hi_members _ _ _ _ _ _ _ _ Hinv c H2) as (_ & Hnd & _).
    rewrite getClusterPoints_NoDup in H1 by done. by apply Is_true_true.
  - split; [|done].
    destruct (hi_members _ _ _ _ _ _ _ _ Hinv c H1) as (_ & Hnd & _).
    rewrite getClusterPoints_NoDup by done. by apply Is_true_true.
Qed.


Lemma position_of_id (a b : nat) (A B : Cluster) :
  hierarchy !! a = Some A → hierarchy !! b = Some B → id A = id B → a = b.
Proof.
  intros HA HB. rewrite (hi_ids _ _ _ _ _ _ _ _ Hinv a A HA).
  rewrite (hi_ids _ _ _ _ _ _ _ _ Hinv b B HB). lia.
Qed.


Lemma link_child_of (a b : nat) (A B : Cluster) :
  hierarchy !! a = Some A → hierarchy !! b = Some B →
  is_link A B → child_of splits a b.
Proof.
  intros HA HB Hlink.
  destruct (decide (a ∈ splits)) as [(j & Hj)%list_elem_of_lookup_1|Hnot].
  2: { destruct (hi_unsplit _ _ _ _ _ _ _ _ Hinv a A HA Hnot) as [Hl Hr].
       unfold is_link in Hlink. rewrite Hl, Hr in Hlink. naive_solver. }
  destruct (hi_splits _ _ _ _ _ _ _ _ Hinv j a Hj)
    as (Hlt & A' & L & R & HA' & HL & HR & _ & _ & _ & Hl & Hr & _).
  rewrite HA in HA'. injection HA' as <-.
  exists j. split; [done|]. destruct Hlink as [Hc|Hc].
  - left. rewrite Hl in Hc. apply link_of_Some in Hc as [Hid _].
    by apply (position_of_id b (2 * j + 1) B L).
  - right. rewrite Hr in Hc. apply link_of_Some in Hc as [Hid _].
    by apply (position_of_id b (2 * j + 2) B R).
Qed.




End descendants.





(** ** No invariant error (C10) *)

(** C10.  For a dataset of [n >= 2] points and an instance the
    constructor returned, [fit] throws none of the three invariant errors
    ([parentCluster not found], [find] out of range, a split into other
    than two components): no run of it ends with a thrown [Error].  It
    returns; or it throws the [TypeError] of the read of a core distance,
    which it does not when [minSamples - 1] is an array index; or the
    [while] loop of [buildMinimumSpanningTree] never exits, because
    squared distances overflowed to [Infinity] and no unvisited vertex is
    at a distance [< Infinity].  When no entry of the matrix is
    [Infinity], [fit] returns. *)
Theorem fit_raises_no_invariant_error (p : HDBSCANParams) (h : HDBSCAN)
    (d : nat) (data : list (list num)) :
  constructor p = Ok h → dataset d data → 2 ≤ length data →
  (∀ msg, fit h data ≠ Err (Thrown msg))
  ∧ ((∃ h', fit h data = Ok h')
     ∨ fit h data = Err TypeError
     ∨ (fit h data = Err Diverge
        ∧ ∃ h' m, computeMutualReachabilityDistance h data = Ok (h', m)
                  ∧ prim_spins m))
  ∧ (∀ k, Num.to_index (Num.sub (minSamples h) Num.one) = Some k →
       fit h data ≠ Err TypeError)
  ∧ (∀ h' m, computeMutualReachabilityDistance h data = Ok (h', m) →
       square_finite m → ∃ h'', fit h data = Ok h'').
Proof.
  intros _ Hdata Hn.
  pose proof (fit_outcome d h data Hdata Hn) as Hout.
  split_and!.
  - intros msg. destruct Hout as [[h' ->]|[->|[-> _]]]; done.
  - exact Hout.
  - intros k Hk. by apply (fit_index_no_TypeError d h data k).
  - intros h' m Hm Hfin. by apply (fit_returns_finite d h data h' m).
Qed.

Lemma fit_raises_no_invariant_error_witness :
  ∃ h, constructor (params 2 2) = Ok h
       ∧ (∀ msg, fit h line_3_1 ≠ Err (Thrown msg))
       ∧ ∃ h', fit h line_3_1 = Ok h'.
Proof.
  eexists. split; [reflexivity|].
  destruct (fit_raises_no_invariant_error (params 2 2) _ 1 line_3_1
              eq_refl dataset_line_3_1 ltac:(simpl; lia))
    as (Hno & _ & _ & Hfin).
  split; [exact Hno|].
  eapply Hfin; [vm_compute; reflexivity|].
  unfold square_finite. repeat (constructor; [by repeat constructor|]).
  constructor.
Defined.

(** * Further properties of the code *)

(** ** The order of the numbers that are not negative *)

Lemma leb_transitive (a b c : num) :
  Num.leb a b = true → Num.leb b c = true → Num.leb a c = true.
Proof. destruct a, b, c; try done. apply leb_trans_Fin. Qed.

Lemma leb_refl_nonneg (x : num) : Num.nonneg x → Num.leb x x = true.
Proof. destruct x; try done. intros _. apply leb_refl_Fin. Qed.

Lemma leb_not_ltb (x y : num) :
  Num.leb x y = true → Num.ltb y x = false.
Proof.
  destruct x as [a| | |], y as [b| | |]; try done.
  intros H%leb_Fin. by apply Qltb_ge.
Qed.

Lemma ltb_false_leb (x y : num) :
  Num.nonneg x → Num.nonneg y → Num.ltb x y = false → Num.leb y x = true.
Proof.
  destruct x as [a| | |], y as [b| | |]; try done.
  intros _ _. apply leb_ltb_Fin.
Qed.

Lemma ltb_true_leb (x y : num) :
  Num.ltb x y = true → Num.leb x y = true.
Proof.
  destruct x as [a| | |], y as [b| | |]; try done. apply ltb_leb_Fin.
Qed.

Lemma eqv_leb (x y : num) :
  Num.nonneg x → Num.nonneg y →
  Num.leb x y = true → Num.leb y x = true → Num.eqv x y.
Proof.
  destruct x as [a| | |], y as [b| | |]; try done.
  intros _ _ H1%leb_Fin H2%leb_Fin. simpl. lra.
Qed.

Lemma leb_eqv (x x' y y' : num) :
  Num.eqv x x' → Num.eqv y y' → Num.leb x y = true → Num.leb x' y' = true.
Proof.
  destruct x as [a| | |], x' as [a'| | |]; try done;
    destruct y as [b| | |], y' as [b'| | |]; try done.
  simpl. intros Ha Hb H%Qle_bool_iff. apply Qle_bool_iff. lra.
Qed.

Lemma eqv_nonneg (x y : num) : Num.eqv x y → Num.nonneg x → Num.nonneg y.
Proof. destruct x, y; try done. simpl. intros H ?. lra. Qed.

(** [Math.max] of two such numbers is one of them, and at least both *)
Lemma max_lub (x y : num) :
  Num.nonneg x → Num.nonneg y →
  Num.nonneg (Num.max x y)
  ∧ Num.leb x (Num.max x y) = true
  ∧ Num.leb y (Num.max x y) = true
  ∧ (Num.max x y = x ∨ Num.max x y = y).
Proof.
  intros Hx Hy.
  assert (Hm : Num.max x y = if Num.ltb x y then y else x)
    by (by destruct x, y).
  rewrite Hm. destruct (Num.ltb x y) eqn:E.
  - split_and!; [done|by apply ltb_true_leb|by apply leb_refl_nonneg|by right].
  - split_and!; [done|by apply leb_refl_nonneg|by apply ltb_false_leb|by left].
Qed.

Lemma max3_lub (x y z : num) :
  Num.nonneg x → Num.nonneg y → Num.nonneg z →
  Num.nonneg (max3 x y z)
  ∧ Num.leb x (max3 x y z) = true
  ∧ Num.leb y (max3 x y z) = true
  ∧ Num.leb z (max3 x y z) = true
  ∧ (max3 x y z = x ∨ max3 x y z = y ∨ max3 x y z = z).
Proof.
  intros Hx Hy Hz. unfold max3.
  destruct (max_lub x y Hx Hy) as (Hn & H1 & H2 & H3).
  destruct (max_lub (Num.max x y) z Hn Hz) as (Hn' & H4 & H5 & H6).
  split_and!; [done| | |done|].
  - by eapply leb_transitive.
  - by eapply leb_transitive.
  - destruct H6 as [->| ->]; [|by right; right].
    destruct H3 as [->| ->]; auto.
Qed.

Lemma max_finite (x y : num) :
  Num.finite x → Num.finite y → Num.finite (Num.max x y).
Proof.
  destruct x as [a| | |], y as [b| | |]; try done. intros _ _.
  unfold Num.max. by destruct (Num.ltb (Fin a) (Fin b)).
Qed.


(** [1 / e] for a number [e >= 0]: [Infinity] when [e] is [0] or so small
    that the reciprocal overflows, the reciprocal otherwise *)
Lemma div_one_cases (e : Q) :
  (0 <= e)%Q →
  (Num.div Num.one (Fin e) = PInf ∧ (e * Num.huge <= 1)%Q)
  ∨ (Num.div Num.one (Fin e) = Fin (1 / e) ∧ (0 < e)%Q
     ∧ (1 < e * Num.huge)%Q).
Proof.
  intros He. unfold Num.div, Num.one. pose proof huge_pos.
  destruct (Num.Qeqb e 0) eqn:E.
  { left. apply Qeqb_eq in E. split; [done|]. rewrite E. lra. }
  assert (Hpos : (0 < e)%Q).
  { destruct (Qlt_le_dec 0 e) as [?|Hle]; [done|].
    exfalso. assert (e == 0)%Q as H0 by lra.
    apply Qeqb_eq in H0. congruence. }
  assert (Hr : (1 / e * e == 1)%Q) by (field; lra).
  assert (0 < 1 / e)%Q by (apply Qlt_shift_div_l; lra).
  set (r := (1 / e)%Q) in *.
  destruct (overflow_cases r) as [[? ->]|[[? _]|(_ & ? & ->)]].
  - left. split; [done|]. nra.
  - lra.
  - right. split_and!; [done..|]. nra.
Qed.

(** ** [euclideanDistance] on points of rational coordinates *)

Lemma add_NaN_l (x : num) : Num.add NaN x = NaN.
Proof. by destruct x. Qed.

Lemma reduce_from_NaN (b a : list num) (k : nat) :
  reduce_from
    (fun acc curr index => Num.add acc (Num.sq (Num.sub curr (get b index))))
    k a NaN = NaN.
Proof.
  revert k. induction a as [|x a IH]; intros k; [done|].
  cbn [reduce_from]. by rewrite add_NaN_l.
Qed.

Lemma eqv_refl (x : num) : Num.eqv x x.
Proof. destruct x; simpl; [reflexivity|done..]. Qed.

Lemma overflow_eqv (q r : Q) :
  (q == r)%Q → Num.eqv (Num.overflow q) (Num.overflow r).
Proof.
  intros Hqr.
  destruct (overflow_cases q) as [[H1 ->]|[[H1 ->]|(H1 & H2 & ->)]].
  - rewrite overflow_PInf; [done|lra].
  - destruct (overflow_cases r) as [[H3 _]|[[_ ->]|(H3 & _ & _)]];
      [|done|]; pose proof huge_pos; lra.
  - rewrite overflow_Fin; [done|lra].
Qed.

Lemma add_eqv (x x' y y' : num) :
  Num.eqv x x' → Num.eqv y y' → Num.eqv (Num.add x y) (Num.add x' y').
Proof.
  destruct x, x', y, y'; try done. cbn [Num.eqv Num.add].
  intros Hx Hy. apply overflow_eqv. by rewrite Hx, Hy.
Qed.

(** [(x - y) ** 2] is [(y - x) ** 2] *)
Lemma sq_sub_sym (x y : Q) :
  Num.eqv (Num.sq (Num.sub (Fin x) (Fin y))) (Num.sq (Num.sub (Fin y) (Fin x))).
Proof.
  cbn [Num.sub Num.neg Num.add]. pose proof huge_pos.
  destruct (overflow_cases (x + - y)) as [[H1 ->]|[[H1 ->]|(H1 & H2 & ->)]].
  - rewrite overflow_NInf; [done|lra].
  - rewrite overflow_PInf; [done|lra].
  - rewrite overflow_Fin by lra. cbn [Num.sq Num.mul].
    apply overflow_eqv. ring.
Qed.

(** [(x - x) ** 2] is [0] *)
Lemma sq_sub_self (x : Q) : Num.eqv (Num.sq (Num.sub (Fin x) (Fin x))) Num.zero.
Proof.
  cbn [Num.sub Num.neg Num.add]. pose proof huge_pos.
  rewrite overflow_Fin by lra. cbn [Num.sq Num.mul].
  rewrite overflow_Fin by nra. simpl. ring.
Qed.

Lemma get_Fin (b : list Q) (k : nat) (y : Q) :
  b !! k = Some y → get (Fin <$> b) k = Fin y.
Proof. intros Hy. unfold get. by rewrite list_lookup_fmap, Hy. Qed.

Lemma euclideanDistance_fold_sym (a : list Q) :
  ∀ (b : list Q) (k : nat) (acc acc' : num) (a0 b0 : list Q),
  length a = length b → length a0 = k → length b0 = k →
  Num.eqv acc acc' →
  Num.eqv
    (reduce_from
       (fun acc curr index =>
          Num.add acc (Num.sq (Num.sub curr (get (Fin <$> b0 ++ b) index))))
       k (Fin <$> a) acc)
    (reduce_from
       (fun acc curr index =>
          Num.add acc (Num.sq (Num.sub curr (get (Fin <$> a0 ++ a) index))))
       k (Fin <$> b) acc').
Proof.
  induction a as [|x a IH]; intros [|y b] k acc acc' a0 b0 Hlen Ha0 Hb0 Hacc;
    try done.
  injection Hlen as Hlen. cbn [fmap list_fmap reduce_from].
  rewrite (get_Fin (b0 ++ y :: b) k y)
    by (rewrite lookup_app_r by lia; by replace (k - length b0) with 0 by lia).
  rewrite (get_Fin (a0 ++ x :: a) k x)
    by (rewrite lookup_app_r by lia; by replace (k - length a0) with 0 by lia).
  rewrite (cons_middle y b0 b), (cons_middle x a0 a), !app_assoc.
  apply IH; [done|rewrite length_app; simpl; lia..|].
  apply add_eqv; [done|apply sq_sub_sym].
Qed.

Lemma euclideanDistance_fold_self (a : list Q) :
  ∀ (k : nat) (acc : num) (a0 : list Q),
  length a0 = k → Num.eqv acc Num.zero →
  Num.eqv
    (reduce_from
       (fun acc curr index =>
          Num.add acc (Num.sq (Num.sub curr (get (Fin <$> a0 ++ a) index))))
       k (Fin <$> a) acc)
    Num.zero.
Proof.
  induction a as [|x a IH]; intros k acc a0 Ha0 Hacc; [done|].
  cbn [fmap list_fmap reduce_from].
  rewrite (get_Fin (a0 ++ x :: a) k x)
    by (rewrite lookup_app_r by lia; by replace (k - length a0) with 0 by lia).
  rewrite (cons_middle x a0 a), !app_assoc.
  apply IH; [rewrite length_app; simpl; lia|].
  pose proof (add_eqv acc Num.zero _ Num.zero Hacc (sq_sub_self x)) as H.
  by destruct (Num.add acc _) as [q| | |].
Qed.

(** X1.  For two points of the same dimension with rational
    coordinates, [euclideanDistance] is a rational that is not negative,
    or [Infinity] when a square or the sum overflows, and never [NaN]; it
    does not depend on the order of the two points; and it is [0] for a
    point and itself. *)
Theorem euclideanDistance_squared_sum (a b : list Q) :
  length a = length b →
  Num.nonneg (euclideanDistance (Fin <$> a) (Fin <$> b))
  ∧ Num.eqv (euclideanDistance (Fin <$> a) (Fin <$> b))
            (euclideanDistance (Fin <$> b) (Fin <$> a))
  ∧ Num.eqv (euclideanDistance (Fin <$> a) (Fin <$> a)) Num.zero.
Proof.
  intros Hlen. split_and!.
  - apply euclideanDistance_nonneg.
    + apply Forall_fmap, Forall_forall. by intros.
    + apply Forall_fmap, Forall_forall. by intros.
    + by rewrite !length_fmap.
  - apply (euclideanDistance_fold_sym a b 0 Num.zero Num.zero [] []);
      done.
  - by apply (euclideanDistance_fold_self a 0 Num.zero []).
Qed.

Lemma euclideanDistance_squared_sum_witness :
  Num.nonneg (euclideanDistance (Fin <$> [0; 3]%Q) (Fin <$> [4; 0]%Q))
  ∧ Num.eqv (euclideanDistance (Fin <$> [0; 3]%Q) (Fin <$> [4; 0]%Q))
            (euclideanDistance (Fin <$> [4; 0]%Q) (Fin <$> [0; 3]%Q))
  ∧ Num.eqv (euclideanDistance (Fin <$> [0; 3]%Q) (Fin <$> [0; 3]%Q)) Num.zero.
Proof. apply (euclideanDistance_squared_sum [0; 3]%Q [4; 0]%Q). reflexivity. Defined.

Lemma reduce_from_app {A B} (f : B → A → nat → B) (l1 l2 : list A) :
  ∀ (k : nat) (acc : B),
  reduce_from f k (l1 ++ l2) acc
  = reduce_from f (length l1 + k) l2 (reduce_from f k l1 acc).
Proof.
  induction l1 as [|x l1 IH]; intros k acc; [done|].
  cbn [app reduce_from length]. rewrite IH. f_equal. lia.
Qed.

(** X2.  The dimensions of the two points are not compared: a
    coordinate of [a] that [b] lacks makes the result [NaN], and the
    coordinates of [b] beyond the dimension of [a] are ignored. *)
Theorem euclideanDistance_dimensions (a b : list num) :
  (length b < length a → euclideanDistance a b = NaN)
  ∧ (∀ extra : list num,
       length a ≤ length b →
       euclideanDistance a (b ++ extra) = euclideanDistance a b).
Proof.
  split.
  - intros Hlen. unfold euclideanDistance.
    rewrite <- (take_drop (length b) a), reduce_from_app.
    destruct (drop (length b) a) as [|x rest] eqn:Hd.
    { apply (f_equal length) in Hd. rewrite length_drop in Hd. simpl in Hd. lia. }
    cbn [reduce_from].
    assert (get b (length (take (length b) a) + 0) = NaN) as ->.
    { unfold get. rewrite lookup_ge_None_2; [done|].
      rewrite length_take. lia. }
    assert (Hnan : ∀ acc x, Num.add acc (Num.sq (Num.sub x NaN)) = NaN).
    { intros acc y. assert (Num.sub y NaN = NaN) as -> by (by destruct y).
      by destruct acc. }
    rewrite Hnan. apply reduce_from_NaN.
  - intros extra Hlen. unfold euclideanDistance.
    assert (Hext : ∀ (a : list num) k acc,
      length a + k ≤ length b →
      reduce_from
        (fun acc curr index =>
           Num.add acc (Num.sq (Num.sub curr (get (b ++ extra) index))))
        k a acc
      = reduce_from
          (fun acc curr index =>
             Num.add acc (Num.sq (Num.sub curr (get b index))))
          k a acc).
    { clear a Hlen. induction a as [|x a IH]; intros k acc Hk; [done|].
      simpl in Hk. cbn [reduce_from].
      assert (get (b ++ extra) k = get b k) as ->.
      { unfold get. by rewrite lookup_app_l by lia. }
      apply IH. lia. }
    apply Hext. lia.
Qed.

Lemma euclideanDistance_dimensions_witness :
  euclideanDistance (point [1; 2]%Z) (point [1]%Z) = NaN
  ∧ euclideanDistance (point [1]%Z) (point [2]%Z ++ [Fin 7])
    = euclideanDistance (point [1]%Z) (point [2]%Z).
Proof.
  destruct (euclideanDistance_dimensions (point [1; 2]%Z) (point [1]%Z)) as [H1 _].
  destruct (euclideanDistance_dimensions (point [1]%Z) (point [2]%Z)) as [_ H2].
  split; [apply H1; simpl; lia|]. apply H2. simpl. lia.
Defined.

(** ** The constructor's instance *)

(** X3.  An instance the constructor returns holds the given
    [minClusterSize], or 5; as [minSamples] the given value, or
    [minClusterSize] when none is given or the given one is [NaN];
    neither of the two is [<= 0]; its cluster counter is [0], and
    [shouldSkipRootCluster] is [true] unless given. *)
Theorem constructor_instance (p : HDBSCANParams) (h : HDBSCAN) :
  constructor p = Ok h →
  minClusterSize h = default (Fin 5) (p_minClusterSize p)
  ∧ minSamples h
    = match p_minSamples p with
      | Some ms => if Num.is_NaN ms then minClusterSize h else ms
      | None => minClusterSize h
      end
  ∧ Num.leb (minClusterSize h) Num.zero = false
  ∧ Num.leb (minSamples h) Num.zero = false
  ∧ nextClusterId h = 0
  ∧ sortedEdges h = []
  ∧ shouldSkipRootCluster h = default true (p_shouldSkipRootCluster p).
Proof.
  unfold constructor, effective_minSamples, effective_minClusterSize.
  destruct (Num.leb (default (Fin 5) (p_minClusterSize p)) Num.zero) eqn:E1;
    [done|].
  destruct (Num.leb (default _ (p_minSamples p)) Num.zero) eqn:E2; [done|].
  intros [= <-]. cbn [minClusterSize minSamples nextClusterId sortedEdges
                       shouldSkipRootCluster].
  split_and!; try done.
  - destruct (p_minSamples p) as [ms|]; cbn [from_option Datatypes.id] in *.
    + destruct ms as [q| | |]; try done. cbn [Num.truthy Num.is_NaN].
      destruct (Num.Qeqb q 0) eqn:E; [|done]. exfalso.
      apply Qeqb_eq in E. unfold Num.zero in E2.
      assert (Num.leb (Fin q) (Fin 0) = true) as Hle
        by (apply leb_Fin; rewrite E; apply Qle_refl).
      congruence.
    + by destruct (Num.truthy _).
  - destruct (Num.truthy _); done.
Qed.

Lemma constructor_instance_witness :
  ∃ h, constructor (mkParams None (Some (Fin 3)) (Some NaN) None) = Ok h
       ∧ minClusterSize h = Fin 3
       ∧ minSamples h = Fin 3
       ∧ Num.leb (minClusterSize h) Num.zero = false
       ∧ Num.leb (minSamples h) Num.zero = false
       ∧ nextClusterId h = 0
       ∧ sortedEdges h = []
       ∧ shouldSkipRootCluster h = true.
Proof.
  eexists. split; [reflexivity|].
  apply (constructor_instance (mkParams None (Some (Fin 3)) (Some NaN) None)).
  reflexivity.
Defined.

(** ** The empty dataset *)

(** X4.  For the empty dataset the matrix is empty and
    [buildMinimumSpanningTree] returns no edge; [buildClusterHierarchy]
    then reads the weight of the first of no edges, which throws a
    [TypeError], and so does [fit]. *)
Theorem fit_empty_dataset (this : HDBSCAN) :
  computeMutualReachabilityDistance this []
  = Ok (set_mutualReachabilityDistance [] this, [])
  ∧ buildMinimumSpanningTree [] = Ok []
  ∧ buildClusterHierarchy this [] = Err TypeError
  ∧ fit this [] = Err TypeError.
Proof. split_and!; reflexivity. Qed.

(** ** Prim's loop *)

Lemma prim_scan_none (n : nat) (st : PrimState) :
  (∀ i, i < n → i ∉ visited st →
     Num.ltb (get (minEdges st) i) PInf = false) →
  prim_scan n st = (PInf, None).
Proof.
  intros Hnone. unfold prim_scan.
  assert (Hall : Forall (fun i => i < n) (seq 0 n)).
  { apply Forall_forall. intros i Hi%elem_of_seq. lia. }
  induction Hall as [|i l Hi _ IH]; [done|].
  cbn [foldl]. case_bool_decide as Hv; [|exact IH].
  rewrite (Hnone i Hi Hv). exact IH.
Qed.

(** X5.  When no entry of row 0 of the matrix beyond the
    diagonal is below [Infinity] (the entries are [Infinity], [NaN] or
    missing), no vertex is ever chosen: the first pass of the [while] loop
    of [buildMinimumSpanningTree] leaves the state as it is, vertices are
    left, and the loop never exits. *)
Theorem buildMinimumSpanningTree_never_exits (m : list (list num)) :
  2 ≤ length m →
  (∀ i, 1 ≤ i < length m → Num.ltb (mget m 0 i) PInf = false) →
  base.size (visited (prim_init m)) < length m
  ∧ prim_body m (length m) (prim_init m) = prim_init m
  ∧ (∀ fuel, prim_while fuel m (length m) (prim_init m) = Err Diverge)
  ∧ buildMinimumSpanningTree m = Err Diverge.
Proof.
  intros Hn Hrow.
  destruct (prim_init_fold m (length m - 1) ltac:(lia))
    as (Hv & _ & Hlen & _ & Hget).
  fold (prim_init m) in Hv, Hlen, Hget.
  assert (Hsize : base.size (visited (prim_init m)) < length m)
    by (rewrite Hv, size_singleton; lia).
  assert (Hbody : prim_body m (length m) (prim_init m) = prim_init m).
  { unfold prim_body. rewrite prim_scan_none; [done|].
    intros i Hi Hvis.
    rewrite Hv in Hvis. apply not_elem_of_singleton in Hvis.
    destruct (Hget i ltac:(lia)) as [Hmin _].
    unfold get at 1. rewrite Hmin. cbn [from_option Datatypes.id].
    apply Hrow. lia. }
  split_and!; [done|done| |].
  - intros fuel. by apply prim_while_stuck.
  - by apply prim_while_stuck.
Qed.

Lemma buildMinimumSpanningTree_never_exits_witness :
  base.size (visited (prim_init [[Fin 0; PInf]; [PInf; Fin 0]])) < 2
  ∧ prim_body [[Fin 0; PInf]; [PInf; Fin 0]] 2
      (prim_init [[Fin 0; PInf]; [PInf; Fin 0]])
    = prim_init [[Fin 0; PInf]; [PInf; Fin 0]]
  ∧ (∀ fuel,
       prim_while fuel [[Fin 0; PInf]; [PInf; Fin 0]] 2
         (prim_init [[Fin 0; PInf]; [PInf; Fin 0]]) = Err Diverge)
  ∧ buildMinimumSpanningTree [[Fin 0; PInf]; [PInf; Fin 0]] = Err Diverge.
Proof.
  apply (buildMinimumSpanningTree_never_exits [[Fin 0; PInf]; [PInf; Fin 0]]).
  - simpl. lia.
  - intros i Hi. simpl in Hi. assert (i = 1) as -> by lia. reflexivity.
Defined.

(** ** A squared distance that overflows *)

Lemma sq_overflows (y : Q) :
  (Num.huge <= y * y)%Q → Num.sq (Num.sub (Fin 0) (Fin y)) = PInf
                          ∧ Num.sq (Num.sub (Fin y) (Fin 0)) = PInf.
Proof.
  intros Hy. cbn [Num.sub Num.neg Num.add]. pose proof huge_pos.
  split.
  - destruct (overflow_cases (0 + - y)) as [[_ ->]|[[_ ->]|(_ & _ & ->)]];
      [done..|].
    cbn [Num.sq Num.mul]. apply overflow_PInf. lra.
  - destruct (overflow_cases (y + - 0)) as [[_ ->]|[[_ ->]|(_ & _ & ->)]];
      [done..|].
    cbn [Num.sq Num.mul]. apply overflow_PInf. lra.
Qed.

(** X6.  For the two points [0] and [y] on a line with [y * y] at
    or above the overflow threshold, the squared distance is [Infinity],
    every entry of the matrix is [Infinity], the loop of
    [buildMinimumSpanningTree] never exits, and [fit] does not return,
    whatever the instance is, provided [minSamples - 1] is an array
    index. *)
Theorem fit_overflow_never_returns (this : HDBSCAN) (y : Q) (k : nat) :
  (Num.huge <= y * y)%Q →
  Num.to_index (Num.sub (minSamples this) Num.one) = Some k →
  euclideanDistance [Fin 0] [Fin y] = PInf
  ∧ (snd <$> computeMutualReachabilityDistance this [[Fin 0]; [Fin y]])
    = Ok [[PInf; PInf]; [PInf; PInf]]
  ∧ prim_spins [[PInf; PInf]; [PInf; PInf]]
  ∧ fit this [[Fin 0]; [Fin y]] = Err Diverge.
Proof.
  intros Hy Hk. destruct (sq_overflows y Hy) as [H0 H1].
  assert (Hd01 : euclideanDistance [Fin 0] [Fin y] = PInf).
  { unfold euclideanDistance. cbn [reduce_from get lookup list_lookup
      from_option Datatypes.id]. by rewrite H0. }
  assert (Hd10 : euclideanDistance [Fin y] [Fin 0] = PInf).
  { unfold euclideanDistance. cbn [reduce_from get lookup list_lookup
      from_option Datatypes.id]. by rewrite H1. }
  assert (Hidx : Num.to_index
                   (Num.min (Num.sub (minSamples this) Num.one) (Num.of_Z 0))
                 = Some 0).
  { apply to_index_spec in Hk as (q & -> & Hq).
    unfold Num.min, Num.of_Z. destruct (Num.ltb _ _) eqn:E; [done|].
    apply Qltb_ge in E. unfold Num.to_index.
    assert (Hq0 : (q == inject_Z 0)%Q).
    { apply Qle_antisym; [done|]. rewrite Hq, <- Zle_Qle. lia. }
    by rewrite (Qred_complete q _ Hq0). }
  assert (Hc0 : coreDistance (minSamples this) [[Fin 0]; [Fin y]] 0 = Ok PInf).
  { unfold coreDistance, pointDistances.
    cbn [length seq filter list_filter]. rewrite !decide_False by lia.
    rewrite decide_True by lia. cbn [fmap list_fmap].
    cbn [js_sort foldr sort_insert length].
    change (Z.of_nat 1 - 1)%Z with 0%Z. rewrite Hidx.
    cbn [lookup list_lookup from_option Datatypes.id]. by rewrite Hd01. }
  assert (Hc1 : coreDistance (minSamples this) [[Fin 0]; [Fin y]] 1 = Ok PInf).
  { unfold coreDistance, pointDistances.
    cbn [length seq filter list_filter]. rewrite decide_True by lia.
    rewrite !decide_False by lia. cbn [fmap list_fmap].
    cbn [js_sort foldr sort_insert length].
    change (Z.of_nat 1 - 1)%Z with 0%Z. rewrite Hidx.
    cbn [lookup list_lookup from_option Datatypes.id]. by rewrite Hd10. }
  assert (Hm : computeMutualReachabilityDistance this [[Fin 0]; [Fin y]]
               = Ok (set_mutualReachabilityDistance
                       [[PInf; PInf]; [PInf; PInf]] this,
                     [[PInf; PInf]; [PInf; PInf]])).
  { unfold computeMutualReachabilityDistance.
    cbn [length seq]. rewrite !mapM_cons, Hc0, bind_Ok, Hc1, bind_Ok.
    cbn [mapM]. rewrite !bind_Ok.
    cbn [fmap list_fmap lookup list_lookup from_option Datatypes.id].
    rewrite Hd01, Hd10. unfold max3, get.
    cbn [lookup list_lookup from_option Datatypes.id].
    assert (Hmax : ∀ x, Num.nonneg x → Num.max (Num.max x PInf) PInf = PInf)
      by (by intros [| | |]).
    assert (Hself : ∀ x, Num.nonneg (euclideanDistance [Fin x] [Fin x])).
    { intros x. apply euclideanDistance_nonneg; by repeat constructor. }
    rewrite !Hmax; done. }
  split; [done|]. split; [by rewrite Hm|].
  destruct (buildMinimumSpanningTree_never_exits [[PInf; PInf]; [PInf; PInf]])
    as (Hsize & Hbody & _ & Hrun).
  { simpl. lia. }
  { intros i Hi. simpl in Hi. by assert (i = 1) as -> by lia. }
  split; [by exists 0|].
  unfold fit. by rewrite Hm, bind_Ok, Hrun.
Qed.

Lemma fit_overflow_never_returns_witness :
  euclideanDistance [Fin 0] [Fin (inject_Z (2 ^ 600))] = PInf
  ∧ (snd <$> computeMutualReachabilityDistance (instance 2 1)
               [[Fin 0]; [Fin (inject_Z (2 ^ 600))]])
    = Ok [[PInf; PInf]; [PInf; PInf]]
  ∧ prim_spins [[PInf; PInf]; [PInf; PInf]]
  ∧ fit (instance 2 1) [[Fin 0]; [Fin (inject_Z (2 ^ 600))]] = Err Diverge.
Proof.
  apply (fit_overflow_never_returns (instance 2 1) (inject_Z (2 ^ 600)) 0).
  - by vm_compute.
  - by vm_compute.
Defined.

(** ** [find] *)

(** X7.  On a forest, [find(x, parent)] for an index [x] of the array
    returns the root of [x]; afterwards [parent[x]] is that root (the path
    is compressed), and every index has the root it had.  For an [x]
    beyond the array it throws. *)
Theorem find_compresses (parent : list nat) (x : nat) :
  uf_forest parent →
  (length parent ≤ x →
   find x parent
   = Err (Thrown "find called with x greater than parent array length"))
  ∧ (x < length parent →
     ∃ r parent',
       find x parent = Ok (r, parent')
       ∧ uf_root parent x r
       ∧ length parent' = length parent
       ∧ parent' !! x = Some r
       ∧ parent' !! r = Some r
       ∧ uf_forest parent'
       ∧ ∀ y s, uf_root parent y s ↔ uf_root parent' y s).
Proof.
  intros Hforest. split.
  - intros Hx. unfold find. cbn [find_rec]. by rewrite bool_decide_true.
  - intros Hx.
    destruct (find_spec parent x Hforest Hx)
      as (r & parent' & Hfind & Hroot & Hlen & Hforest' & Hsame).
    exists r, parent'. split_and!; try done.
    + unfold find in Hfind. cbn [find_rec] in Hfind.
      rewrite bool_decide_false in Hfind by lia.
      destruct Hroot as [d Hpath].
      inversion Hpath as [? Hself|? p ? d' Hp Hne Hrest]; subst.
      * rewrite Hself in Hfind. cbn [from_option Datatypes.id] in Hfind.
        rewrite bool_decide_false in Hfind by naive_solver.
        by injection Hfind as <-.
      * rewrite Hp in Hfind. cbn [from_option Datatypes.id] in Hfind.
        rewrite bool_decide_true in Hfind by done.
        destruct (find_rec_spec parent p r d' (length parent) Hrest)
          as (parent1 & Hrec & Hlen1 & _).
        { pose proof (uf_path_bound _ _ _ _ Hpath). lia. }
        rewrite Hrec, bind_Ok in Hfind. cbn beta iota in Hfind.
        injection Hfind as <-.
        apply list_lookup_insert_eq. lia.
    + apply (uf_root_lt parent' x r). by apply Hsame.
Qed.

Lemma find_compresses_witness :
  find 5 [0; 0; 1] = Err (Thrown "find called with x greater than parent array length")
  ∧ ∃ r parent',
      find 2 [0; 0; 1] = Ok (r, parent')
      ∧ uf_root [0; 0; 1] 2 r
      ∧ length parent' = 3
      ∧ parent' !! 2 = Some r
      ∧ parent' !! r = Some r
      ∧ uf_forest parent'
      ∧ ∀ y s, uf_root [0; 0; 1] y s ↔ uf_root parent' y s.
Proof.
  assert (Hforest : uf_forest [0; 0; 1]).
  { intros x Hx. exists 0.
    destruct x as [|[|[|x]]]; [| | |simpl in Hx; lia].
    - exists 0. by constructor.
    - exists 1. eapply uf_path_step; [done|done|]. by constructor.
    - exists 2. eapply uf_path_step; [done|done|].
      eapply uf_path_step; [done|done|]. by constructor. }
  destruct (find_compresses [0; 0; 1] 5 Hforest) as [H1 _].
  destruct (find_compresses [0; 0; 1] 2 Hforest) as [_ H2].
  split; [apply H1; simpl; lia|apply H2; simpl; lia].
Defined.

(** ** [findClusterContainingPoints] *)

Lemma forallb_false {A} (f : A → bool) (l : list A) :
  forallb f l = false → ∃ x, x ∈ l ∧ f x = false.
Proof.
  induction l as [|x l IH]; [done|]. cbn [forallb].
  destruct (f x) eqn:E.
  - intros H. destruct (IH H) as (y & Hy & Hf). exists y. split; [by right|done].
  - intros _. exists x. split; [by left|done].
Qed.

Lemma forallb_includes (points l : list nat) :
  forallb (includes l) points = true ↔ ∀ p, p ∈ points → p ∈ l.
Proof.
  rewrite forallb_forall. unfold includes. split.
  - intros H p Hp. apply list_elem_of_In in Hp.
    specialize (H p Hp). by apply bool_decide_eq_true in H.
  - intros H p Hp. apply bool_decide_eq_true, H. by apply list_elem_of_In.
Qed.

(** X8.  [findClusterContainingPoints] returns the newest
    cluster of the array that holds every given point: no later cluster
    holds them all; it returns [null] exactly when no cluster does. *)
Theorem findClusterContainingPoints_newest (points : list nat)
    (hierarchy : list Cluster) :
  match findClusterContainingPoints points hierarchy with
  | Some i =>
      ∃ c, hierarchy !! i = Some c
           ∧ (∀ p, p ∈ points → p ∈ children c)
           ∧ ∀ k c', i < k → hierarchy !! k = Some c' →
               ∃ p, p ∈ points ∧ p ∉ children c'
  | None =>
      ∀ c, c ∈ hierarchy → ∃ p, p ∈ points ∧ p ∉ children c
  end.
Proof.
  unfold findClusterContainingPoints.
  destruct (find_last _ hierarchy) as [i|] eqn:E.
  - apply find_last_Some in E as (c & Hc & HP & Hlater).
    exists c. split_and!; [done|by apply forallb_includes|].
    intros k c' Hk Hc'. specialize (Hlater k c' Hk Hc').
    apply forallb_false in Hlater as (p & Hp & Hin).
    exists p. split; [done|]. unfold includes in Hin.
    by apply bool_decide_eq_false in Hin.
  - intros c Hc. pose proof (find_last_None _ _ E c Hc) as HP.
    apply forallb_false in HP as (p & Hp & Hin).
    exists p. split; [done|]. unfold includes in Hin.
    by apply bool_decide_eq_false in Hin.
Qed.

(** ** The core distance *)

Lemma sort_insert_sorted_by {A} (cmp : A → A → num) (R : A → A → Prop)
    (ok : A → Prop) (x : A) (l : list A) :
  (∀ a b, ok a → ok b →
     (Num.ltb Num.zero (cmp a b) = true → R b a)
     ∧ (Num.ltb Num.zero (cmp a b) = false → R a b)) →
  (∀ a b c, ok a → ok b → ok c → R a b → R b c → R a c) →
  ok x → Forall ok l →
  StronglySorted R l → StronglySorted R (sort_insert cmp x l).
Proof.
  intros Hcmp Htrans Hx Hl Hs.
  induction Hs as [|y l Hs IH Hy]; cbn [sort_insert].
  - repeat constructor.
  - apply Forall_cons in Hl as [Hoky Hl].
    destruct (Hcmp x y Hx Hoky) as [Hpos Hneg].
    destruct (Num.ltb Num.zero (cmp x y)) eqn:E.
    + constructor; [by apply IH|].
      rewrite sort_insert_perm. constructor; [by apply Hpos|done].
    + constructor; [by constructor|].
      constructor; [by apply Hneg|].
      rewrite Forall_forall in Hy, Hl |- *. intros z Hz.
      apply (Htrans x y z); auto.
Qed.

Lemma js_sort_sorted_by {A} (cmp : A → A → num) (R : A → A → Prop)
    (ok : A → Prop) (l : list A) :
  (∀ a b, ok a → ok b →
     (Num.ltb Num.zero (cmp a b) = true → R b a)
     ∧ (Num.ltb Num.zero (cmp a b) = false → R a b)) →
  (∀ a b c, ok a → ok b → ok c → R a b → R b c → R a c) →
  Forall ok l → StronglySorted R (js_sort cmp l).
Proof.
  intros Hcmp Htrans. induction l as [|x l IH]; intros Hl; [constructor|].
  apply Forall_cons in Hl as [Hx Hl]. unfold js_sort in *. cbn [foldr].
  apply (sort_insert_sorted_by cmp R ok); [done..| |by apply IH].
  by rewrite (js_sort_perm cmp l).
Qed.

Lemma by_distance_cmp (a b : PointDistance) :
  Num.nonneg (pd_distance a) → Num.nonneg (pd_distance b) →
  (Num.ltb Num.zero (by_distance a b) = true
   → Num.leb (pd_distance b) (pd_distance a) = true)
  ∧ (Num.ltb Num.zero (by_distance a b) = false
     → Num.leb (pd_distance a) (pd_distance b) = true).
Proof.
  unfold by_distance.
  destruct (pd_distance a) as [x| | |], (pd_distance b) as [y| | |];
    try done. intros _ _. cbn [Num.sub Num.neg Num.add].
  rewrite overflow_pos. split.
  - intros H%Qltb_lt. apply Qle_bool_iff. lra.
  - intros H%Qltb_ge. apply Qle_bool_iff. lra.
Qed.

Lemma pointDistances_elem (d : nat) (data : list (list num)) (i : nat)
    (pd : PointDistance) :
  dataset d data → i < length data →
  pd ∈ pointDistances data i →
  pd_index pd ∈ others data i
  ∧ pd_distance pd = directDistance data i (pd_index pd)
  ∧ Num.nonneg (pd_distance pd).
Proof.
  intros Hdata Hi Hin. unfold pointDistances in Hin.
  apply list_elem_of_fmap in Hin as (j & -> & Hj). cbn [pd_index pd_distance].
  split_and!; [done|done|].
  apply list_elem_of_filter in Hj as [_ Hj%elem_of_seq].
  apply (direct_distance_nonneg d); [done|lia..].
Qed.

Lemma pointDistances_sorted (d : nat) (data : list (list num)) (i : nat) :
  dataset d data → i < length data →
  sorted_by_distance (js_sort by_distance (pointDistances data i)).
Proof.
  intros Hdata Hi.
  apply (js_sort_sorted_by by_distance _
           (fun pd => Num.nonneg (pd_distance pd))).
  - apply by_distance_cmp.
  - intros a b c _ _ _. apply leb_transitive.
  - apply Forall_forall. intros pd Hpd.
    by apply (pointDistances_elem d data i pd Hdata Hi).
Qed.

Lemma core_index (x : num) (k len : nat) :
  1 ≤ len → Num.to_index x = Some k →
  Num.to_index (Num.min x (Num.of_Z (Z.of_nat len - 1)))
  = Some (Nat.min k (len - 1)).
Proof.
  intros Hlen Hk. pose proof Hk as Hk0.
  apply to_index_spec in Hk as (q & -> & Hqk).
  unfold Num.min, Num.of_Z. destruct (Num.ltb _ (Fin q)) eqn:E.
  - apply ltb_Fin in E. rewrite Hqk in E. rewrite <- Zlt_Qlt in E.
    rewrite to_index_inject_Z by lia. f_equal. lia.
  - apply Qltb_ge in E. rewrite Hqk in E. rewrite <- Zle_Qle in E.
    rewrite Hk0. f_equal. lia.
Qed.

Lemma sorted_lookup {A} (R : A → A → Prop) (l : list A) (i j : nat) (x y : A) :
  StronglySorted R l → i < j → l !! i = Some x → l !! j = Some y → R x y.
Proof.
  intros Hs. revert i j. induction Hs as [|z l Hs IH Hz]; intros i j; [done|].
  destruct i as [|i], j as [|j]; try lia; cbn.
  - intros _ [= ->] Hy. rewrite Forall_forall in Hz.
    apply Hz. by eapply list_elem_of_lookup_2.
  - intros Hij. apply IH. lia.
Qed.

Lemma length_filter_fmap {A B} (f : A → B) (P : B → Prop)
    `{∀ y, Decision (P y)} (l : list A) :
  length (filter P (f <$> l)) = length (filter (fun x => P (f x)) l).
Proof.
  induction l as [|x l IH]; [done|]. rewrite fmap_cons.
  rewrite !filter_cons. destruct (decide (P (f x))); cbn; by rewrite IH.
Qed.

(** the counts that make an element the one of rank [k] of a sorted
    array *)
Lemma sorted_rank (pds : list PointDistance) (k : nat) (pd : PointDistance) :
  sorted_by_distance pds →
  Forall (fun a => Num.nonneg (pd_distance a)) pds →
  pds !! k = Some pd →
  k < length (filter (fun a => Num.leb (pd_distance a) (pd_distance pd) = true)
                     pds)
  ∧ length (filter (fun a => Num.ltb (pd_distance a) (pd_distance pd) = true)
                   pds) ≤ k.
Proof.
  intros Hs Hfin Hk.
  pose proof (lookup_lt_Some _ _ _ Hk) as Hlt.
  rewrite <- (take_drop (S k) pds) at 1.
  rewrite <- (take_drop k pds) at 3.
  rewrite !filter_app, !length_app. split.
  - rewrite (filter_all _ (take (S k) pds)).
    { rewrite length_take. lia. }
    apply Forall_forall. intros a Ha.
    apply list_elem_of_lookup in Ha as [i Hi].
    pose proof (lookup_lt_Some _ _ _ Hi) as Hik. rewrite length_take in Hik.
    rewrite lookup_take_lt in Hi by lia.
    destruct (decide (i = k)) as [->|Hne].
    + assert (a = pd) as -> by congruence.
      rewrite Forall_forall in Hfin.
      pose proof (Hfin pd ltac:(by eapply list_elem_of_lookup_2)) as Hf.
      by apply leb_refl_nonneg.
    + apply (sorted_lookup _ pds i k a pd Hs); [lia|done..].
  - rewrite (filter_none _ (drop k pds)).
    { pose proof (length_filter
        (fun a => Num.ltb (pd_distance a) (pd_distance pd) = true)
        (take k pds)) as Hle.
      rewrite length_take in Hle. simpl. lia. }
    apply Forall_forall. intros a Ha.
    apply list_elem_of_lookup in Ha as [i Hi]. rewrite lookup_drop in Hi.
    rewrite Forall_forall in Hfin.
    pose proof (Hfin pd ltac:(by eapply list_elem_of_lookup_2)) as Hf.
    pose proof (Hfin a ltac:(by eapply list_elem_of_lookup_2)) as Hfa.
    assert (Hle : Num.leb (pd_distance pd) (pd_distance a) = true).
    { destruct i as [|i].
      - rewrite Nat.add_0_r in Hi. assert (a = pd) as -> by congruence.
        by apply leb_refl_nonneg.
      - apply (sorted_lookup _ pds k (k + S i) pd a Hs); [lia|done..]. }
    apply leb_not_ltb in Hle. by rewrite Hle.
Qed.

(** X9.  For [n >= 2] points and a [minSamples] whose predecessor
    [k] is an array index, the core distance of point [i] is the distance
    to another point, the one of rank [min(k, n - 2)] among the other
    points by increasing distance: more than that many other points lie
    within the core distance, and at most that many lie strictly
    nearer. *)
Theorem coreDistance_kth_nearest (d : nat) (data : list (list num))
    (ms : num) (k i : nat) :
  dataset d data → 2 ≤ length data → i < length data →
  Num.to_index (Num.sub ms Num.one) = Some k →
  ∃ c j,
    coreDistance ms data i = Ok c
    ∧ j ∈ others data i
    ∧ c = directDistance data i j
    ∧ Nat.min k (length data - 2)
      < length (filter (fun j' => Num.leb (directDistance data i j') c = true)
                       (others data i))
    ∧ length (filter (fun j' => Num.ltb (directDistance data i j') c = true)
                     (others data i))
      ≤ Nat.min k (length data - 2).
Proof.
  intros Hdata Hn Hi Hk. unfold coreDistance.
  set (pds := js_sort by_distance (pointDistances data i)).
  assert (Hperm : pds ≡ₚ pointDistances data i)
    by apply (js_sort_perm by_distance).
  assert (Hlen : length pds = length data - 1).
  { rewrite Hperm. unfold pointDistances.
    rewrite length_fmap. by apply length_others. }
  rewrite (core_index _ k (length pds)) by (done || lia).
  replace (length pds - 1) with (length data - 2) by lia.
  set (k' := Nat.min k (length data - 2)).
  destruct (lookup_lt_is_Some_2 pds k' ltac:(lia)) as [pd Hpd].
  cbn [mbind option_bind]. rewrite Hpd. cbn [defined]. rewrite bind_Ok.
  assert (Hin : pd ∈ pointDistances data i).
  { rewrite <- Hperm. by eapply list_elem_of_lookup_2. }
  destruct (pointDistances_elem d data i pd Hdata Hi Hin) as (Hj & Hd & _).
  exists (pd_distance pd), (pd_index pd). split_and!; [done..| |].
  all: assert (Hfin : Forall (fun a => Num.nonneg (pd_distance a)) pds)
    by (rewrite Hperm; apply Forall_forall; intros a Ha;
        by apply (pointDistances_elem d data i a Hdata Hi)).
  all: destruct (sorted_rank pds k' pd
                   (pointDistances_sorted d data i Hdata Hi) Hfin Hpd)
    as [Hle Hlt].
  - rewrite Hperm in Hle. unfold pointDistances in Hle.
    by rewrite length_filter_fmap in Hle.
  - rewrite Hperm in Hlt. unfold pointDistances in Hlt.
    by rewrite length_filter_fmap in Hlt.
Qed.


Lemma coreDistance_kth_nearest_witness :
  ∃ c j,
    coreDistance (Fin 2) line_3_1 0 = Ok c
    ∧ j ∈ others line_3_1 0
    ∧ c = directDistance line_3_1 0 j
    ∧ Nat.min 1 (length line_3_1 - 2)
      < length (filter (fun j' => Num.leb (directDistance line_3_1 0 j') c = true)
                       (others line_3_1 0))
    ∧ length (filter (fun j' => Num.ltb (directDistance line_3_1 0 j') c = true)
                     (others line_3_1 0))
      ≤ Nat.min 1 (length line_3_1 - 2).
Proof.
  apply (coreDistance_kth_nearest 1 line_3_1 (Fin 2) 1 0).
  - apply dataset_line_3_1.
  - simpl. lia.
  - simpl. lia.
  - reflexivity.
Defined.

(** ** The matrix of mutual reachability distances *)

Lemma mapM_lookup {A B} (f : A → result B) (l : list A) :
  ∀ ys, mapM f l = Ok ys →
  length ys = length l
  ∧ ∀ i x, l !! i = Some x → ∃ y, ys !! i = Some y ∧ f x = Ok y.
Proof.
  induction l as [|a l IH]; intros ys.
  - intros [= <-]. split; [done|]. intros i x. by rewrite lookup_nil.
  - rewrite mapM_cons. destruct (f a) as [y|] eqn:E; [|done].
    rewrite bind_Ok. destruct (mapM f l) as [ys'|] eqn:E2; [|done].
    rewrite bind_Ok. intros [= <-].
    destruct (IH ys' eq_refl) as [Hlen Hget]. split; [simpl; lia|].
    intros [|i] x; cbn.
    + intros [= <-]. by exists y.
    + apply Hget.
Qed.

Lemma finite_list (p : list num) :
  Forall Num.finite p → ∃ a : list Q, p = Fin <$> a.
Proof.
  induction 1 as [|x p Hx _ [a ->]]; [by exists []|].
  destruct x as [q| | |]; try done. by exists (q :: a).
Qed.

Lemma Fin_fmap_inj (a b : list Q) : Fin <$> a = Fin <$> b → a = b.
Proof.
  revert b. induction a as [|x a IH]; intros [|y b]; try done.
  rewrite !fmap_cons. intros [= -> H]. f_equal. by apply IH.
Qed.

Lemma directDistance_value (d : nat) (data : list (list num)) (i j : nat) :
  dataset d data → i < length data → j < length data →
  Num.nonneg (directDistance data i j)
  ∧ Num.eqv (directDistance data i j) (directDistance data j i)
  ∧ (i = j → Num.eqv (directDistance data i j) Num.zero).
Proof.
  intros Hdata Hi Hj. unfold directDistance.
  destruct (dataset_row d data i Hdata Hi) as [Hli Hfi].
  destruct (dataset_row d data j Hdata Hj) as [Hlj Hfj].
  destruct (finite_list _ Hfi) as [a Ha]. destruct (finite_list _ Hfj) as [b Hb].
  rewrite Ha, Hb in *. rewrite length_fmap in Hli, Hlj.
  split_and!.
  - apply euclideanDistance_nonneg; [done..|]. rewrite !length_fmap. lia.
  - apply (euclideanDistance_fold_sym a b 0 Num.zero Num.zero [] []);
      try done. lia.
  - intros ->. assert (a = b) as ->.
    { apply Fin_fmap_inj. congruence. }
    by apply (euclideanDistance_fold_self b 0 Num.zero []).
Qed.

(** X10.  For [n >= 2] points and a [minSamples] whose predecessor
    is an array index, the matrix has [n] rows; its entry [i][j] is the
    largest of the direct distance and the two core distances, so it is
    at least each of them; the matrix is symmetric, and the diagonal entry
    of a point is its core distance. *)
Theorem computeMutualReachabilityDistance_matrix (d : nat) (this : HDBSCAN)
    (data : list (list num)) (k : nat) :
  dataset d data → 2 ≤ length data →
  Num.to_index (Num.sub (minSamples this) Num.one) = Some k →
  ∃ m,
    computeMutualReachabilityDistance this data
    = Ok (set_mutualReachabilityDistance m this, m)
    ∧ length m = length data
    ∧ ∀ i j, i < length data → j < length data →
        ∃ ci cj,
          coreDistance (minSamples this) data i = Ok ci
          ∧ coreDistance (minSamples this) data j = Ok cj
          ∧ mget m i j = max3 (directDistance data i j) ci cj
          ∧ Num.eqv (mget m i j) (mget m j i)
          ∧ Num.leb (directDistance data i j) (mget m i j) = true
          ∧ Num.leb ci (mget m i j) = true
          ∧ Num.leb cj (mget m i j) = true
          ∧ Num.eqv (mget m i i) ci.
Proof.
  intros Hdata Hn Hk. unfold computeMutualReachabilityDistance.
  destruct (coreDistances_ok d data (minSamples this) k (seq 0 (length data))
              Hdata Hn Hk) as [cs Hcs].
  { apply Forall_forall. intros i Hi%elem_of_seq. lia. }
  rewrite Hcs, bind_Ok. eexists. split; [reflexivity|].
  rewrite length_fmap, length_seq. split; [done|].
  destruct (mapM_lookup _ _ cs Hcs) as [Hlen Hget]. rewrite length_seq in Hlen.
  assert (Hcore : ∀ i, i < length data →
            ∃ c, coreDistance (minSamples this) data i = Ok c
                 ∧ get cs i = c ∧ Num.nonneg c).
  { intros i Hi. destruct (Hget i i) as (c & Hc & Hci).
    { by apply lookup_seq_lt. }
    destruct (coreDistance_result d data (minSamples this) i Hdata Hi)
      as [(c' & Hc' & Hnn)|Herr]; [|congruence].
    assert (c' = c) as -> by congruence.
    exists c. split_and!; [done| |done].
    unfold get. by rewrite Hc. }
  assert (Hentry : ∀ i j, i < length data → j < length data →
            mget ((fun i0 =>
                     (fun j0 =>
                        max3 (euclideanDistance (default [] (data !! i0))
                                                (default [] (data !! j0)))
                             (get cs i0) (get cs j0))
                     <$> seq 0 (length data))
                  <$> seq 0 (length data)) i j
            = max3 (directDistance data i j) (get cs i) (get cs j)).
  { intros i j Hi Hj. unfold mget.
    rewrite list_lookup_fmap, lookup_seq_lt by done. cbn [fmap option_fmap option_map from_option Datatypes.id].
    unfold get at 1. rewrite list_lookup_fmap, lookup_seq_lt by done.
    reflexivity. }
  intros i j Hi Hj.
  destruct (Hcore i Hi) as (ci & Hci & Hgi & Hni).
  destruct (Hcore j Hj) as (cj & Hcj & Hgj & Hnj).
  exists ci, cj.
  rewrite !Hentry by done. rewrite Hgi, Hgj.
  destruct (directDistance_value d data i j Hdata Hi Hj) as (Hq & Hqr & _).
  destruct (directDistance_value d data j i Hdata Hj Hi) as (Hr & Hrq & _).
  destruct (directDistance_value d data i i Hdata Hi Hi) as (Hz & _ & Hz0).
  specialize (Hz0 eq_refl).
  destruct (max3_lub _ _ _ Hq Hni Hnj) as (Hn1 & H1a & H1b & H1c & Hm1).
  destruct (max3_lub _ _ _ Hr Hnj Hni) as (Hn2 & H2a & H2b & H2c & Hm2).
  destruct (max3_lub _ _ _ Hz Hni Hni) as (Hn3 & H3a & H3b & H3c & Hm3).
  split_and!; try done.
  - apply eqv_leb; [done..| |].
    + destruct Hm1 as [E|[E|E]]; rewrite E; [|done..].
      exact (leb_eqv _ _ _ _ Hrq (eqv_refl _) H2a).
    + destruct Hm2 as [E|[E|E]]; rewrite E; [|done..].
      exact (leb_eqv _ _ _ _ Hqr (eqv_refl _) H1a).
  - apply eqv_leb; [done..| |done].
    destruct Hm3 as [E|[E|E]]; rewrite E; [|by apply leb_refl_nonneg..].
    destruct ci as [q| | |]; try done;
      destruct (directDistance data i i) as [z| | |]; try done.
    apply leb_Fin. simpl in Hz0, Hni. lra.
Qed.

Lemma computeMutualReachabilityDistance_matrix_witness :
  ∃ h m,
    constructor (params 2 2) = Ok h
    ∧ computeMutualReachabilityDistance h line_3_1
      = Ok (set_mutualReachabilityDistance m h, m)
    ∧ length m = length line_3_1
    ∧ ∀ i j, i < length line_3_1 → j < length line_3_1 →
        ∃ ci cj,
          coreDistance (minSamples h) line_3_1 i = Ok ci
          ∧ coreDistance (minSamples h) line_3_1 j = Ok cj
          ∧ mget m i j = max3 (directDistance line_3_1 i j) ci cj
          ∧ Num.eqv (mget m i j) (mget m j i)
          ∧ Num.leb (directDistance line_3_1 i j) (mget m i j) = true
          ∧ Num.leb ci (mget m i j) = true
          ∧ Num.leb cj (mget m i j) = true
          ∧ Num.eqv (mget m i i) ci.
Proof.
  eexists.
  destruct (computeMutualReachabilityDistance_matrix 1
              (mkHDBSCAN false (Fin 2) (Fin 2) [] [] 0 [] true [])
              line_3_1 1 dataset_line_3_1 ltac:(simpl; lia) eq_refl)
    as (m & Hm).
  exists m. split; [reflexivity|exact Hm].
Defined.

(** ** The tree of [buildMinimumSpanningTree] *)

Lemma prim_order_weight (m : list (list num)) (n : nat) (vis : gset nat)
    (es : list Edge) :
  prim_order m n vis es →
  ∀ e, e ∈ es → weight e = mget m (source e) (destination e).
Proof.
  induction 1 as [|vis u v w es _ _ _ -> _ _ _ IH]; intros e He.
  - by apply not_elem_of_nil in He.
  - apply elem_of_cons in He as [->|He]; [done|by apply IH].
Qed.

Lemma tree_order_destinations (n : nat) (vis : gset nat) (es : list Edge) :
  tree_order n vis es →
  NoDup (destination <$> es)
  ∧ ∀ v, v ∈ destination <$> es → v ∉ vis ∧ v < n.
Proof.
  induction 1 as [|vis u v w es Hu Hv Hvn _ [IHnd IHin]].
  - split; [constructor|]. intros v Hv. by apply not_elem_of_nil in Hv.
  - rewrite fmap_cons. cbn [destination fst snd]. split.
    + constructor; [|done]. intros Hin. apply IHin in Hin as [Hin _].
      set_solver.
    + intros x [->|Hx]%elem_of_cons; [done|].
      apply IHin in Hx as [Hx ?]. split; [set_solver|done].
Qed.

Lemma tree_order_reach (n : nat) (vis : gset nat) (es : list Edge) :
  tree_order n vis es →
  ∀ v, v ∈ destination <$> es → ∃ u, u ∈ vis ∧ connected es u v.
Proof.
  induction 1 as [|vis u v w es Hu Hv Hvn _ IH]; intros x Hx.
  - by apply not_elem_of_nil in Hx.
  - rewrite fmap_cons in Hx. cbn [destination fst snd] in Hx.
    assert (Huv : connected ((u, v, w) :: es) u v).
    { apply (connected_edge _ (u, v, w)). by left. }
    apply elem_of_cons in Hx as [->|Hx]; [by exists u|].
    destruct (IH x Hx) as (u' & Hu' & Hconn).
    assert (Hconn' : connected ((u, v, w) :: es) u' x).
    { eapply connected_mono; [|exact Hconn]. intros e He. by right. }
    apply elem_of_union in Hu' as [->%elem_of_singleton|Hu'].
    + exists u. split; [done|]. by etrans.
    + by exists u'.
Qed.

Lemma prim_result (m : list (list num)) :
  2 ≤ length m → square_finite m →
  ∃ es, buildMinimumSpanningTree m = Ok es
        ∧ length es = length m - 1
        ∧ prim_order m (length m) {[0]} es.
Proof.
  intros Hn Hm. unfold buildMinimumSpanningTree.
  destruct (prim_init_inv m ltac:(lia) Hm) as (Hinv & Hv & He).
  destruct (prim_while_spec m (S (length m)) (prim_init m) Hm Hinv)
    as (es & Hrun & Hlen & Hord).
  { rewrite Hv, size_singleton. lia. }
  exists es. rewrite Hrun, He, Hv in *. rewrite size_singleton in Hlen.
  done.
Qed.

(** the edges of a tree grown from vertex 0 over [n] vertices span them *)
Lemma tree_order_spanning (n : nat) (es : list Edge) :
  2 ≤ n → length es = n - 1 → tree_order n {[0]} es →
  (∀ e, e ∈ es →
     source e < n ∧ destination e < n ∧ source e ≠ destination e)
  ∧ destination <$> es ≡ₚ seq 1 (n - 1)
  ∧ (∀ u v, u < n → v < n → connected es u v)
  ∧ (∀ l1 e l2, es = l1 ++ e :: l2 →
       ¬ connected (l1 ++ l2) (source e) (destination e)).
Proof.
  intros Hn Hlen Htree.
  destruct (tree_order_destinations _ _ _ Htree) as [Hnd Hdest].
  assert (Hperm : destination <$> es ≡ₚ seq 1 (n - 1)).
  { apply submseteq_length_Permutation.
    - apply NoDup_submseteq; [done|]. intros v Hv.
      apply Hdest in Hv as [Hv0 Hv]. apply elem_of_seq.
      assert (v ≠ 0) by set_solver. lia.
    - rewrite length_seq, length_fmap. lia. }
  assert (Hzero : ∀ v, v < n → connected es 0 v).
  { intros v Hv. destruct (decide (v = 0)) as [->|Hne]; [done|].
    destruct (tree_order_reach _ _ _ Htree v) as (u & ->%elem_of_singleton & Hc);
      [|done].
    rewrite Hperm. apply elem_of_seq. lia. }
  split_and!; [|done| |].
  - intros e He.
    destruct (tree_order_bound _ _ _ Htree) with (e := e) as (? & ? & ?);
      [|done|done].
    intros x ->%elem_of_singleton. lia.
  - intros u v Hu Hv. etrans; [symmetry; by apply Hzero|by apply Hzero].
  - intros l1 e l2 ->. by apply (tree_order_separated _ _ _ l1 l2 e Htree).
Qed.

(** X11.  For a square matrix of finite weights over [n >= 2] points
    the edges that [buildMinimumSpanningTree] returns form a spanning
    tree: each edge [(u, v, w)] joins two different vertices below [n]
    and carries the weight [m[u][v]]; every vertex from 1 to [n - 1] is
    the destination of exactly one edge; any two vertices are connected
    by the edges; and without any one of the edges, the two ends of that
    edge are no longer connected. *)
Theorem buildMinimumSpanningTree_spanning_tree (m : list (list num)) :
  2 ≤ length m → square_finite m →
  ∃ es,
    buildMinimumSpanningTree m = Ok es
    ∧ (∀ e, e ∈ es →
         source e < length m ∧ destination e < length m
         ∧ source e ≠ destination e
         ∧ weight e = mget m (source e) (destination e))
    ∧ destination <$> es ≡ₚ seq 1 (length m - 1)
    ∧ (∀ u v, u < length m → v < length m → connected es u v)
    ∧ (∀ l1 e l2, es = l1 ++ e :: l2 →
         ¬ connected (l1 ++ l2) (source e) (destination e)).
Proof.
  intros Hn Hm. destruct (prim_result m Hn Hm) as (es & Hrun & Hlen & Hord).
  pose proof (prim_order_tree _ _ _ _ Hord) as Htree.
  destruct (tree_order_spanning (length m) es Hn Hlen Htree)
    as (Hends & Hperm & Hconn & Hsep).
  exists es. split_and!; try done.
  intros e He. destruct (Hends e He) as (? & ? & ?).
  split_and!; [done..|]. by apply (prim_order_weight m _ _ es Hord).
Qed.

Lemma buildMinimumSpanningTree_spanning_tree_witness :
  ∃ es,
    buildMinimumSpanningTree matrix_3_1 = Ok es
    ∧ (∀ e, e ∈ es →
         source e < length matrix_3_1 ∧ destination e < length matrix_3_1
         ∧ source e ≠ destination e
         ∧ weight e = mget matrix_3_1 (source e) (destination e))
    ∧ destination <$> es ≡ₚ seq 1 (length matrix_3_1 - 1)
    ∧ (∀ u v, u < length matrix_3_1 → v < length matrix_3_1 →
         connected es u v)
    ∧ (∀ l1 e l2, es = l1 ++ e :: l2 →
         ¬ connected (l1 ++ l2) (source e) (destination e)).
Proof.
  apply (buildMinimumSpanningTree_spanning_tree matrix_3_1).
  - simpl. lia.
  - unfold square_finite. repeat (constructor; [by repeat constructor|]).
    constructor.
Defined.

(** X12.  For a square matrix over [n >= 2] points whose entries
    are not negative and may be [Infinity], the [while] loop of
    [buildMinimumSpanningTree] never exits, which is when a pass finds no
    unvisited vertex at a distance below [Infinity], or the method
    returns a spanning tree of [n - 1] edges whose weights are finite
    entries [m[u][v]] of the matrix. *)
Theorem buildMinimumSpanningTree_tree_or_spins (m : list (list num)) :
  2 ≤ length m → square_nonneg m →
  (prim_spins m ↔ buildMinimumSpanningTree m = Err Diverge)
  ∧ (prim_spins m
     ∨ ∃ es,
         buildMinimumSpanningTree m = Ok es
         ∧ length es = length m - 1
         ∧ (∀ e, e ∈ es →
              source e < length m ∧ destination e < length m
              ∧ source e ≠ destination e
              ∧ weight e = mget m (source e) (destination e)
              ∧ Num.finite (weight e))
         ∧ destination <$> es ≡ₚ seq 1 (length m - 1)
         ∧ (∀ u v, u < length m → v < length m → connected es u v)
         ∧ (∀ l1 e l2, es = l1 ++ e :: l2 →
              ¬ connected (l1 ++ l2) (source e) (destination e))).
Proof.
  intros Hn Hm.
  destruct (buildMinimumSpanningTree_reach m Hn Hm)
    as [[Hrun Hspin]|(es & Hrun & Hmst & Hw)].
  - split; [done|by left].
  - split.
    + split; [|by rewrite Hrun].
      intros Hspin. exfalso.
      pose proof (prim_spins_diverges m (S (length m)) Hspin) as Hdiv.
      unfold buildMinimumSpanningTree in Hrun. congruence.
    + right. pose proof (mst_length _ _ Hmst) as Hlen.
      destruct (tree_order_spanning (length m) es Hn ltac:(lia)
                  (mst_tree _ _ Hmst)) as (Hends & Hperm & Hconn & Hsep).
      exists es. split_and!; try done; [lia|].
      intros e He. destruct (Hends e He) as (? & ? & ?).
      unfold weights_of in Hw. rewrite Forall_forall in Hw.
      pose proof (mst_finite _ _ Hmst) as Hfin.
      unfold finite_weights in Hfin. rewrite Forall_forall in Hfin.
      split_and!; auto.
Qed.

Lemma buildMinimumSpanningTree_tree_or_spins_witness :
  (prim_spins [[Fin 0; PInf]; [PInf; Fin 0]]
   ↔ buildMinimumSpanningTree [[Fin 0; PInf]; [PInf; Fin 0]] = Err Diverge)
  ∧ (prim_spins [[Fin 0; PInf]; [PInf; Fin 0]]
     ∨ ∃ es,
         buildMinimumSpanningTree [[Fin 0; PInf]; [PInf; Fin 0]] = Ok es
         ∧ length es = length [[Fin 0; PInf]; [PInf; Fin 0]] - 1
         ∧ (∀ e, e ∈ es →
              source e < length [[Fin 0; PInf]; [PInf; Fin 0]]
              ∧ destination e < length [[Fin 0; PInf]; [PInf; Fin 0]]
              ∧ source e ≠ destination e
              ∧ weight e
                = mget [[Fin 0; PInf]; [PInf; Fin 0]] (source e) (destination e)
              ∧ Num.finite (weight e))
         ∧ destination <$> es
           ≡ₚ seq 1 (length [[Fin 0; PInf]; [PInf; Fin 0]] - 1)
         ∧ (∀ u v, u < length [[Fin 0; PInf]; [PInf; Fin 0]] →
              v < length [[Fin 0; PInf]; [PInf; Fin 0]] → connected es u v)
         ∧ (∀ l1 e l2, es = l1 ++ e :: l2 →
              ¬ connected (l1 ++ l2) (source e) (destination e))).
Proof.
  apply (buildMinimumSpanningTree_tree_or_spins [[Fin 0; PInf]; [PInf; Fin 0]]).
  - simpl. lia.
  - unfold square_nonneg. repeat (constructor; [by repeat constructor|]).
    constructor.
Defined.

(** ** [getMinReachability] and [createCluster] *)

Lemma fold_min_spec (point : nat) (l : list Edge) :
  Forall (fun e => (source e = point ∨ destination e = point)
                   ∧ Num.finite (weight e)) l →
  let r := foldl (fun min e =>
                    if bool_decide (source e = point ∨ destination e = point)
                    then Num.min min (weight e) else min)
                 PInf l in
  (l = [] ∧ r = PInf)
  ∨ ∃ e, e ∈ l ∧ r = weight e
         ∧ ∀ e', e' ∈ l → Num.leb (weight e) (weight e') = true.
Proof.
  induction l as [|x l IH] using rev_ind; intros Hall r; [by left|].
  right. apply Forall_app in Hall as [Hall Hx].
  apply Forall_singleton in Hx as [Hx Hfx].
  subst r. rewrite foldl_app. cbn [foldl]. rewrite bool_decide_true by done.
  destruct (weight x) as [b| | |] eqn:Hwx; try done.
  destruct (IH Hall) as [[-> ->]|(e & He & -> & Hmin)].
  - exists x. split_and!; [set_solver|by rewrite Hwx|].
    intros e' ->%list_elem_of_singleton. rewrite Hwx. apply leb_refl_Fin.
  - rewrite Forall_forall in Hall. destruct (Hall e He) as [_ Hfe].
    destruct (weight e) as [a| | |] eqn:Hwe; try done.
    unfold Num.min. destruct (Num.ltb (Fin b) (Fin a)) eqn:E.
    + exists x. split_and!; [set_solver|by rewrite Hwx|].
      intros e' [He'| ->%list_elem_of_singleton]%elem_of_app.
      * rewrite Hwx. specialize (Hmin e' He').
        destruct (Hall e' He') as [_ Hfe'].
        destruct (weight e') as [c| | |]; try done.
        apply ltb_leb_Fin. by eapply ltb_leb_trans.
      * rewrite Hwx. apply leb_refl_Fin.
    + exists e. split_and!; [set_solver|by rewrite Hwe|].
      intros e' [He'| ->%list_elem_of_singleton]%elem_of_app.
      * rewrite Hwe. by apply Hmin.
      * rewrite Hwe, Hwx. by apply leb_ltb_Fin.
Qed.

Lemma getMinReachability_spec (point : nat) (clusterPoints : list nat)
    (es : list Edge) :
  finite_weights es →
  (relevantEdges point clusterPoints es = []
   ∧ getMinReachability point clusterPoints es = PInf)
  ∨ ∃ e, e ∈ relevantEdges point clusterPoints es
         ∧ getMinReachability point clusterPoints es = weight e
         ∧ ∀ e', e' ∈ relevantEdges point clusterPoints es →
             Num.leb (weight e) (weight e') = true.
Proof.
  intros Hfin. unfold getMinReachability. fold (relevantEdges point clusterPoints es).
  apply fold_min_spec. apply Forall_forall. intros e He.
  unfold relevantEdges in He. apply list_elem_of_filter in He as [[He _] Hin].
  split; [done|]. unfold finite_weights in Hfin. rewrite Forall_forall in Hfin.
  by apply Hfin.
Qed.

(** X13.  For edges of finite weight, [getMinReachability] is the
    least weight of the edges at the point that have both ends in the
    cluster: the weight of one of them, not above the weight of any; with
    no such edge it is [Infinity]. *)
Theorem getMinReachability_least (point : nat) (clusterPoints : list nat)
    (es : list Edge) :
  finite_weights es →
  (relevantEdges point clusterPoints es = [] →
   getMinReachability point clusterPoints es = PInf)
  ∧ (relevantEdges point clusterPoints es ≠ [] →
     ∃ e, e ∈ es
          ∧ (source e = point ∨ destination e = point)
          ∧ source e ∈ clusterPoints ∧ destination e ∈ clusterPoints
          ∧ getMinReachability point clusterPoints es = weight e
          ∧ ∀ e', e' ∈ relevantEdges point clusterPoints es →
              Num.leb (weight e) (weight e') = true).
Proof.
  intros Hfin.
  destruct (getMinReachability_spec point clusterPoints es Hfin)
    as [[Hnil Hr]|(e & He & Hr & Hmin)].
  - split; [done|]. by intros [].
  - split; [intros Hnil; rewrite Hnil in He; by apply not_elem_of_nil in He|].
    intros _. exists e. pose proof He as He'. unfold relevantEdges in He'.
    apply list_elem_of_filter in He' as [(? & ? & ?) ?]. done.
Qed.

Lemma getMinReachability_least_witness :
  getMinReachability 3 [0; 1] [(0, 1, Fin 2); (1, 2, Fin 1)] = PInf
  ∧ ∃ e, e ∈ [(0, 1, Fin 2); (1, 2, Fin 1)]
         ∧ (source e = 1 ∨ destination e = 1)
         ∧ source e ∈ [0; 1; 2] ∧ destination e ∈ [0; 1; 2]
         ∧ getMinReachability 1 [0; 1; 2] [(0, 1, Fin 2); (1, 2, Fin 1)]
           = weight e
         ∧ ∀ e', e' ∈ relevantEdges 1 [0; 1; 2] [(0, 1, Fin 2); (1, 2, Fin 1)] →
             Num.leb (weight e) (weight e') = true.
Proof.
  assert (Hfin : finite_weights [(0, 1, Fin 2); (1, 2, Fin 1)])
    by (by repeat constructor).
  destruct (getMinReachability_least 3 [0; 1] _ Hfin) as [H1 _].
  destruct (getMinReachability_least 1 [0; 1; 2] _ Hfin) as [_ H2].
  split; [apply H1; reflexivity|apply H2; by vm_compute].
Defined.

Lemma minReach_finite (point : nat) (clusterPoints : list nat) (es : list Edge) :
  finite_weights es → Num.finite (minReach point clusterPoints es).
Proof.
  intros Hfin. unfold minReach.
  destruct (getMinReachability_spec point clusterPoints es Hfin)
    as [[_ ->]|(e & He & -> & _)]; [done|].
  unfold relevantEdges in He. apply list_elem_of_filter in He as [_ He].
  unfold finite_weights in Hfin. rewrite Forall_forall in Hfin.
  specialize (Hfin e He). by destruct (weight e).
Qed.

Lemma max_cases (x y : num) :
  Num.finite x → Num.finite y →
  (Num.max x y = x ∧ Num.leb y x = true)
  ∨ (Num.max x y = y ∧ Num.leb x y = true).
Proof.
  destruct x as [a| | |], y as [b| | |]; try done. intros _ _.
  unfold Num.max. destruct (Num.ltb (Fin a) (Fin b)) eqn:E.
  - right. split; [done|]. by apply ltb_leb_Fin.
  - left. split; [done|]. by apply leb_ltb_Fin.
Qed.

Lemma leb_trans (a b c : num) :
  Num.finite a → Num.finite b → Num.finite c →
  Num.leb a b = true → Num.leb b c = true → Num.leb a c = true.
Proof.
  destruct a, b, c; try done. intros _ _ _. apply leb_trans_Fin.
Qed.

Lemma createCluster_fold (points : list nat) (es : list Edge) (todo : list nat) :
  finite_weights es →
  ∀ (done : list nat) (mrm : gmap nat num) (lw : num),
  (∀ p, p ∈ done → mrm !! p = Some (minReach p points es)) →
  (∀ p, p ∉ done → mrm !! p = None) →
  Num.finite lw → Num.leb Num.zero lw = true →
  (∀ p, p ∈ done → Num.leb (minReach p points es) lw = true) →
  (lw = Num.zero ∨ ∃ p, p ∈ done ∧ minReach p points es = lw) →
  ∃ mrm' lw',
    foldl (fun '(minReachMap, leaveEdgeWeight) p =>
             let minReach := getMinReachability p points es in
             let minReach := if Num.is_PInf minReach then Num.zero else minReach in
             (<[p := minReach]> minReachMap, Num.max leaveEdgeWeight minReach))
          (mrm, lw) todo
    = (mrm', lw')
    ∧ (∀ p, p ∈ done ++ todo → mrm' !! p = Some (minReach p points es))
    ∧ (∀ p, p ∉ done ++ todo → mrm' !! p = None)
    ∧ Num.finite lw' ∧ Num.leb Num.zero lw' = true
    ∧ (∀ p, p ∈ done ++ todo → Num.leb (minReach p points es) lw' = true)
    ∧ (lw' = Num.zero ∨ ∃ p, p ∈ done ++ todo ∧ minReach p points es = lw').
Proof.
  intros Hfin. induction todo as [|x todo IH];
    intros done mrm lw Hin Hout Hflw Hlw Hle Hmax.
  - exists mrm, lw. rewrite app_nil_r. done.
  - cbn [foldl]. fold (minReach x points es).
    pose proof (minReach_finite x points es Hfin) as Hfx.
    replace (done ++ x :: todo) with ((done ++ [x]) ++ todo)
      by (by rewrite <- app_assoc).
    assert (Hfm : Num.finite (Num.max lw (minReach x points es)))
      by (by apply max_finite).
    apply (IH (done ++ [x])).
    + intros p [Hp| ->%list_elem_of_singleton]%elem_of_app.
      * destruct (decide (p = x)) as [->|Hne].
        -- by rewrite lookup_insert_eq.
        -- rewrite lookup_insert_ne by done. by apply Hin.
      * by rewrite lookup_insert_eq.
    + intros p Hp. rewrite lookup_insert_ne by set_solver.
      apply Hout. set_solver.
    + done.
    + destruct (max_cases lw _ Hflw Hfx) as [[-> _]|[-> H1]]; [done|].
      by apply (leb_trans _ lw).
    + intros p [Hp| ->%list_elem_of_singleton]%elem_of_app.
      * pose proof (minReach_finite p points es Hfin) as Hfp.
        destruct (max_cases lw _ Hflw Hfx) as [[-> _]|[-> H1]]; [by apply Hle|].
        apply (leb_trans _ lw); auto.
      * destruct (max_cases lw _ Hflw Hfx) as [[-> H1]|[-> _]]; [done|].
        destruct (minReach x points es); try done. apply leb_refl_Fin.
    + destruct (max_cases lw _ Hflw Hfx) as [[-> _]|[-> _]].
      * destruct Hmax as [->|(p & Hp & Hpv)]; [by left|].
        right. exists p. split; [set_solver|done].
      * right. exists x. split; [set_solver|done].
Qed.

(** X14.  [createCluster] gives the cluster the next [id] and
    advances the counter; for edges of finite weight its
    [minReachabilityMap] has an entry for each of its points and for no
    other: the point's least reachability, or [0] where the point has no
    edge inside the cluster; and its [leaveEdgeWeight] is the largest
    entry: not below any entry, and either [0] or the entry of some
    point. *)
Theorem createCluster_reachability (this : HDBSCAN) (points : list nat)
    (dist : num) (es : list Edge) (birth : num) :
  finite_weights es →
  ∃ c,
    createCluster this points dist es birth
    = (set_nextClusterId (S (nextClusterId this)) this, c)
    ∧ id c = nextClusterId this
    ∧ children c = points ∧ size c = length points
    ∧ maxEdgeWeight c = dist ∧ birthDistance c = birth
    ∧ (∀ p, p ∈ points →
         minReachabilityMap c !! p
         = Some (if Num.is_PInf (getMinReachability p points es)
                 then Num.zero else getMinReachability p points es))
    ∧ (∀ p, p ∉ points → minReachabilityMap c !! p = None)
    ∧ Num.leb Num.zero (leaveEdgeWeight c) = true
    ∧ (∀ p v, minReachabilityMap c !! p = Some v →
         Num.leb v (leaveEdgeWeight c) = true)
    ∧ (leaveEdgeWeight c = Num.zero
       ∨ ∃ p, p ∈ points
              ∧ minReachabilityMap c !! p = Some (leaveEdgeWeight c)).
Proof.
  intros Hfin.
  destruct (createCluster_fold points es points Hfin [] ∅ Num.zero)
    as (mrm & lw & Hfold & Hin & Hout & Hflw & Hlw & Hle & Hmax); try done.
  { intros p Hp. by apply not_elem_of_nil in Hp. }
  { intros p Hp. by apply not_elem_of_nil in Hp. }
  { by left. }
  rewrite app_nil_l in *.
  unfold createCluster. destruct (foldl _ _ points) as [m l].
  injection Hfold as -> ->.
  eexists. split; [reflexivity|].
  cbn [id children size maxEdgeWeight birthDistance minReachabilityMap
       leaveEdgeWeight].
  split_and!; try done.
  - intros p v Hpv. destruct (decide (p ∈ points)) as [Hp|Hp].
    + rewrite (Hin p Hp) in Hpv. injection Hpv as <-. by apply Hle.
    + by rewrite (Hout p Hp) in Hpv.
  - destruct Hmax as [->|(p & Hp & Hpv)]; [by left|].
    right. exists p. split; [done|]. rewrite <- Hpv. by apply Hin.
Qed.

Lemma createCluster_reachability_witness :
  ∃ c,
    createCluster (mkHDBSCAN false (Fin 2) (Fin 2) [] [] 4 [] true [])
      [0; 1; 2] (Fin 9) [(0, 1, Fin 2); (1, 2, Fin 1)] (Fin 9)
    = (set_nextClusterId 5
         (mkHDBSCAN false (Fin 2) (Fin 2) [] [] 4 [] true []), c)
    ∧ id c = 4
    ∧ children c = [0; 1; 2] ∧ size c = 3
    ∧ maxEdgeWeight c = Fin 9 ∧ birthDistance c = Fin 9
    ∧ (∀ p, p ∈ [0; 1; 2] →
         minReachabilityMap c !! p
         = Some (if Num.is_PInf
                      (getMinReachability p [0; 1; 2]
                         [(0, 1, Fin 2); (1, 2, Fin 1)])
                 then Num.zero
                 else getMinReachability p [0; 1; 2]
                        [(0, 1, Fin 2); (1, 2, Fin 1)]))
    ∧ (∀ p, p ∉ [0; 1; 2] → minReachabilityMap c !! p = None)
    ∧ Num.leb Num.zero (leaveEdgeWeight c) = true
    ∧ (∀ p v, minReachabilityMap c !! p = Some v →
         Num.leb v (leaveEdgeWeight c) = true)
    ∧ (leaveEdgeWeight c = Num.zero
       ∨ ∃ p, p ∈ [0; 1; 2]
              ∧ minReachabilityMap c !! p = Some (leaveEdgeWeight c)).
Proof.
  apply (createCluster_reachability
           (mkHDBSCAN false (Fin 2) (Fin 2) [] [] 4 [] true [])
           [0; 1; 2] (Fin 9) [(0, 1, Fin 2); (1, 2, Fin 1)] (Fin 9)).
  by repeat constructor.
Defined.

(** ** [splitClusterAtEdge] *)

Lemma find_total (parent : list nat) (x : nat) :
  uf_forest parent →
  (∃ r parent', find x parent = Ok (r, parent')
                ∧ length parent' = length parent
                ∧ parent' !! r = Some r
                ∧ uf_forest parent')
  ∨ (length parent ≤ x
     ∧ find x parent
       = Err (Thrown "find called with x greater than parent array length")).
Proof.
  intros Hforest. destruct (decide (x < length parent)) as [Hx|Hx].
  - left. destruct (find_spec parent x Hforest Hx)
      as (r & parent' & Hfind & Hroot & Hlen & Hforest' & Hsame).
    exists r, parent'. split_and!; try done.
    apply (uf_root_lt parent' x r). by apply Hsame.
  - right. split; [lia|]. unfold find. cbn [find_rec].
    rewrite bool_decide_true by lia. done.
Qed.

Lemma find_spec_or_throw (parent : list nat) (x rx : nat) :
  uf_forest parent → parent !! rx = Some rx →
  (∃ r parent', find x parent = Ok (r, parent')
                ∧ length parent' = length parent
                ∧ parent' !! r = Some r
                ∧ parent' !! rx = Some rx
                ∧ uf_forest parent')
  ∨ find x parent
    = Err (Thrown "find called with x greater than parent array length").
Proof.
  intros Hforest Hrx. destruct (decide (x < length parent)) as [Hx|Hx].
  - left. destruct (find_spec parent x Hforest Hx)
      as (r & parent' & Hfind & Hroot & Hlen & Hforest' & Hsame).
    exists r, parent'. split_and!; try done.
    + apply (uf_root_lt parent' x r). by apply Hsame.
    + apply (uf_root_lt parent' rx rx). apply Hsame. by apply uf_root_self.
  - right. unfold find. cbn [find_rec].
    rewrite bool_decide_true by lia. done.
Qed.

Lemma split_union_total (points parent : list nat) (e : Edge) :
  uf_forest parent →
  (∃ parent', split_union points parent e = Ok parent'
              ∧ length parent' = length parent ∧ uf_forest parent')
  ∨ split_union points parent e
    = Err (Thrown "find called with x greater than parent array length").
Proof.
  intros Hforest. unfold split_union.
  destruct (includes points (source e) && includes points (destination e));
    [|left; by exists parent].
  destruct (find_total parent (source e) Hforest)
    as [(rx & p1 & -> & Hl1 & Hrx & Hf1)|[_ ->]]; [|by right].
  rewrite bind_Ok. cbn beta iota.
  destruct (find_spec_or_throw p1 (destination e) rx Hf1 Hrx)
    as [(ry & p2 & -> & Hl2 & Hry & Hrx2 & Hf2)| ->]; [|by right].
  rewrite bind_Ok. cbn beta iota. left.
  case_bool_decide as Hne.
  - destruct (uf_link p2 rx ry Hrx2 Hry Hne Hf2) as [Hf3 _].
    eexists. split; [reflexivity|]. rewrite length_insert. split; [lia|done].
  - eexists. split; [reflexivity|]. split; [lia|done].
Qed.

Lemma split_union_fold_total (points : list nat) (es : list Edge) :
  ∀ parent, uf_forest parent →
  (∃ parent', foldM (split_union points) parent es = Ok parent'
              ∧ length parent' = length parent ∧ uf_forest parent')
  ∨ foldM (split_union points) parent es
    = Err (Thrown "find called with x greater than parent array length").
Proof.
  induction es as [|e es IH]; intros parent Hforest; [left; by exists parent|].
  cbn [foldM].
  destruct (split_union_total points parent e Hforest)
    as [(p1 & -> & Hl1 & Hf1)| ->]; [|by right].
  rewrite bind_Ok. destruct (IH p1 Hf1) as [(p2 & -> & Hl2 & Hf2)| ->];
    [|by right].
  left. exists p2. split_and!; [done|lia|done].
Qed.

Lemma split_group_throws (points : list nat) :
  ∀ (parent : list nat) (components : list (nat * list nat)),
  uf_forest parent →
  Exists (fun p => length parent ≤ p) points →
  foldM split_group (parent, components) points
  = Err (Thrown "find called with x greater than parent array length").
Proof.
  induction points as [|p points IH]; intros parent components Hforest Hex.
  - by apply Exists_nil in Hex.
  - cbn [foldM]. rewrite split_group_eq.
    destruct (find_total parent p Hforest)
      as [(r & p1 & Hfind & Hl1 & _ & Hf1)|[Hp ->]]; [|done].
    rewrite Hfind.
    change (foldM split_group (p1, push_component r p components) points
            = Err (Thrown "find called with x greater than parent array length")).
    apply IH; [done|]. rewrite Hl1.
    apply Exists_cons in Hex as [Hex|Hex]; [|done].
    exfalso. unfold find in Hfind. cbn [find_rec] in Hfind.
    by rewrite bool_decide_true in Hfind by done.
Qed.

(** X15.  [splitClusterAtEdge] groups the points by the components of
    the edges it unites: the edges of weight at most the removed edge's
    that have both ends among the points.  When every point is below the
    length of the union-find array, the groups hold every point once, none
    is empty, and two points are in one group exactly when these edges
    connect them.  When some point is not below that length, the call
    throws the error of [find]. *)
Theorem splitClusterAtEdge_components (this : HDBSCAN) (points : list nat)
    (removed : Edge) (es : list Edge) :
  (Forall (fun p => p < length (sortedEdges this) + 1) points →
   ∃ components,
     splitClusterAtEdge this points removed es = Ok components
     ∧ concat components ≡ₚ points
     ∧ Forall (fun c => c ≠ []) components
     ∧ ∀ c x y, c ∈ components → x ∈ c → y ∈ points →
         y ∈ c
         ↔ connected
             (internal_edges points
                (filter (fun e : Edge => Num.leb (weight e) (weight removed))
                        es))
             x y)
  ∧ (Exists (fun p => length (sortedEdges this) + 1 ≤ p) points →
     splitClusterAtEdge this points removed es
     = Err (Thrown "find called with x greater than parent array length")).
Proof.
  split.
  - intros Hpts.
    destruct (splitClusterAtEdge_spec this points removed es Hpts)
      as (components & Hrun & Hperm & Hne & Hsound & Hcomplete).
    exists components. split_and!; try done.
    intros c x y Hc Hx Hy. split.
    + intros Hyc. by apply (Hsound c).
    + by apply (Hcomplete c).
  - intros Hex. unfold splitClusterAtEdge.
    destruct (split_union_fold_total points
                (filter (fun e : Edge => Num.leb (weight e) (weight removed)) es)
                (seq 0 (length (sortedEdges this) + 1)))
      as [(p1 & -> & Hl1 & Hf1)| ->]; [apply uf_forest_seq| |done].
    rewrite bind_Ok. rewrite length_seq in Hl1.
    rewrite split_group_throws; [done|done|]. by rewrite Hl1.
Qed.

Lemma splitClusterAtEdge_components_witness :
  (∃ components,
     splitClusterAtEdge
       (mkHDBSCAN false (Fin 2) (Fin 2) [] [] 0
          [(0, 1, Fin 1); (1, 2, Fin 4)] true [])
       [0; 1; 2] (1, 2, Fin 4) [(0, 1, Fin 1)] = Ok components
     ∧ concat components ≡ₚ [0; 1; 2]
     ∧ Forall (fun c => c ≠ []) components
     ∧ ∀ c x y, c ∈ components → x ∈ c → y ∈ [0; 1; 2] →
         y ∈ c
         ↔ connected
             (internal_edges [0; 1; 2]
                (filter (fun e : Edge => Num.leb (weight e) (weight (1, 2, Fin 4)))
                        [(0, 1, Fin 1)]))
             x y)
  ∧ splitClusterAtEdge
      (mkHDBSCAN false (Fin 2) (Fin 2) [] [] 0 [] true [])
      [0; 1; 2] (1, 2, Fin 4) [(0, 1, Fin 1)]
    = Err (Thrown "find called with x greater than parent array length").
Proof.
  split.
  - apply (splitClusterAtEdge_components
             (mkHDBSCAN false (Fin 2) (Fin 2) [] [] 0
                [(0, 1, Fin 1); (1, 2, Fin 4)] true [])
             [0; 1; 2] (1, 2, Fin 4) [(0, 1, Fin 1)]).
    simpl. repeat constructor; lia.
  - apply (splitClusterAtEdge_components
             (mkHDBSCAN false (Fin 2) (Fin 2) [] [] 0 [] true [])
             [0; 1; 2] (1, 2, Fin 4) [(0, 1, Fin 1)]).
    simpl. apply Exists_cons_tl. apply Exists_cons_hd. lia.
Defined.

(** ** The hierarchy of a first [fit] *)

Lemma constructor_next (p : HDBSCANParams) (h : HDBSCAN) :
  constructor p = Ok h → nextClusterId h = 0.
Proof.
  unfold constructor. repeat destruct (Num.leb _ _); try done.
  by intros [= <-].
Qed.

Lemma hierarchy_of_parts (p : HDBSCANParams) (d : nat) (data : list (list num))
    (h : HDBSCAN) (hierarchy : list Cluster) :
  dataset d data → 2 ≤ length data →
  hierarchy_of p data = Ok (h, hierarchy) →
  ∃ h0 m mst splits,
    constructor p = Ok h0
    ∧ computeMutualReachabilityDistance h0 data
      = Ok (set_mutualReachabilityDistance m h0, m)
    ∧ length m = length data ∧ square_nonneg m
    ∧ buildMinimumSpanningTree m = Ok mst
    ∧ weights_of m mst
    ∧ mst_ok (length data) mst
    ∧ buildClusterHierarchy
        (set_sortedEdges mst (set_mutualReachabilityDistance m h0)) mst
      = Ok (h, hierarchy)
    ∧ hier_inv (length data) 0 (minClusterSize h) mst [] splits h hierarchy.
Proof.
  intros Hdata Hn. unfold hierarchy_of.
  destruct (constructor p) as [h0|] eqn:Hctor; [|done]. rewrite bind_Ok.
  destruct (computeMutualReachabilityDistance_result d h0 data Hdata)
    as [(m & Hmat & Hlen & Hm)|Herr]; [|by rewrite Herr].
  rewrite Hmat, bind_Ok. cbn beta iota.
  destruct (buildMinimumSpanningTree_reach m ltac:(lia) Hm)
    as [[Hrun _]|(es & Hrun & Hmst & Hwes)]; [by rewrite Hrun|].
  rewrite Hrun, bind_Ok.
  destruct (buildClusterHierarchy_spec
              (set_sortedEdges es (set_mutualReachabilityDistance m h0))
              es (length m) Hmst ltac:(lia) eq_refl)
    as (splits & this1 & hierarchy1 & Hbuild & Hinv).
  rewrite Hbuild. intros [= <- <-].
  exists h0, m, es, splits. rewrite <- Hlen.
  split_and!; try done.
  cbn [nextClusterId set_sortedEdges set_mutualReachabilityDistance] in Hinv.
  rewrite (constructor_next p h0 Hctor) in Hinv.
  by rewrite <- (hi_mcs _ _ _ _ _ _ _ _ Hinv) in Hinv at 1.
Qed.

Lemma hierarchy_step_length (sorted : list Edge) (this : HDBSCAN)
    (hierarchy : list Cluster) (i : nat) (this' : HDBSCAN)
    (hierarchy' : list Cluster) :
  hierarchy_step sorted (this, hierarchy) i = Ok (this', hierarchy') →
  length hierarchy ≤ length hierarchy' ≤ length hierarchy + 2.
Proof.
  unfold hierarchy_step.
  destruct (sorted !! i) as [edge|]; [|done]. cbn [defined]. rewrite bind_Ok.
  destruct (findClusterContainingPoints _ _) as [pi|]; [|done].
  destruct (hierarchy !! pi) as [P|]; [|done]. cbn [defined]. rewrite bind_Ok.
  case_bool_decide; [intros [= <- <-]; lia|].
  destruct (splitClusterAtEdge _ _ _ _) as [comps|]; [|done]. rewrite bind_Ok.
  destruct (negb (components_ok comps)); [done|].
  destruct comps as [|l [|r [|? ?]]]; try (intros [= <- <-]; lia).
  destruct (createCluster this l _ _ _) as [this1 lc].
  destruct (createCluster this1 r _ _ _) as [this2 rc].
  intros [= <- <-].
  repeat (destruct (large_enough _ _)); cbn [andb orb negb];
    repeat (rewrite length_alter || rewrite length_app); simpl; lia.
Qed.

Lemma hierarchy_fold_length (sorted : list Edge) (l : list nat) :
  ∀ this hierarchy this' hierarchy',
  foldM (hierarchy_step sorted) (this, hierarchy) l = Ok (this', hierarchy') →
  length hierarchy' ≤ length hierarchy + 2 * length l.
Proof.
  induction l as [|i l IH]; intros this hierarchy this' hierarchy'.
  - intros [= <- <-]. simpl. lia.
  - cbn [foldM].
    destruct (hierarchy_step sorted (this, hierarchy) i) as [[t1 h1]|] eqn:E;
      [|done].
    rewrite bind_Ok. intros Hrest. apply IH in Hrest.
    apply hierarchy_step_length in E. simpl. lia.
Qed.

Lemma buildClusterHierarchy_length (this : HDBSCAN) (mst : list Edge)
    (this' : HDBSCAN) (hierarchy : list Cluster) :
  buildClusterHierarchy this mst = Ok (this', hierarchy) →
  length hierarchy ≤ 2 * length mst + 1.
Proof.
  unfold buildClusterHierarchy.
  destruct (js_sort by_weight_desc mst !! 0) as [first|]; [|done].
  cbn [defined]. rewrite bind_Ok.
  destruct (createCluster _ _ _ _ _) as [this1 root].
  intros Hfold. apply hierarchy_fold_length in Hfold.
  rewrite length_seq, (js_sort_perm by_weight_desc mst) in Hfold.
  simpl in Hfold. lia.
Qed.

(** X16.  The hierarchy of a first [fit] of [n >= 2] points has an
    odd number of clusters, at most [2n - 1]; the [id] of each cluster is
    its position in the array, and the counter of the instance ends at
    the number of clusters; the first cluster is the root, which holds
    the points [0 .. n-1] in this order; every cluster holds at least one
    point, no point twice, and only indices below [n]. *)
Theorem hierarchy_shape (p : HDBSCANParams) (d : nat) (data : list (list num))
    (h : HDBSCAN) (hierarchy : list Cluster) :
  dataset d data → 2 ≤ length data →
  hierarchy_of p data = Ok (h, hierarchy) →
  (∃ k, length hierarchy = 2 * k + 1)
  ∧ length hierarchy ≤ 2 * length data - 1
  ∧ nextClusterId h = length hierarchy
  ∧ (∃ root, hierarchy !! 0 = Some root
             ∧ children root = seq 0 (length data))
  ∧ ∀ k c, hierarchy !! k = Some c →
      id c = k
      ∧ children c ≠ [] ∧ NoDup (children c)
      ∧ Forall (fun x => x < length data) (children c).
Proof.
  intros Hdata Hn Hrun.
  destruct (hierarchy_of_parts p d data h hierarchy Hdata Hn Hrun)
    as (h0 & m & mst & splits & _ & _ & Hlen & _ & _ & _ & Hmst & Hbuild & Hinv).
  split_and!.
  - exists (length splits). apply (hi_length _ _ _ _ _ _ _ _ Hinv).
  - apply buildClusterHierarchy_length in Hbuild.
    pose proof (mst_length _ _ Hmst). lia.
  - by rewrite (hi_next _ _ _ _ _ _ _ _ Hinv).
  - apply (hi_root _ _ _ _ _ _ _ _ Hinv).
  - intros k c Hc. split.
    + by rewrite (hi_ids _ _ _ _ _ _ _ _ Hinv k c Hc).
    + apply (hi_members _ _ _ _ _ _ _ _ Hinv). by eapply list_elem_of_lookup_2.
Qed.

Lemma hierarchy_shape_witness :
  ∃ h hierarchy,
    hierarchy_of (params 2 2) line_3_1 = Ok (h, hierarchy)
    ∧ (∃ k, length hierarchy = 2 * k + 1)
    ∧ length hierarchy ≤ 2 * length line_3_1 - 1
    ∧ nextClusterId h = length hierarchy
    ∧ (∃ root, hierarchy !! 0 = Some root
               ∧ children root = seq 0 (length line_3_1))
    ∧ ∀ k c, hierarchy !! k = Some c →
        id c = k
        ∧ children c ≠ [] ∧ NoDup (children c)
        ∧ Forall (fun x => x < length line_3_1) (children c).
Proof.
  eexists _, _. split; [vm_compute; reflexivity|].
  apply (hierarchy_shape (params 2 2) 1 line_3_1).
  - apply dataset_line_3_1.
  - simpl. lia.
  - vm_compute; reflexivity.
Defined.

Section nested.
Context (n id0 : nat) (mcs : num) (mst : list Edge) (splits : list nat)
        (this : HDBSCAN) (hierarchy : list Cluster).
Hypothesis Hinv : hier_inv n id0 mcs mst [] splits this hierarchy.

Lemma nested_or_disjoint (a b : nat) (A B : Cluster) :
  a < b → hierarchy !! a = Some A → hierarchy !! b = Some B →
  ((∀ x, x ∈ children B → x ∈ children A)
   ∧ (∃ x, x ∈ children A ∧ x ∉ children B)
   ∧ Num.leb (distance B) (distance A) = true)
  ∨ (∀ x, x ∈ children A → x ∉ children B).
Proof.
  intros Hab HA HB.
  destruct (hierarchy_laminar n id0 mcs mst splits this hierarchy Hinv
              b a A B Hab HA HB) as [Hanc|Hdis]; [left|by right].
  destruct (ancestor_spec n id0 mcs mst splits this hierarchy Hinv a b Hanc)
    as (_ & A' & B' & HA' & HB' & Hsub & Hex & Hle).
  assert (A' = A) as -> by congruence. assert (B' = B) as -> by congruence.
  done.
Qed.

Lemma parent_exists (k : nat) (C : Cluster) :
  0 < k → hierarchy !! k = Some C →
  ∃ p P S,
    p < k ∧ hierarchy !! p = Some P ∧ S ∈ hierarchy
    ∧ (∀ x, x ∈ children P ↔ x ∈ children C ∨ x ∈ children S)
    ∧ (∀ x, x ∈ children C → x ∉ children S)
    ∧ children S ≠ []
    ∧ Num.leb (distance C) (distance P) = true
    ∧ (is_large mcs C → is_link P C)
    ∧ (¬ is_large mcs C → ¬ is_link P C).
Proof.
  intros Hk HC.
  destruct (child_of_exists n id0 mcs mst splits this hierarchy Hinv k)
    as [p Hp].
  { split; [done|by eapply lookup_lt_Some]. }
  destruct (child_of_split n id0 mcs mst splits this hierarchy Hinv p k Hp)
    as (Hlt & P & C' & S & HP & HC' & HS & Hunion & Hdisj & HSne & Hle & _).
  assert (C' = C) as -> by congruence.
  exists p, P, S. split_and!; try done.
  all: destruct Hp as (j & Hj & Hkj).
  all: destruct (hi_splits _ _ _ _ _ _ _ _ Hinv j p Hj)
    as (_ & P' & L & R & HP' & HL & HR & _ & _ & _ & Hl & Hr & _).
  all: assert (P' = P) as -> by congruence.
  all: pose proof (hi_ids _ _ _ _ _ _ _ _ Hinv _ _ HL) as HidL.
  all: pose proof (hi_ids _ _ _ _ _ _ _ _ Hinv _ _ HR) as HidR.
  - intros Hlarge. unfold is_link. unfold is_large in Hlarge.
    destruct Hkj as [-> | ->].
    + assert (L = C) as -> by congruence. left.
      rewrite Hl. unfold link_of. by rewrite Hlarge.
    + assert (R = C) as -> by congruence. right.
      rewrite Hr. unfold link_of. by rewrite Hlarge.
  - intros Hsmall [Hlink|Hlink].
    + rewrite Hl in Hlink. apply link_of_Some in Hlink as [Hid Hlarge].
      destruct Hkj as [-> | ->].
      * assert (L = C) as -> by congruence. done.
      * assert (R = C) as -> by congruence. lia.
    + rewrite Hr in Hlink. apply link_of_Some in Hlink as [Hid Hlarge].
      destruct Hkj as [-> | ->].
      * assert (L = C) as -> by congruence. lia.
      * assert (R = C) as -> by congruence. done.
Qed.

(** a child link leads to a cluster that is large enough *)
Lemma link_large (j k : nat) (P C : Cluster) :
  minClusterSize this = mcs →
  hierarchy !! j = Some P → hierarchy !! k = Some C →
  is_link P C → is_large mcs C.
Proof.
  intros Hmcs HP HC Hlink.
  pose proof (link_child_of _ _ _ _ _ _ _ Hinv Hmcs j k P C HP HC Hlink)
    as (j0 & Hj0 & Hk).
  destruct (hi_splits _ _ _ _ _ _ _ _ Hinv j0 j Hj0)
    as (_ & P' & L & R & HP' & HL & HR & _ & _ & _ & Hl & Hr & _).
  assert (P' = P) as -> by congruence.
  pose proof (hi_ids _ _ _ _ _ _ _ _ Hinv _ _ HL) as HidL.
  pose proof (hi_ids _ _ _ _ _ _ _ _ Hinv _ _ HR) as HidR.
  destruct Hlink as [Hlink|Hlink].
  - rewrite Hl in Hlink. apply link_of_Some in Hlink as [Hid Hlarge].
    destruct Hk as [-> | ->].
    + by assert (L = C) as -> by congruence.
    + assert (R = C) as -> by congruence. lia.
  - rewrite Hr in Hlink. apply link_of_Some in Hlink as [Hid Hlarge].
    destruct Hk as [-> | ->].
    + assert (L = C) as -> by congruence. lia.
    + by assert (R = C) as -> by congruence.
Qed.

Lemma newest_is_smallest (points : list nat) (i : nat) (C : Cluster) :
  points ≠ [] →
  findClusterContainingPoints points hierarchy = Some i →
  hierarchy !! i = Some C →
  ∀ A, A ∈ hierarchy → (∀ x, x ∈ points → x ∈ children A) →
  ∀ x, x ∈ children C → x ∈ children A.
Proof.
  intros Hne Hfind HC A HA Hpts.
  unfold findClusterContainingPoints in Hfind.
  apply find_last_Some in Hfind as (C' & HC' & HP & Hlater).
  assert (C' = C) as -> by congruence.
  pose proof (proj1 (forallb_includes points (children C)) HP) as HP'.
  clear HP. rename HP' into HP.
  apply list_elem_of_lookup in HA as [a Ha].
  destruct (decide (a = i)) as [->|Hai]; [by assert (A = C) as -> by congruence|].
  destruct points as [|pt points]; [done|].
  assert (Hpt : pt ∈ pt :: points) by left.
  destruct (decide (a < i)) as [Hlt|Hge].
  - destruct (nested_or_disjoint a i A C Hlt Ha HC) as [(Hsub & _)|Hdis];
      [done|].
    exfalso. exact (Hdis pt (Hpts pt Hpt) (HP pt Hpt)).
  - exfalso. specialize (Hlater a A ltac:(lia) Ha).
    assert (forallb (includes (children A)) (pt :: points) = true) as Htrue
      by (by apply forallb_includes).
    congruence.
Qed.

Lemma root_contains (points : list nat) :
  Forall (fun x => x < n) points →
  ∃ i, findClusterContainingPoints points hierarchy = Some i.
Proof.
  intros Hpts. unfold findClusterContainingPoints.
  destruct (find_last _ hierarchy) as [i|] eqn:E; [by exists i|].
  exfalso. destruct (hi_root _ _ _ _ _ _ _ _ Hinv) as (root & Hroot & Hall).
  pose proof (find_last_None _ _ E root
                ltac:(by eapply list_elem_of_lookup_2)) as Hf.
  cbv beta in Hf.
  assert (forallb (includes (children root)) points = true) as Htrue.
  { apply forallb_includes. intros x Hx. rewrite Hall. apply elem_of_seq.
    rewrite Forall_forall in Hpts. specialize (Hpts x Hx). lia. }
  congruence.
Qed.

Lemma findClusterContainingPoints_found (points : list nat) (i : nat) :
  findClusterContainingPoints points hierarchy = Some i →
  ∃ C, hierarchy !! i = Some C ∧ ∀ x, x ∈ points → x ∈ children C.
Proof.
  intros Hfind. unfold findClusterContainingPoints in Hfind.
  apply find_last_Some in Hfind as (C & HC & HP & _).
  exists C. split; [done|]. by apply forallb_includes.
Qed.

End nested.

(** X17.  In the hierarchy of a [fit] of [n >= 2] points any two
    clusters are nested or disjoint: of two clusters the later one is
    either a proper part of the earlier one, at a [distance] that is not
    larger, or shares no point with it. *)
Theorem hierarchy_nested_or_disjoint (p : HDBSCANParams) (d : nat)
    (data : list (list num)) (h : HDBSCAN) (hierarchy : list Cluster) :
  dataset d data → 2 ≤ length data →
  hierarchy_of p data = Ok (h, hierarchy) →
  ∀ a b A B, a < b → hierarchy !! a = Some A → hierarchy !! b = Some B →
    ((∀ x, x ∈ children B → x ∈ children A)
     ∧ (∃ x, x ∈ children A ∧ x ∉ children B)
     ∧ Num.leb (distance B) (distance A) = true)
    ∨ (∀ x, x ∈ children A → x ∉ children B).
Proof.
  intros Hdata Hn Hrun.
  destruct (hierarchy_of_parts p d data h hierarchy Hdata Hn Hrun)
    as (h0 & m & mst & splits & _ & _ & _ & _ & _ & _ & _ & _ & Hinv).
  intros a b A B. by eapply nested_or_disjoint.
Qed.

Lemma hierarchy_nested_or_disjoint_witness :
  ∃ h hierarchy,
    hierarchy_of (params 2 2) line_3_1 = Ok (h, hierarchy)
    ∧ ∀ a b A B, a < b → hierarchy !! a = Some A → hierarchy !! b = Some B →
        ((∀ x, x ∈ children B → x ∈ children A)
         ∧ (∃ x, x ∈ children A ∧ x ∉ children B)
         ∧ Num.leb (distance B) (distance A) = true)
        ∨ (∀ x, x ∈ children A → x ∉ children B).
Proof.
  eexists _, _. split; [vm_compute; reflexivity|].
  eapply (hierarchy_nested_or_disjoint (params 2 2) 1 line_3_1).
  - apply dataset_line_3_1.
  - simpl. lia.
  - vm_compute; reflexivity.
Defined.

(** X18.  In the hierarchy of a [fit] every cluster but the root was
    made by a split of an earlier cluster: it and a sibling, both not
    empty, share no point and together hold the points of that parent;
    its [distance] is not above the parent's; and the parent holds a child
    link to it exactly when it has at least [minClusterSize] points. *)
Theorem hierarchy_parent (p : HDBSCANParams) (d : nat)
    (data : list (list num)) (h : HDBSCAN) (hierarchy : list Cluster) :
  dataset d data → 2 ≤ length data →
  hierarchy_of p data = Ok (h, hierarchy) →
  ∀ k C, 0 < k → hierarchy !! k = Some C →
    ∃ j P S,
      j < k ∧ hierarchy !! j = Some P ∧ S ∈ hierarchy
      ∧ (∀ x, x ∈ children P ↔ x ∈ children C ∨ x ∈ children S)
      ∧ (∀ x, x ∈ children C → x ∉ children S)
      ∧ children C ≠ [] ∧ children S ≠ []
      ∧ Num.leb (distance C) (distance P) = true
      ∧ (large_enough h (length (children C)) = true
         → leftChild P = Some (id C) ∨ rightChild P = Some (id C))
      ∧ (large_enough h (length (children C)) = false
         → leftChild P ≠ Some (id C) ∧ rightChild P ≠ Some (id C)).
Proof.
  intros Hdata Hn Hrun.
  destruct (hierarchy_of_parts p d data h hierarchy Hdata Hn Hrun)
    as (h0 & m & mst & splits & _ & _ & _ & _ & _ & _ & _ & _ & Hinv).
  intros k C Hk HC.
  destruct (parent_exists _ _ _ _ _ _ _ Hinv k C Hk HC)
    as (j & P & S & Hj & HP & HS & Hunion & Hdisj & HSne & Hle & Hyes & Hno).
  exists j, P, S. split_and!; try done.
  - apply (hi_members _ _ _ _ _ _ _ _ Hinv). by eapply list_elem_of_lookup_2.
  - intros Hsmall.
    assert (Hnot : ¬ is_large (minClusterSize h) C).
    { unfold is_large. unfold large_enough in Hsmall. by rewrite Hsmall. }
    specialize (Hno Hnot). unfold is_link in Hno. tauto.
Qed.

Lemma hierarchy_parent_witness :
  ∃ h hierarchy,
    hierarchy_of (params 2 2) line_3_1 = Ok (h, hierarchy)
    ∧ ∀ k C, 0 < k → hierarchy !! k = Some C →
      ∃ j P S,
        j < k ∧ hierarchy !! j = Some P ∧ S ∈ hierarchy
        ∧ (∀ x, x ∈ children P ↔ x ∈ children C ∨ x ∈ children S)
        ∧ (∀ x, x ∈ children C → x ∉ children S)
        ∧ children C ≠ [] ∧ children S ≠ []
        ∧ Num.leb (distance C) (distance P) = true
        ∧ (large_enough h (length (children C)) = true
           → leftChild P = Some (id C) ∨ rightChild P = Some (id C))
        ∧ (large_enough h (length (children C)) = false
           → leftChild P ≠ Some (id C) ∧ rightChild P ≠ Some (id C)).
Proof.
  eexists _, _. split; [vm_compute; reflexivity|].
  apply (hierarchy_parent (params 2 2) 1 line_3_1).
  - apply dataset_line_3_1.
  - simpl. lia.
  - vm_compute; reflexivity.
Defined.

(** X19.  In the hierarchy of a [fit], for given points below [n],
    at least one, [findClusterContainingPoints] finds a cluster, and it
    is the smallest cluster holding the points: every cluster of the
    hierarchy that holds them all holds all of the cluster found. *)
Theorem findClusterContainingPoints_smallest (p : HDBSCANParams) (d : nat)
    (data : list (list num)) (h : HDBSCAN) (hierarchy : list Cluster)
    (points : list nat) :
  dataset d data → 2 ≤ length data →
  hierarchy_of p data = Ok (h, hierarchy) →
  points ≠ [] → Forall (fun x => x < length data) points →
  ∃ i C,
    findClusterContainingPoints points hierarchy = Some i
    ∧ hierarchy !! i = Some C
    ∧ (∀ x, x ∈ points → x ∈ children C)
    ∧ ∀ A, A ∈ hierarchy → (∀ x, x ∈ points → x ∈ children A) →
        ∀ x, x ∈ children C → x ∈ children A.
Proof.
  intros Hdata Hn Hrun Hne Hpts.
  destruct (hierarchy_of_parts p d data h hierarchy Hdata Hn Hrun)
    as (h0 & m & mst & splits & _ & _ & _ & _ & _ & _ & _ & _ & Hinv).
  destruct (root_contains _ _ _ _ _ _ _ Hinv points Hpts) as [i Hfind].
  pose proof (findClusterContainingPoints_found hierarchy points i Hfind)
    as (C & HC & Hall).
  exists i, C. split_and!; [done..|].
  by apply (newest_is_smallest _ _ _ _ _ _ _ Hinv points i C).
Qed.

Lemma findClusterContainingPoints_smallest_witness :
  ∃ h hierarchy,
    hierarchy_of (params 2 2) line_3_1 = Ok (h, hierarchy)
    ∧ ∃ i C,
        findClusterContainingPoints [0; 2] hierarchy = Some i
        ∧ hierarchy !! i = Some C
        ∧ (∀ x, x ∈ [0; 2] → x ∈ children C)
        ∧ ∀ A, A ∈ hierarchy → (∀ x, x ∈ [0; 2] → x ∈ children A) →
            ∀ x, x ∈ children C → x ∈ children A.
Proof.
  eexists _, _. split; [vm_compute; reflexivity|].
  eapply (findClusterContainingPoints_smallest (params 2 2) 1 line_3_1).
  - apply dataset_line_3_1.
  - simpl. lia.
  - vm_compute; reflexivity.
  - done.
  - simpl. repeat constructor; lia.
Defined.

(** X20.  The condensation keeps the clusters of the hierarchy in
    their order.  For the hierarchy of a [fit], the root is kept exactly
    when there are at least [minClusterSize] points, and any other cluster
    is kept exactly when a cluster of the hierarchy holds a child link to
    it. *)
Theorem condenseHierarchy_linked (p : HDBSCANParams) (d : nat)
    (data : list (list num)) (h : HDBSCAN) (hierarchy : list Cluster) :
  dataset d data → 2 ≤ length data →
  hierarchy_of p data = Ok (h, hierarchy) →
  sublist (condenseHierarchy h hierarchy) hierarchy
  ∧ (∀ root, hierarchy !! 0 = Some root →
       root ∈ condenseHierarchy h hierarchy
       ↔ large_enough h (length data) = true)
  ∧ ∀ k C, 0 < k → hierarchy !! k = Some C →
      C ∈ condenseHierarchy h hierarchy
      ↔ ∃ P, P ∈ hierarchy
             ∧ (leftChild P = Some (id C) ∨ rightChild P = Some (id C)).
Proof.
  intros Hdata Hn Hrun.
  destruct (hierarchy_of_parts p d data h hierarchy Hdata Hn Hrun)
    as (h0 & m & mst & splits & _ & _ & _ & _ & _ & _ & _ & _ & Hinv).
  split_and!.
  - apply sublist_filter.
  - intros root Hroot.
    rewrite (elem_of_condensed _ _ _ _ _ _ _ Hinv eq_refl).
    destruct (hi_root _ _ _ _ _ _ _ _ Hinv) as (root' & Hroot' & Hall).
    assert (root' = root) as -> by congruence.
    unfold is_large, large_enough. rewrite Hall, length_seq.
    split; [tauto|]. split; [by eapply list_elem_of_lookup_2|done].
  - intros k C Hk HC.
    rewrite (elem_of_condensed _ _ _ _ _ _ _ Hinv eq_refl).
    destruct (parent_exists _ _ _ _ _ _ _ Hinv k C Hk HC)
      as (j & P & S & Hj & HP & _ & _ & _ & _ & _ & Hyes & Hno).
    split.
    + intros [_ Hlarge]. exists P. split; [by eapply list_elem_of_lookup_2|].
      by apply Hyes.
    + intros (P' & HP' & Hlink). split; [by eapply list_elem_of_lookup_2|].
      apply list_elem_of_lookup in HP' as [j' HP'].
      by apply (link_large _ _ _ _ _ _ _ Hinv j' k P' C eq_refl HP' HC).
Qed.

Lemma condenseHierarchy_linked_witness :
  ∃ h hierarchy,
    hierarchy_of (params 2 2) line_3_1 = Ok (h, hierarchy)
    ∧ sublist (condenseHierarchy h hierarchy) hierarchy
    ∧ (∀ root, hierarchy !! 0 = Some root →
         root ∈ condenseHierarchy h hierarchy
         ↔ large_enough h (length line_3_1) = true)
    ∧ ∀ k C, 0 < k → hierarchy !! k = Some C →
        C ∈ condenseHierarchy h hierarchy
        ↔ ∃ P, P ∈ hierarchy
               ∧ (leftChild P = Some (id C) ∨ rightChild P = Some (id C)).
Proof.
  eexists _, _. split; [vm_compute; reflexivity|].
  apply (condenseHierarchy_linked (params 2 2) 1 line_3_1).
  - apply dataset_line_3_1.
  - simpl. lia.
  - vm_compute; reflexivity.
Defined.

(** ** The extraction *)

Lemma elem_of_set_add_list (x y : nat) (s : list nat) :
  y ∈ set_add x s ↔ y = x ∨ y ∈ s.
Proof. apply elem_of_set_add. Qed.

Lemma processCluster_frame (this : HDBSCAN) (fuel : nat) :
  ∀ (st : ExtractState) (ci : nat) (st' : ExtractState),
  processCluster fuel this st ci = Ok st' →
  frame (condensed st') = frame (condensed st)
  ∧ (∀ j, j ∈ selected st' → j ∈ selected st ∨ j < length (condensed st))
  ∧ discarded st ⊆ discarded st'.
Proof.
  induction fuel as [|fuel IH]; intros st ci st'; [done|].
  cbn [processCluster].
  destruct (condensed st !! ci) as [cluster|] eqn:Hcl; [|done].
  cbn [defined]. rewrite bind_Ok.
  case_bool_decide as Hdisc; [intros [= <-]; split_and!; auto|].
  pose proof (childrenStabilities_frame (condensed st)
                (childClusters (condensed st) cluster)) as Hf1.
  destruct (childrenStabilities _ _) as [hier1 stabs]. cbn [fst] in Hf1.
  set (hier2 := alter (set_stability _) ci hier1).
  assert (Hf2 : frame hier2 = frame (condensed st))
    by (subst hier2; by rewrite frame_alter_stability).
  set (skip := bool_decide (id cluster = 0) && shouldSkipRootCluster this).
  assert (Hf3 : ∀ s, frame (if skip
                            then (Num.zero, alter (set_stability Num.zero) ci hier2)
                            else (s, hier2)).2
                     = frame (condensed st)).
  { intros s. destruct skip; cbn [snd]; [|done].
    by rewrite frame_alter_stability. }
  specialize (Hf3 (calculateClusterStability cluster (getClusterPoints cluster))).
  destruct (if skip then _ else _) as [stability hier3]. cbn [snd] in Hf3.
  destruct (_ || _).
  - intros [= <-]. cbn [condensed selected discarded]. split_and!; [done| |set_solver].
    intros j [->|Hj]%elem_of_set_add; [right|by left].
    by eapply lookup_lt_Some.
  - set (D' := {[id cluster]} ∪ discarded st).
    set (todo := filter _ (childClusters (condensed st) cluster)).
    assert (Hfold : ∀ (todo : list nat) (st1 st2 : ExtractState),
              foldM (processCluster fuel this) st1 todo = Ok st2 →
              frame (condensed st2) = frame (condensed st1)
              ∧ (∀ j, j ∈ selected st2 →
                   j ∈ selected st1 ∨ j < length (condensed st1))
              ∧ discarded st1 ⊆ discarded st2).
    { clear -IH. induction todo as [|j todo IHt]; intros st1 st2.
      - intros [= <-]. split_and!; auto.
      - cbn [foldM].
        destruct (processCluster fuel this st1 j) as [st1'|] eqn:E; [|done].
        rewrite bind_Ok. intros Hrest.
        destruct (IH _ _ _ E) as (Hfa & Hsa & Hda).
        destruct (IHt _ _ Hrest) as (Hfb & Hsb & Hdb).
        split_and!; [congruence| |set_solver].
        intros k Hk. destruct (Hsb k Hk) as [Hk'|Hk'].
        + by apply Hsa.
        + right. by rewrite <- (frame_length _ _ Hfa). }
    intros Hrun. destruct (Hfold _ _ _ Hrun) as (Hfa & Hsa & Hda).
    cbn [condensed selected discarded] in *. split_and!.
    + congruence.
    + intros j Hj. destruct (Hsa j Hj) as [?|Hlt]; [by left|right].
      by rewrite <- (frame_length _ _ Hf3).
    + subst D'. set_solver.
Qed.

(** X21.  [extractClusters] returns on every array of
    clusters: the recursion of [processCluster] ends, because a cluster is
    added to the discarded ones before its children are processed, and a
    call with enough fuel for the clusters not discarded returns, keeps the
    [id]s of the array and only adds to the discarded ones. *)
Theorem extractClusters_terminates (this : HDBSCAN)
    (condensedHierarchy : list Cluster) (data : list (list num)) :
  (∃ this', extractClusters this condensedHierarchy data = Ok this')
  ∧ ∀ (st : ExtractState) (ci fuel : nat),
      ci < length (condensed st) →
      undiscarded (condensed st) (discarded st) < fuel →
      ∃ st', processCluster fuel this st ci = Ok st'
             ∧ id <$> condensed st' = id <$> condensed st
             ∧ discarded st ⊆ discarded st'.
Proof.
  split; [apply extractClusters_returns|].
  intros st ci fuel. apply processCluster_returns.
Qed.

(** ** The labels and the probabilities *)









Lemma fit_parts (d : nat) (this : HDBSCAN) (data : list (list num))
    (this' : HDBSCAN) :
  dataset d data → 2 ≤ length data → fit this data = Ok this' →
  ∃ m mst this1 hierarchy splits st,
    computeMutualReachabilityDistance this data
    = Ok (set_mutualReachabilityDistance m this, m)
    ∧ length m = length data ∧ square_nonneg m
    ∧ buildMinimumSpanningTree m = Ok mst
    ∧ weights_of m mst
    ∧ mst_ok (length data) mst
    ∧ buildClusterHierarchy
        (set_sortedEdges mst (set_mutualReachabilityDistance m this)) mst
      = Ok (this1, hierarchy)
    ∧ hier_inv (length data) (nextClusterId this) (minClusterSize this) mst []
        splits this1 hierarchy
    ∧ frame (condensed st) = frame (condenseHierarchy this1 hierarchy)
    ∧ (∀ j, j ∈ selected st → j < length (condensed st))
    ∧ this' = assignClusterLabels this1 (condensed st) (selected st) data.
Proof.
  intros Hdata Hn. unfold fit.
  destruct (computeMutualReachabilityDistance_result d this data Hdata)
    as [(m & Hmat & Hlen & Hm)|Herr]; [|by rewrite Herr].
  rewrite Hmat, bind_Ok. cbn beta iota.
  destruct (buildMinimumSpanningTree_reach m ltac:(lia) Hm)
    as [[Hrun _]|(es & Hrun & Hmst & Hwes)]; [by rewrite Hrun|].
  rewrite Hrun, bind_Ok.
  destruct (buildClusterHierarchy_spec
              (set_sortedEdges es (set_mutualReachabilityDistance m this))
              es (length m) Hmst ltac:(lia) eq_refl)
    as (splits & this1 & hierarchy & Hbuild & Hinv).
  rewrite Hbuild, bind_Ok. cbn beta iota.
  cbn [nextClusterId minClusterSize set_sortedEdges
       set_mutualReachabilityDistance] in Hinv.
  rewrite Hlen in Hinv, Hmst.
  unfold extractClusters. case_bool_decide as Hcond.
  - destruct (processCluster _ this1 _ 0) as [st|] eqn:E; [|done].
    rewrite bind_Ok. intros [= <-].
    destruct (processCluster_frame _ _ _ _ _ E) as (Hf & Hsel & _).
    cbn [condensed selected] in Hf, Hsel.
    exists m, es, this1, hierarchy, splits, st. split_and!; try done.
    intros j Hj. destruct (Hsel j Hj) as [Hnil|Hlt];
      [by apply not_elem_of_nil in Hnil|].
    by rewrite (frame_length _ _ Hf).
  - rewrite bind_Ok. intros [= <-].
    exists m, es, this1, hierarchy, splits,
      (mkExtract (condenseHierarchy this1 hierarchy) [] ∅).
    split_and!; try done.
    intros j Hj. by apply not_elem_of_nil in Hj.
Qed.




Lemma NoDup_bounded_length (n : nat) (l : list nat) :
  NoDup l → Forall (fun x => x < n) l → length l ≤ n.
Proof.
  intros Hnd Hall. rewrite <- (length_seq n 0).
  apply submseteq_length, NoDup_submseteq; [done|].
  intros x Hx. rewrite Forall_forall in Hall. apply elem_of_seq.
  specialize (Hall x Hx). lia.
Qed.

(** X23.  When the dataset has fewer points than [minClusterSize],
    no cluster survives the condensation, and a [fit] that returns labels
    every point [-1] with probability [0]. *)
Theorem fit_fewer_points_than_minClusterSize (d : nat) (this : HDBSCAN)
    (data : list (list num)) (this' : HDBSCAN) :
  dataset d data → 2 ≤ length data → fit this data = Ok this' →
  large_enough this (length data) = false →
  labels_ this' = replicate (length data) (-1)%Z
  ∧ probabilities_ this' = replicate (length data) Num.zero.
Proof.
  intros Hdata Hn Hfit Hsmall.
  destruct (fit_parts d this data this' Hdata Hn Hfit)
    as (m & mst & this1 & hierarchy & splits & st & _ & _ & _ & _
        & _ & _ & _ & Hinv & Hf & Hsel & ->).
  assert (Hnil : condenseHierarchy this1 hierarchy = []).
  { unfold condenseHierarchy. apply filter_none, Forall_forall.
    intros c Hc Hlarge.
    destruct (hi_members _ _ _ _ _ _ _ _ Hinv c Hc) as (_ & Hnd & Hlt).
    rewrite getClusterPoints_NoDup in Hlarge by done.
    apply Is_true_true in Hlarge.
    rewrite (hi_mcs _ _ _ _ _ _ _ _ Hinv) in Hlarge.
    pose proof (NoDup_bounded_length _ _ Hnd Hlt) as Hle.
    pose proof (large_mono (minClusterSize this) _ _ Hle Hlarge) as Hbig.
    unfold large_enough in Hsmall. congruence. }
  rewrite Hnil in Hf. apply frame_length in Hf. cbn in Hf.
  assert (selected st = []) as Hnone.
  { destruct (selected st) as [|j l]; [done|].
    specialize (Hsel j ltac:(left)). lia. }
  unfold assignClusterLabels. rewrite Hnone. cbn [foldl]. done.
Qed.

Lemma fit_fewer_points_than_minClusterSize_witness :
  ∃ this',
    fit (instance 5 2) line_3_1 = Ok this'
    ∧ labels_ this' = replicate (length line_3_1) (-1)%Z
    ∧ probabilities_ this' = replicate (length line_3_1) Num.zero.
Proof.
  eexists. split; [vm_compute; reflexivity|].
  apply (fit_fewer_points_than_minClusterSize 1 (instance 5 2) line_3_1).
  - apply dataset_line_3_1.
  - simpl. lia.
  - vm_compute; reflexivity.
  - reflexivity.
Defined.

(** ** The statistics of the clusters of the hierarchy *)

Lemma cluster_ok_fields (mst : list Edge) (c c' : Cluster) :
  children c' = children c → distance c' = distance c →
  maxEdgeWeight c' = maxEdgeWeight c → birthDistance c' = birthDistance c →
  minReachabilityMap c' = minReachabilityMap c →
  leaveEdgeWeight c' = leaveEdgeWeight c →
  cluster_ok mst c → cluster_ok mst c'.
Proof.
  unfold cluster_ok. by intros -> -> -> -> -> ->.
Qed.

Lemma cluster_ok_stability (mst : list Edge) (s : num) (c : Cluster) :
  cluster_ok mst c → cluster_ok mst (set_stability s c).
Proof. by apply cluster_ok_fields. Qed.

Lemma cluster_ok_update_parent (mst : list Edge) (bl br : bool) (il ir : nat)
    (c : Cluster) :
  cluster_ok mst c → cluster_ok mst (update_parent bl br il ir c).
Proof. apply cluster_ok_fields; by destruct bl, br. Qed.


Lemma minReach_cases (p : nat) (points : list nat) (es : list Edge) :
  finite_weights es →
  minReach p points es = Num.zero
  ∨ ∃ e, e ∈ es ∧ internal points e ∧ minReach p points es = weight e.
Proof.
  intros Hfin. unfold minReach.
  destruct (getMinReachability_spec p points es Hfin)
    as [[_ ->]|(e & He & -> & _)]; [by left|].
  unfold relevantEdges in He.
  apply list_elem_of_filter in He as [(_ & Hs & Hd) He].
  unfold finite_weights in Hfin. rewrite Forall_forall in Hfin.
  specialize (Hfin e He). destruct (weight e) eqn:Hw; try done.
  right. exists e. rewrite Hw. done.
Qed.

Lemma createCluster_ok (this : HDBSCAN) (points : list nat) (dist : num)
    (es mst : list Edge) :
  finite_weights es → es ≡ₚ mst →
  (∃ e, e ∈ mst ∧ dist = weight e) →
  (∀ e, e ∈ mst → internal points e → Num.leb (weight e) dist = true) →
  cluster_ok mst (createCluster this points dist es dist).2.
Proof.
  intros Hfin Hperm Hdist Hbound.
  destruct (createCluster_fold points es points Hfin [] ∅ Num.zero)
    as (mrm & lw & Hfold & Hin & Hout & Hflw & Hlw & Hle & Hmax); try done.
  { intros p Hp. by apply not_elem_of_nil in Hp. }
  { intros p Hp. by apply not_elem_of_nil in Hp. }
  { by left. }
  rewrite app_nil_l in *.
  unfold createCluster. destruct (foldl _ _ points) as [m l].
  injection Hfold as -> ->.
  unfold cluster_ok.
  cbn [snd children distance maxEdgeWeight birthDistance minReachabilityMap
       leaveEdgeWeight].
  split_and!; try done.
  - intros p Hp. exists (minReach p points es). split; [by apply Hin|].
    destruct (minReach_cases p points es Hfin) as [?|(e & He & Hi & Hv)];
      [by left|right].
    exists e. by rewrite <- Hperm.
  - destruct Hmax as [->|(p & Hp & <-)]; [by left|].
    destruct (minReach_cases p points es Hfin) as [?|(e & He & Hi & Hv)];
      [by left|right].
    exists e. by rewrite <- Hperm.
Qed.

Lemma elem_of_drop_le {A} (l : list A) (i j : nat) (x : A) :
  i ≤ j → x ∈ drop j l → x ∈ drop i l.
Proof.
  intros Hij [k Hk]%list_elem_of_lookup. rewrite lookup_drop in Hk.
  apply list_elem_of_lookup. exists (j - i + k). rewrite lookup_drop.
  by replace (i + (j - i + k)) with (j + k) by lia.
Qed.

Section statistics.
Context (n id0 : nat) (mcs : num) (mst sorted : list Edge).
Hypothesis Hmst : mst_ok n mst.
Hypothesis Hperm : sorted ≡ₚ mst.
Hypothesis Hsorted : sorted_desc sorted.

(** no edge of the tree inside a component is heavier than the edge the
    component was split at *)
Lemma component_bound (this : HDBSCAN) (i : nat) (e : Edge)
    (points : list nat) (comps : list (list nat)) (c : list nat) :
  sorted !! i = Some e →
  Forall (fun p => p < length (sortedEdges this) + 1) points →
  splitClusterAtEdge this points e (drop (i + 1) sorted) = Ok comps →
  c ∈ comps →
  ∀ e', e' ∈ mst → internal c e' → Num.leb (weight e') (weight e) = true.
Proof.
  intros He Hpts Hsplit Hc e' He' [Hs Hd].
  destruct (splitClusterAtEdge_spec this points e (drop (i + 1) sorted) Hpts)
    as (comps' & Hrun & _ & _ & Hsound & _).
  assert (comps' = comps) as -> by congruence.
  rewrite <- Hperm in He'. apply list_elem_of_lookup in He' as [i' Hi'].
  destruct (decide (i < i')) as [Hlt|Hge].
  - eapply (sorted_desc_drop sorted i e e' Hsorted He).
    apply list_elem_of_lookup. exists (i' - S i). rewrite lookup_drop.
    by replace (S i + (i' - S i)) with i' by lia.
  - exfalso.
    apply (sorted_separated n mst sorted Hmst Hperm Hsorted i' e' points Hi').
    eapply connected_mono; [|exact (Hsound c _ _ Hc Hs Hd)].
    intros e'' [Hint [_ Hin]%list_elem_of_filter]%list_elem_of_filter.
    apply list_elem_of_filter. split; [done|].
    apply (elem_of_drop_le sorted (S i') (i + 1)); [lia|done].
Qed.

Lemma hierarchy_step_ok (i : nat) (splits : list nat) (this : HDBSCAN)
    (hierarchy : list Cluster) (this' : HDBSCAN) (hierarchy' : list Cluster) :
  hier_inv n id0 mcs mst (drop i sorted) splits this hierarchy →
  Forall (cluster_ok mst) hierarchy →
  hierarchy_step sorted (this, hierarchy) i = Ok (this', hierarchy') →
  Forall (cluster_ok mst) hierarchy'.
Proof.
  intros Hinv Hok. unfold hierarchy_step.
  destruct (sorted !! i) as [e|] eqn:He; [|done]. cbn [defined].
  rewrite bind_Ok.
  destruct (findClusterContainingPoints _ _) as [pi|]; [|done].
  destruct (hierarchy !! pi) as [P|] eqn:HP; [|done]. cbn [defined].
  rewrite bind_Ok.
  case_bool_decide; [by intros [= <- <-]|].
  destruct (splitClusterAtEdge _ _ _ _) as [comps|] eqn:Hsplit; [|done].
  rewrite bind_Ok. destruct (negb (components_ok comps)); [done|].
  destruct comps as [|c1 [|c2 [|? ?]]]; try (by intros [= <- <-]).
  assert (Hpts : Forall (fun p => p < length (sortedEdges this) + 1)
                        (children P)).
  { rewrite (hi_mst _ _ _ _ _ _ _ _ Hinv), <- (mst_length _ _ Hmst).
    apply (hi_members _ _ _ _ _ _ _ _ Hinv). by eapply list_elem_of_lookup_2. }
  assert (Hein : ∃ e0, e0 ∈ mst ∧ weight e = weight e0).
  { exists e. split; [|done]. rewrite <- Hperm.
    by eapply list_elem_of_lookup_2. }
  assert (Hfin : finite_weights mst) by apply Hmst.
  pose proof (createCluster_ok this c1 (weight e) (sortedEdges this) mst) as Hl.
  rewrite (hi_mst _ _ _ _ _ _ _ _ Hinv) in Hl.
  specialize (Hl Hfin (reflexivity _) Hein
                (component_bound this i e (children P) [c1; c2] c1 He Hpts
                   Hsplit ltac:(left))).
  destruct (createCluster_spec this c1 (weight e) mst (weight e))
    as (lc & Hlc & _).
  rewrite (hi_mst _ _ _ _ _ _ _ _ Hinv). rewrite Hlc in Hl |- *.
  cbn [snd] in Hl. cbn [sortedEdges set_nextClusterId].
  rewrite (hi_mst _ _ _ _ _ _ _ _ Hinv).
  set (this1 := set_nextClusterId _ this).
  pose proof (createCluster_ok this1 c2 (weight e) mst mst Hfin (reflexivity _)
                Hein
                (component_bound this i e (children P) [c1; c2] c2 He Hpts
                   Hsplit ltac:(right; left))) as Hr.
  destruct (createCluster_spec this1 c2 (weight e) mst (weight e))
    as (rc & Hrc & _).
  rewrite Hrc in Hr |- *. cbn [snd] in Hr.
  set (bl := large_enough this1 (length c1)).
  set (br := large_enough _ (length c2)).
  pose proof (hierarchy_step_shape bl br pi hierarchy lc rc
                ltac:(by eapply lookup_lt_Some)) as Hshape.
  cbv zeta in Hshape. rewrite Hshape. clear Hshape.
  intros [= <- <-]. apply Forall_app. split.
  - apply Forall_forall. intros c [k Hk]%list_elem_of_lookup.
    rewrite list_lookup_alter in Hk.
    rewrite Forall_forall in Hok.
    destruct (decide (pi = k)) as [->|Hne].
    + rewrite HP in Hk. injection Hk as <-.
      apply cluster_ok_update_parent, Hok. by eapply list_elem_of_lookup_2.
    + apply Hok. by eapply list_elem_of_lookup_2.
  - apply Forall_cons. split; [|apply Forall_singleton].
    + destruct bl; [done|by apply cluster_ok_stability].
    + destruct br; [done|by apply cluster_ok_stability].
Qed.

Lemma hierarchy_fold_ok (k : nat) :
  ∀ (i : nat) (splits : list nat) (this : HDBSCAN) (hierarchy : list Cluster)
    (this' : HDBSCAN) (hierarchy' : list Cluster),
  i + k = length sorted →
  hier_inv n id0 mcs mst (drop i sorted) splits this hierarchy →
  Forall (cluster_ok mst) hierarchy →
  foldM (hierarchy_step sorted) (this, hierarchy) (seq i k)
  = Ok (this', hierarchy') →
  Forall (cluster_ok mst) hierarchy'.
Proof.
  induction k as [|k IH]; intros i splits this hierarchy this' hierarchy'
    Hik Hinv Hok.
  - by intros [= <- <-].
  - destruct (lookup_lt_is_Some_2 sorted i ltac:(lia)) as [e He].
    destruct (hierarchy_step_inv n id0 mcs mst sorted Hmst Hperm Hsorted
                i e splits this hierarchy He Hinv)
      as (splits1 & this1 & hierarchy1 & Hstep & Hinv1).
    cbn [seq foldM]. rewrite Hstep, bind_Ok.
    apply (IH (S i) splits1); [lia|done|].
    exact (hierarchy_step_ok i splits this hierarchy this1 hierarchy1
             Hinv Hok Hstep).
Qed.

End statistics.

Lemma root_hier_inv (n : nat) (this : HDBSCAN) (mst sorted : list Edge)
    (first : Edge) (root : Cluster) :
  mst_ok n mst → 2 ≤ n → sortedEdges this = mst →
  sorted ≡ₚ mst → sorted_desc sorted → sorted !! 0 = Some first →
  id root = nextClusterId this → children root = seq 0 n →
  distance root = weight first →
  leftChild root = None → rightChild root = None →
  hier_inv n (nextClusterId this) (minClusterSize this) mst sorted []
    (set_nextClusterId (S (nextClusterId this)) this)
    [set_stability Num.zero root].
Proof.
  intros Hmst Hn Hfield Hperm Hsorted Hfirst Hid Hch Hdist Hl Hr.
  assert (Hfin : finite_weights sorted).
  { unfold finite_weights. rewrite Hperm. apply Hmst. }
  assert (Hwf : Num.finite (weight first)).
  { unfold finite_weights in Hfin. rewrite Forall_forall in Hfin.
    apply Hfin. by eapply list_elem_of_lookup_2. }
  split; simpl; try done.
  - lia.
  - eexists. split; [done|]. done.
  - intros [|k] c Hk; simplify_eq/=. lia.
  - intros c ->%list_elem_of_singleton. simpl. rewrite Hch.
    split_and!.
    + destruct n; [lia|done].
    + apply NoDup_seq.
    + apply Forall_forall. intros x Hx%elem_of_seq. lia.
  - intros c ->%list_elem_of_singleton. simpl. by rewrite Hdist.
  - intros c e ->%list_elem_of_singleton He. simpl. rewrite Hdist.
    by eapply sorted_desc_head.
  - intros [|k] P Hk; simplify_eq/=. done.
  - constructor.
Qed.

Lemma buildClusterHierarchy_ok (this : HDBSCAN) (mst : list Edge) (n : nat)
    (this' : HDBSCAN) (hierarchy : list Cluster) :
  mst_ok n mst → 2 ≤ n → sortedEdges this = mst →
  buildClusterHierarchy this mst = Ok (this', hierarchy) →
  Forall (cluster_ok mst) hierarchy.
Proof.
  intros Hmst Hn Hfield. unfold buildClusterHierarchy.
  set (sorted := js_sort by_weight_desc mst).
  assert (Hperm : sorted ≡ₚ mst) by apply js_sort_perm.
  assert (Hsorted : sorted_desc sorted) by (apply js_sort_sorted, Hmst).
  assert (Hfin : finite_weights sorted).
  { unfold finite_weights. rewrite Hperm. apply Hmst. }
  assert (Hlen : length sorted = length mst) by (by rewrite Hperm).
  pose proof (mst_length _ _ Hmst) as Hnlen.
  destruct (lookup_lt_is_Some_2 sorted 0 ltac:(lia)) as [first Hfirst].
  rewrite Hfirst. cbn [defined]. rewrite bind_Ok.
  pose proof (createCluster_ok this (seq 0 (length mst + 1)) (weight first)
                sorted mst Hfin Hperm) as Hroot.
  destruct (createCluster_spec this (seq 0 (length mst + 1)) (weight first)
              sorted (weight first))
    as (root & Hcr & Hid & Hch & Hdist & _ & _ & _ & Hl & Hr).
  rewrite Hcr in Hroot |- *. cbn [snd] in Hroot.
  rewrite <- Hnlen in Hch.
  apply (hierarchy_fold_ok n (nextClusterId this) (minClusterSize this) mst
           sorted Hmst Hperm Hsorted (length sorted) 0 []); [done| |].
  - rewrite drop_0. by apply (root_hier_inv n this mst sorted first root).
  - apply Forall_singleton, cluster_ok_stability, Hroot.
    + exists first. split; [|done]. rewrite <- Hperm.
      by eapply list_elem_of_lookup_2.
    + intros e He _. apply (sorted_desc_head sorted first e); try done.
      by rewrite Hperm.
Qed.

(** ** The weights of the tree of a [fit] *)

Lemma matrix_entry (d : nat) (this : HDBSCAN) (data : list (list num))
    (r : HDBSCAN) (m : list (list num)) (i j : nat) :
  dataset d data →
  computeMutualReachabilityDistance this data = Ok (r, m) →
  i < length data → j < length data →
  Num.nonneg (mget m i j) ∧ Num.nonneg (directDistance data i j)
  ∧ Num.leb (directDistance data i j) (mget m i j) = true.
Proof.
  intros Hdata. unfold computeMutualReachabilityDistance.
  destruct (coreDistances_result d data (minSamples this) (seq 0 (length data)))
    as [(cs & -> & Hlen & Hfin)|Herr]; [done| | |by rewrite Herr].
  { apply Forall_forall. intros k Hk%elem_of_seq. lia. }
  rewrite bind_Ok. intros [= _ <-] Hi Hj. rewrite length_seq in Hlen.
  match goal with
  | |- Num.nonneg (mget ?M i j) ∧ _ =>
      assert (mget M i j = max3 (directDistance data i j) (get cs i) (get cs j))
        as ->
  end.
  { unfold mget. rewrite list_lookup_fmap, lookup_seq_lt by done.
    cbn [fmap option_fmap option_map from_option Datatypes.id].
    unfold get at 1. rewrite list_lookup_fmap, lookup_seq_lt by done.
    reflexivity. }
  destruct (directDistance_value d data i j Hdata Hi Hj) as (Hdq & _).
  pose proof (get_nonneg cs i Hfin ltac:(lia)) as Hci.
  pose proof (get_nonneg cs j Hfin ltac:(lia)) as Hcj.
  destruct (max3_lub _ _ _ Hdq Hci Hcj) as (? & ? & _).
  done.
Qed.

(** an edge of the tree joins two different points, and its weight is a
    rational at least their squared distance *)
Lemma tree_weights (d : nat) (this : HDBSCAN) (data : list (list num))
    (r : HDBSCAN) (m : list (list num)) (mst : list Edge) :
  dataset d data →
  computeMutualReachabilityDistance this data = Ok (r, m) →
  mst_ok (length data) mst → 2 ≤ length data →
  weights_of m mst →
  ∀ e, e ∈ mst →
    ∃ q dq, weight e = Fin q
            ∧ directDistance data (source e) (destination e) = Fin dq
            ∧ source e < length data ∧ destination e < length data
            ∧ source e ≠ destination e
            ∧ (0 <= dq)%Q ∧ (dq <= q)%Q.
Proof.
  intros Hdata Hmat Hmst Hn Hw e He.
  destruct (tree_order_bound _ _ _ (mst_tree _ _ Hmst)) with (e := e)
    as (Hs & Hd & Hne); [|done|].
  { intros x ->%elem_of_singleton. lia. }
  destruct (matrix_entry d this data r m (source e) (destination e)
              Hdata Hmat Hs Hd) as (Hq & Hdq & Hle).
  unfold weights_of in Hw. rewrite Forall_forall in Hw.
  rewrite <- (Hw e He) in Hq, Hle.
  pose proof (mst_finite _ _ Hmst) as Hfin.
  unfold finite_weights in Hfin. rewrite Forall_forall in Hfin.
  specialize (Hfin e He).
  destruct (weight e) as [q| | |]; try done.
  destruct (directDistance data _ _) as [dq| | |]; try done.
  exists q, dq. apply leb_Fin in Hle. done.
Qed.

(** ** Memberships and stabilities *)

Lemma cluster_numbers (mst : list Edge) (c : Cluster) :
  cluster_ok mst c →
  (∀ e, e ∈ mst → ∃ q, weight e = Fin q ∧ (0 <= q)%Q) →
  ∃ D L,
    maxEdgeWeight c = Fin D ∧ birthDistance c = Fin D
    ∧ leaveEdgeWeight c = Fin L
    ∧ (0 <= L)%Q ∧ (L <= D)%Q
    ∧ (∃ e, e ∈ mst ∧ weight e = Fin D)
    ∧ ∀ p, p ∈ children c →
        ∃ a, minReachabilityMap c !! p = Some (Fin a)
             ∧ (0 <= a)%Q ∧ (a <= D)%Q.
Proof.
  intros (Hmax & Hbirth & (e0 & He0 & Hd) & Hmap & Hleave & Hbound) Hw.
  destruct (Hw e0 He0) as (D & HD & HD0).
  assert (Hin : ∀ v, (v = Num.zero
                      ∨ ∃ e, e ∈ mst ∧ internal (children c) e ∧ v = weight e) →
            ∃ a, v = Fin a ∧ (0 <= a)%Q ∧ (a <= D)%Q).
  { intros v [->|(e & He & Hi & ->)].
    - exists 0%Q. split_and!; [done|lra|done].
    - destruct (Hw e He) as (a & Ha & Ha0). exists a.
      specialize (Hbound e He Hi). rewrite Hd, HD, Ha in Hbound.
      apply leb_Fin in Hbound. done. }
  destruct (Hin _ Hleave) as (L & HL & HL0 & HLD).
  exists D, L. rewrite Hmax, Hbirth, Hd, HD. split_and!; try done.
  - by exists e0.
  - intros p Hp. destruct (Hmap p Hp) as (v & Hv & Hcase).
    destruct (Hin v Hcase) as (a & -> & ? & ?). by exists a.
Qed.




Lemma mul_not_negative (x : num) (len : Q) :
  not_negative x → (0 <= len)%Q → not_negative (Num.mul x (Fin len)).
Proof.
  intros Hx Hlen. destruct x as [q| | |]; try done.
  - cbn [Num.mul]. simpl in Hx.
    assert (0 <= q * len)%Q by (by apply Qmult_le_0_compat).
    pose proof huge_pos.
    destruct (overflow_cases (q * len)) as [[_ ->]|[[? _]|(_ & _ & ->)]];
      [done|lra|done].
  - cbn [Num.mul Num.sign]. destruct (0 ?= len)%Q eqn:E; [done..|].
    apply Qgt_alt in E. lra.
Qed.

Lemma stability_sign (L D len : Q) :
  (0 <= L)%Q → (L <= D)%Q → (0 <= len)%Q →
  not_negative
    (Num.add Num.zero
       (Num.mul (Num.sub (Num.div Num.one (Fin L)) (Num.div Num.one (Fin D)))
                (Fin len))).
Proof.
  intros HL HLD Hlen. rewrite add_zero_mul. apply mul_not_negative; [|done].
  pose proof huge_pos.
  destruct (div_one_cases L HL) as [[-> HLh]|(-> & HLpos & HLh)];
    destruct (div_one_cases D ltac:(lra)) as [[-> HDh]|(-> & HDpos & HDh)];
    try done.
  - exfalso. nra.
  - assert (1 / D <= 1 / L)%Q.
    { apply Qle_shift_div_r; [done|].
      assert (1 <= D / L)%Q by (apply Qle_shift_div_l; [done|lra]).
      assert (1 / L * D == D / L)%Q as -> by (field; lra). done. }
    assert (1 / L < Num.huge)%Q by (apply Qlt_shift_div_r; lra).
    assert (0 < 1 / D)%Q by (apply Qlt_shift_div_l; lra).
    cbn [Num.sub Num.neg Num.add]. rewrite overflow_Fin by lra.
    simpl. lra.
Qed.

(** X25.  For a cluster of the hierarchy of a [fit]
    [leaveEdgeWeight] is not above [birthDistance], both are not negative,
    and the stability that [calculateClusterStability] computes is never
    negative: it is a number [>= 0], [Infinity] or [NaN]. *)
Theorem hierarchy_stabilities (p : HDBSCANParams) (d : nat)
    (data : list (list num)) (h : HDBSCAN) (hierarchy : list Cluster) :
  dataset d data → 2 ≤ length data →
  hierarchy_of p data = Ok (h, hierarchy) →
  ∀ c, c ∈ hierarchy →
    maxEdgeWeight c = distance c ∧ birthDistance c = distance c
    ∧ Num.leb Num.zero (leaveEdgeWeight c) = true
    ∧ Num.leb (leaveEdgeWeight c) (birthDistance c) = true
    ∧ not_negative (calculateClusterStability c (getClusterPoints c)).
Proof.
  intros Hdata Hn Hrun.
  destruct (hierarchy_of_parts p d data h hierarchy Hdata Hn Hrun)
    as (h0 & m & mst & splits & _ & Hmat & Hlen & _ & _ & Hord & Hmst & Hbuild
        & Hinv).
  pose proof (buildClusterHierarchy_ok
                (set_sortedEdges mst (set_mutualReachabilityDistance m h0))
                mst (length data) h hierarchy
                Hmst Hn eq_refl Hbuild) as Hok.
  pose proof (tree_weights d h0 data _ m mst Hdata Hmat Hmst Hn Hord) as Hw.
  assert (Hw0 : ∀ e, e ∈ mst → ∃ q, weight e = Fin q ∧ (0 <= q)%Q).
  { intros e He. destruct (Hw e He) as (q & dq & Hq & _ & _ & _ & _ & ? & ?).
    exists q. split; [done|lra]. }
  intros c Hc. rewrite Forall_forall in Hok. specialize (Hok c Hc).
  destruct (cluster_numbers mst c Hok Hw0)
    as (D & L & HD & HB & HL & HL0 & HLD & _ & _).
  destruct Hok as (Hmax & Hbirth & _).
  split_and!; [done..| | |].
  - rewrite HL. by apply leb_Fin.
  - rewrite HL, HB. by apply leb_Fin.
  - unfold calculateClusterStability. rewrite HL, HB.
    apply stability_sign; [done..|].
    unfold Num.of_nat. change 0%Q with (inject_Z 0). rewrite <- Zle_Qle. lia.
Qed.

Lemma hierarchy_stabilities_witness :
  ∃ h hierarchy,
    hierarchy_of (params 2 2) line_3_1 = Ok (h, hierarchy)
    ∧ ∀ c, c ∈ hierarchy →
        maxEdgeWeight c = distance c ∧ birthDistance c = distance c
        ∧ Num.leb Num.zero (leaveEdgeWeight c) = true
        ∧ Num.leb (leaveEdgeWeight c) (birthDistance c) = true
        ∧ not_negative (calculateClusterStability c (getClusterPoints c)).
Proof.
  eexists _, _. split; [vm_compute; reflexivity|].
  eapply (hierarchy_stabilities (params 2 2) 1 line_3_1).
  - apply dataset_line_3_1.
  - simpl. lia.
  - vm_compute; reflexivity.
Defined.
